(** * Dictionary-based compression for multilingual text: the LZW engine

    A shallow embedding of [compression_engine.py] (classes
    [LZW77Compressor], [MultilingualDictionary], [HybridLZW77Compressor])
    and the properties of it that the specification states.

    Conventions.
    - A Python [str] is a list of Unicode code points ([N]); a one-symbol
      string is a one-element list.
    - A Python [bytes] is a [list byte].
    - A Python [int] is a [Z].
    - [self.dictionary] and [self.reverse_dictionary] are finite maps.
    - A Python exception is a value of [exception]; a function that can
      raise returns a [result]. *)

From Stdlib Require Import ZArith NArith List Lia Strings.Byte String Ascii.
From Stdlib Require Import Uint63 Floats.
From stdpp Require Import base option list gmap.

Local Open Scope Z_scope.

Abbreviation str := (list N).
Abbreviation bytes := (list byte).

(** ** Exceptions *)

Inductive exception : Type :=
| KeyError_str (key : str)          (* self.dictionary[key] *)
| KeyError_int (key : Z)            (* self.reverse_dictionary[key] *)
| IndexError                        (* s[0] on an empty str *)
| InvalidCode (code : Z)            (* ValueError("Invalid code in compressed data: ...") *)
| StructError                       (* struct.error: value out of range for the format *)
| UnicodeEncodeError                (* str.encode on a symbol the codec cannot encode *)
| ZeroDivisionError                 (* a / 0 *)
| CompressionFailed (e : exception)   (* ValueError("Compression failed: ...") *)
| DecompressionFailed (e : exception) (* ValueError("Decompression failed: ...") *).

Inductive result (A : Type) : Type :=
| Ok (a : A)
| Raise (e : exception).
Arguments Ok {A} a.
Arguments Raise {A} e.

#[global] Instance result_ret : MRet result := fun A a => Ok a.
#[global] Instance result_bind : MBind result := fun A B k r =>
  match r with
  | Ok a => k a
  | Raise e => Raise e
  end.

(** [try: ... except Exception as e: raise ValueError(...)] *)
Definition try_except {A} (wrap : exception -> exception) (r : result A) : result A :=
  match r with
  | Ok a => Ok a
  | Raise e => Raise (wrap e)
  end.

(** ** The codecs of the Python runtime, as far as the engine uses them *)

Inductive Encoding : Type := utf_8 | utf_16 | latin_1.

Inductive ErrorHandler : Type := strict | replace.

Definition REPLACEMENT_CHARACTER : N := 0xFFFD.

(** [bytes([i]).decode(encoding, errors=...)] for one byte [i] in
    [range(256)]: [None] stands for [UnicodeDecodeError].  Under UTF-8 a
    byte below 128 is the symbol itself and any other single byte is
    invalid; a single byte is truncated data under UTF-16; every byte is a
    symbol under Latin-1.  With [errors='replace'] an invalid sequence
    decodes to U+FFFD and nothing is raised. *)
Definition decode_byte (enc : Encoding) (errors : ErrorHandler) (i : Z) : option str :=
  let valid :=
    match enc with
    | utf_8 => i <? 128
    | utf_16 => false
    | latin_1 => true
    end in
  if valid then Some [Z.to_N i]
  else match errors with
       | strict => None
       | replace => Some [REPLACEMENT_CHARACTER]
       end.

Definition surrogate (c : N) : bool := ((0xD800 <=? c) && (c <=? 0xDFFF))%N.

Definition byte_of_N (n : N) : byte :=
  match Byte.of_N (n mod 256) with
  | Some b => b
  | None => x00
  end.

(** [text.encode(encoding)] (strict): [None] stands for
    [UnicodeEncodeError]. *)
Definition encode_symbol (enc : Encoding) (c : N) : option bytes :=
  (match enc with
   | utf_8 =>
       if c <? 0x80 then Some [byte_of_N c]
       else if c <? 0x800 then
         Some [byte_of_N (0xC0 + c / 64); byte_of_N (0x80 + c mod 64)]
       else if surrogate c then None
       else if c <? 0x10000 then
         Some [byte_of_N (0xE0 + c / 4096); byte_of_N (0x80 + (c / 64) mod 64);
               byte_of_N (0x80 + c mod 64)]
       else if c <? 0x110000 then
         Some [byte_of_N (0xF0 + c / 262144); byte_of_N (0x80 + (c / 4096) mod 64);
               byte_of_N (0x80 + (c / 64) mod 64); byte_of_N (0x80 + c mod 64)]
       else None
   | utf_16 =>
       if surrogate c then None
       else if c <? 0x10000 then Some [byte_of_N (c mod 256); byte_of_N (c / 256)]
       else if c <? 0x110000 then
         let hi := 0xD800 + (c - 0x10000) / 1024 in
         let lo := 0xDC00 + (c - 0x10000) mod 1024 in
         Some [byte_of_N (hi mod 256); byte_of_N (hi / 256);
               byte_of_N (lo mod 256); byte_of_N (lo / 256)]
       else None
   | latin_1 => if c <? 256 then Some [byte_of_N c] else None
   end)%N.

Fixpoint encode_symbols (enc : Encoding) (text : str) : option bytes :=
  match text with
  | [] => Some []
  | c :: text =>
      match encode_symbol enc c, encode_symbols enc text with
      | Some b, Some bs => Some (b ++ bs)
      | _, _ => None
      end
  end.

(** The UTF-16 codec writes a byte-order mark first. *)
Definition encode (enc : Encoding) (text : str) : result bytes :=
  match encode_symbols enc text with
  | Some bs =>
      Ok (match enc with
          | utf_16 => [xff; xfe] ++ bs
          | _ => bs
          end)
  | None => Raise UnicodeEncodeError
  end.

(** [unicodedata.normalize('NFC', .)] belongs to the Python runtime, not
    to the repository: the engine is parameterised by it. *)
Class unicodedata : Type := { normalize_NFC : str -> str }.

(** ** [struct.pack] and [struct.unpack], big-endian *)

(** [struct.pack('>H', n)] *)
Definition pack_H (n : Z) : result bytes :=
  if (0 <=? n) && (n <=? 65535)
  then Ok [byte_of_N (Z.to_N (n / 256)); byte_of_N (Z.to_N (n mod 256))]
  else Raise StructError.

(** [struct.pack('>I', n)] *)
Definition pack_I (n : Z) : result bytes :=
  if (0 <=? n) && (n <=? 4294967295)
  then Ok [byte_of_N (Z.to_N (n / 16777216)); byte_of_N (Z.to_N ((n / 65536) mod 256));
           byte_of_N (Z.to_N ((n / 256) mod 256)); byte_of_N (Z.to_N (n mod 256))]
  else Raise StructError.

(** [struct.unpack('>H', b)[0]] and [struct.unpack('>I', b)[0]]: the
    big-endian value of the bytes (the callers pass slices of the right
    length). *)
Definition unpack_be (b : bytes) : Z :=
  foldl (fun acc x => acc * 256 + Z.of_N (Byte.to_N x)) 0 b.

(** The slice [data[lo:hi]] for [0 <= lo <= hi]. *)
Definition slice {A} (data : list A) (lo hi : Z) : list A :=
  take (Z.to_nat (hi - lo)) (drop (Z.to_nat lo) data).

(** [len(x)] *)
Definition len {A} (l : list A) : Z := Z.of_nat (length l).

(** ** String literals

    [py "..."] is the Python [str] that a source literal denotes: the
    literal's UTF-8 bytes read back as code points. *)
Fixpoint utf8_symbols (b : list N) : str :=
  (match b with
   | [] => []
   | b0 :: r0 =>
       if b0 <? 0x80 then b0 :: utf8_symbols r0
       else match r0 with
            | [] => []
            | b1 :: r1 =>
                if b0 <? 0xE0 then ((b0 - 0xC0) * 64 + (b1 - 0x80)) :: utf8_symbols r1
                else match r1 with
                     | [] => []
                     | b2 :: r2 =>
                         if b0 <? 0xF0
                         then ((b0 - 0xE0) * 4096 + (b1 - 0x80) * 64 + (b2 - 0x80))
                                :: utf8_symbols r2
                         else match r2 with
                              | [] => []
                              | b3 :: r3 =>
                                  ((b0 - 0xF0) * 262144 + (b1 - 0x80) * 4096
                                   + (b2 - 0x80) * 64 + (b3 - 0x80)) :: utf8_symbols r3
                              end
                     end
            end
   end)%N.

Definition py (s : string) : str :=
  utf8_symbols (map Byte.to_N (list_byte_of_string s)).

(** ** [class MultilingualDictionary]

    The two attributes are Python sets.  A set is modelled by the list of
    its elements in iteration order, which Python leaves unspecified: the
    engine is stated for any such lists, and [MultilingualDictionary_init]
    takes the order of the source text, repeats dropped. *)
Record MultilingualDictionary : Type := {
  common_words : list str;
  common_patterns : list str
}.

Definition common_words_literal : list str := [
    py "the"; py "and"; py "is"; py "in"; py "to"; py "of"; py "a"; py "that"; py "it"; py "with"; py "for"; py "as"; py "was"; py "on"; py "are";
    py "el"; py "la"; py "de"; py "que"; py "y"; py "en"; py "un"; py "es"; py "se"; py "no"; py "te"; py "lo"; py "le"; py "da"; py "su";
    py "le"; py "de"; py "et"; py "à"; py "un"; py "il"; py "être"; py "et"; py "en"; py "avoir"; py "que"; py "pour"; py "dans"; py "ce"; py "son";
    py "der"; py "die"; py "und"; py "in"; py "den"; py "von"; py "zu"; py "das"; py "mit"; py "sich"; py "des"; py "auf"; py "für"; py "ist"; py "im";
    py "o"; py "a"; py "do"; py "da"; py "em"; py "um"; py "para"; py "é"; py "com"; py "não"; py "uma"; py "os"; py "no"; py "se"; py "na";
    py "il"; py "di"; py "che"; py "è"; py "e"; py "la"; py "per"; py "una"; py "in"; py "del"; py "un"; py "da"; py "essere"; py "con"; py "su";
    py "и"; py "в"; py "не"; py "на"; py "я"; py "быть"; py "он"; py "с"; py "а"; py "как"; py "по"; py "это"; py "она"; py "к"; py "но";
    py "的"; py "一"; py "是"; py "在"; py "不"; py "了"; py "有"; py "和"; py "人"; py "这"; py "中"; py "大"; py "为"; py "上"; py "个";
    py "في"; py "من"; py "إلى"; py "على"; py "أن"; py "هذا"; py "هذه"; py "التي"; py "الذي"; py "كان"; py "كل"; py "عن"; py "مع"; py "أو"; py "كما"
  ].

Definition common_patterns_literal : list str := [
    py ". "; py ", "; py "; "; py ": "; py "! "; py "? "; [10]%N; [13; 10]%N; [9]%N; py "  ";
    py "()"; py "[]"; py "{}"; [34; 34]%N; py "''"; py "--"; py "..."; py " - "; py " / "
  ].

Definition MultilingualDictionary_init : MultilingualDictionary :=
  {| common_words := remove_dups common_words_literal;
     common_patterns := remove_dups common_patterns_literal |}.

(** ** The compressor object

    One record for both classes: [multilingual_dict] is [None] for an
    instance of [LZW77Compressor] and [Some d] for an instance of
    [HybridLZW77Compressor], which decides what [self.reset_dictionary()]
    runs. *)
Record Compressor : Type := {
  max_dict_size : Z;
  encoding : Encoding;
  multilingual_dict : option MultilingualDictionary;
  dictionary : gmap str Z;
  reverse_dictionary : gmap Z str;
  next_code : Z
}.

(** [key in d] *)
Definition contains `{Countable K} {V} (d : gmap K V) (key : K) : bool :=
  match d !! key with
  | Some _ => true
  | None => false
  end.

(** [self.dictionary[key]] *)
Definition dictionary_getitem (self : Compressor) (key : str) : result Z :=
  match dictionary self !! key with
  | Some code => Ok code
  | None => Raise (KeyError_str key)
  end.

(** [self.reverse_dictionary[code]] *)
Definition reverse_dictionary_getitem (self : Compressor) (code : Z) : result str :=
  match reverse_dictionary self !! code with
  | Some s => Ok s
  | None => Raise (KeyError_int code)
  end.

(** [s[0]] *)
Definition first_symbol (s : str) : result N :=
  match s with
  | c :: _ => Ok c
  | [] => Raise IndexError
  end.

(** The statement triple that the source repeats at every insertion:
[[
    self.dictionary[s] = self.next_code
    self.reverse_dictionary[self.next_code] = s
    self.next_code += 1
]] *)
Definition add_entry (s : str) (self : Compressor) : Compressor :=
  {| max_dict_size := max_dict_size self;
     encoding := encoding self;
     multilingual_dict := multilingual_dict self;
     dictionary := <[s := next_code self]> (dictionary self);
     reverse_dictionary := <[next_code self := s]> (reverse_dictionary self);
     next_code := next_code self + 1 |}.

Module LZW77Compressor.

(** One iteration of [for i in range(256)]. *)
Definition base_entry (self : Compressor) (i : Z) : Compressor :=
  match decode_byte (encoding self) replace i with
  | Some char =>
      {| max_dict_size := max_dict_size self;
         encoding := encoding self;
         multilingual_dict := multilingual_dict self;
         dictionary := <[char := i]> (dictionary self);
         reverse_dictionary := <[i := char]> (reverse_dictionary self);
         next_code := next_code self |}
  | None => self                       (* except UnicodeDecodeError: continue *)
  end.

Definition reset_dictionary (self : Compressor) : Compressor :=
  let self :=
    {| max_dict_size := max_dict_size self;
       encoding := encoding self;
       multilingual_dict := multilingual_dict self;
       dictionary := ∅;
       reverse_dictionary := ∅;
       next_code := next_code self |} in
  let self := foldl base_entry self (seqZ 0 256) in
  {| max_dict_size := max_dict_size self;
     encoding := encoding self;
     multilingual_dict := multilingual_dict self;
     dictionary := dictionary self;
     reverse_dictionary := reverse_dictionary self;
     next_code := 256 |}.

End LZW77Compressor.

Module HybridLZW77Compressor.

(** One iteration of [for pattern in all_patterns]. *)
Definition seed_entry (self : Compressor) (pattern : str) : Compressor :=
  if negb (contains (dictionary self) pattern) && (next_code self <? max_dict_size self)
  then add_entry pattern self
  else self.

Definition reset_dictionary (d : MultilingualDictionary) (self : Compressor) : Compressor :=
  let self := LZW77Compressor.reset_dictionary self in
  let all_patterns := common_words d ++ common_patterns d in
  foldl seed_entry self all_patterns.

End HybridLZW77Compressor.

(** [self.reset_dictionary()], resolved on the class of [self]. *)
Definition reset_dictionary (self : Compressor) : Compressor :=
  match multilingual_dict self with
  | None => LZW77Compressor.reset_dictionary self
  | Some d => HybridLZW77Compressor.reset_dictionary d self
  end.

(** [LZW77Compressor(max_dict_size, encoding)] and
    [HybridLZW77Compressor(max_dict_size, encoding)]: the constructors
    store the arguments and call [self.reset_dictionary()]. *)
Definition LZW77Compressor_init (max_dict_size : Z) (encoding : Encoding) : Compressor :=
  reset_dictionary
    {| max_dict_size := max_dict_size; encoding := encoding; multilingual_dict := None;
       dictionary := ∅; reverse_dictionary := ∅; next_code := 0 |}.

Definition HybridLZW77Compressor_init (max_dict_size : Z) (encoding : Encoding) : Compressor :=
  reset_dictionary
    {| max_dict_size := max_dict_size; encoding := encoding;
       multilingual_dict := Some MultilingualDictionary_init;
       dictionary := ∅; reverse_dictionary := ∅; next_code := 0 |}.

(** ** Whitespace, [re.sub] on a one-class pattern, [str.strip] *)

(** The symbols that [\s] matches in a [str] pattern; [str.strip()]
    strips the same ones. *)
Definition isspace (c : N) : bool :=
  (((0x09 <=? c) && (c <=? 0x0D)) || ((0x1C <=? c) && (c <=? 0x20))
   || (c =? 0x85) || (c =? 0xA0) || (c =? 0x1680)
   || ((0x2000 <=? c) && (c <=? 0x200A))
   || (c =? 0x2028) || (c =? 0x2029) || (c =? 0x202F) || (c =? 0x205F)
   || (c =? 0x3000))%N.

Definition LINE_FEED : N := 10.
Definition SPACE : N := 32.

Definition is_newline (c : N) : bool := (c =? LINE_FEED)%N.

(** [re.sub(r'X+', repl, text)] for a pattern [X] that matches one symbol
    of the class [cls]: every maximal run of such symbols is replaced by
    [repl].  [in_run] tells that the symbol before belongs to a run that
    has been replaced already. *)
Fixpoint sub_runs (cls : N -> bool) (repl : str) (in_run : bool) (text : str) : str :=
  match text with
  | [] => []
  | c :: text =>
      if cls c
      then (if in_run then [] else repl) ++ sub_runs cls repl true text
      else c :: sub_runs cls repl false text
  end.

Definition re_sub_plus (cls : N -> bool) (repl : str) (text : str) : str :=
  sub_runs cls repl false text.

Fixpoint lstrip (text : str) : str :=
  match text with
  | [] => []
  | c :: rest => if isspace c then lstrip rest else text
  end.

Definition rstrip (text : str) : str := reverse (lstrip (reverse text)).

Definition strip (text : str) : str := rstrip (lstrip text).

(** ** Numbers of the Python runtime

    A Python [float] is an IEEE-754 binary64 number: Rocq's primitive
    [float], with the same correctly rounded operations. *)

Inductive number : Type :=
| Int (z : Z)
| Float (f : float).

(** [float(n)] for [0 <= n < 2^63] (exact below [2^53]). *)
Definition float_of_Z (n : Z) : float := PrimFloat.of_uint63 (Uint63.of_Z n).

(** [a / b] on two [int]s: the correctly rounded quotient. *)
Definition truediv (a b : Z) : result float :=
  if b =? 0 then Raise ZeroDivisionError
  else Ok (float_of_Z a / float_of_Z b)%float.

(** The integer nearest to [a / d] for [d > 0], ties to the even one. *)
Definition div_half_even (a d : Z) : Z :=
  let q := a / d in
  let r := a mod d in
  if 2 * r <? d then q
  else if d <? 2 * r then q + 1
  else if Z.even q then q else q + 1.

(** [round(x, ndigits)] for a [float] and a small [ndigits >= 0] (the
    engine passes 2).  The runtime writes the exact value [m * 2^e] of
    [x] as a decimal with [ndigits] places, rounding ties to even, and
    reads that decimal [n / 10^ndigits] back as the nearest double.
    - Where doubles lie no more than [10^-ndigits] apart
      ([10^ndigits <= 2^-e]) the integer [n] is at most [2^53]: it is a
      double, and so is [10^ndigits], so that the division below, being
      correctly rounded, is the nearest double to the decimal.
    - Where doubles lie further apart the decimal is within half a step of
      [x], and [x] is returned.
    A zero, an infinity and NaN are returned as they are. *)
Definition round (x : float) (ndigits : Z) : float :=
  match Prim2SF x with
  | S754_finite s m e =>
      if 10 ^ ndigits <=? 2 ^ (- e) then
        let n := div_half_even (Z.pos m * 10 ^ ndigits) (2 ^ (- e)) in
        let r := (float_of_Z n / float_of_Z (10 ^ ndigits))%float in
        if s then (- r)%float else r
      else x
  | _ => x
  end.

Record Stats : Type := {
  original_size : Z;
  compressed_size : Z;
  compression_ratio : number;
  space_saved : Z
}.

(** ** Methods of [LZW77Compressor] *)

Module LZW77.

Section WithUnicodedata.
Context `{unicodedata}.

(** The body of [for char in text] in [compress]. The loop carries
    [self] and the locals [result] and [current_string]. *)
Definition compress_char (st : Compressor * list Z * str) (char : N)
  : result (Compressor * list Z * str) :=
  let '(self, result, current_string) := st in
  let self :=
    if negb (contains (dictionary self) [char]) then
      if next_code self <? max_dict_size self then add_entry [char] self
      else
        let self := reset_dictionary self in
        if negb (contains (dictionary self) [char]) then add_entry [char] self
        else self
    else self in
  let new_string := current_string ++ [char] in
  if contains (dictionary self) new_string then Ok (self, result, new_string)
  else
    code ← dictionary_getitem self current_string;
    let result := result ++ [code] in
    let self :=
      if next_code self <? max_dict_size self then add_entry new_string self
      else reset_dictionary self in
    Ok (self, result, [char]).

Fixpoint compress_loop (st : Compressor * list Z * str) (text : str)
  : result (Compressor * list Z * str) :=
  match text with
  | [] => Ok st
  | char :: text => st ← compress_char st char; compress_loop st text
  end.

(** [b''.join(struct.pack('>H', code) for code in codes)] *)
Fixpoint pack_codes (codes : list Z) : result bytes :=
  match codes with
  | [] => Ok []
  | code :: codes => b ← pack_H code; bs ← pack_codes codes; Ok (b ++ bs)
  end.

Definition _encode_codes (self : Compressor) (codes : list Z) : result bytes :=
  packed_codes ← pack_codes codes;
  header ← pack_I (len codes);
  header2 ← pack_I (next_code self - 256);
  Ok ((header ++ header2) ++ packed_codes).

(** [if current_string: result.append(self.dictionary[current_string])] *)
Definition emit_last (st : Compressor * list Z * str) : result (Compressor * list Z) :=
  let '(self, result, current_string) := st in
  match current_string with
  | [] => Ok (self, result)
  | _ :: _ =>
      code ← dictionary_getitem self current_string;
      Ok (self, result ++ [code])
  end.

(** The codes that a [compress] call emits, with the state of [self]
    when the loop is over: everything before the final framing. *)
Definition compress_codes (self : Compressor) (text : str)
  : result (Compressor * list Z) :=
  let self := reset_dictionary self in
  let text := normalize_NFC text in
  st ← compress_loop (self, [], []) text;
  emit_last st.

Definition compress (self : Compressor) (text : str) : result (Compressor * bytes) :=
  match text with
  | [] => Ok (self, [])
  | _ :: _ =>
      '(self, result) ← compress_codes self text;
      frame ← _encode_codes self result;
      Ok (self, frame)
  end.

End WithUnicodedata.

(** The body of [for i in range(num_codes)] in [_decode_codes];
    [remaining] counts the iterations left. *)
Fixpoint decode_loop (codes_data : bytes) (remaining : nat) (i : Z) (codes : list Z)
  : list Z :=
  match remaining with
  | O => codes
  | S remaining =>
      if i * 2 + 2 <=? len codes_data then
        let code := unpack_be (slice codes_data (i * 2) (i * 2 + 2)) in
        decode_loop codes_data remaining (i + 1) (codes ++ [code])
      else codes                                             (* break *)
  end.

Definition _decode_codes (data : bytes) : list Z :=
  if len data <? 8 then []
  else
    let num_codes := unpack_be (slice data 0 4) in
    let dict_size_used := unpack_be (slice data 4 8) in
    let codes_data := drop 8 data in
    decode_loop codes_data (Z.to_nat num_codes) 0 [].

(** The chunk that [decompress] reads for [code]: the [if]/[elif]/[else]
    at the head of the loop body. *)
Definition resolve_code (self : Compressor) (old_code code : Z) : result str :=
  if contains (reverse_dictionary self) code then reverse_dictionary_getitem self code
  else if code =? next_code self then
    previous ← reverse_dictionary_getitem self old_code;
    c ← first_symbol previous;
    Ok (previous ++ [c])
  else Raise (InvalidCode code).

(** The body of [for code in codes[1:]] in [decompress]. The loop
    carries [self] and the locals [result] and [old_code]. *)
Definition decompress_code (st : Compressor * list str * Z) (code : Z)
  : result (Compressor * list str * Z) :=
  let '(self, result, old_code) := st in
  string ← resolve_code self old_code code;
  let result := result ++ [string] in
  self ←
    (if next_code self <? max_dict_size self then
       previous ← reverse_dictionary_getitem self old_code;
       c ← first_symbol string;
       Ok (add_entry (previous ++ [c]) self)
     else
       let self := reset_dictionary self in
       previous ← reverse_dictionary_getitem self old_code;
       c ← first_symbol string;
       Ok (add_entry (previous ++ [c]) self));
  Ok (self, result, code).

Fixpoint decompress_loop (st : Compressor * list str * Z) (codes : list Z)
  : result (Compressor * list str * Z) :=
  match codes with
  | [] => Ok st
  | code :: codes => st ← decompress_code st code; decompress_loop st codes
  end.

Definition decompress (self : Compressor) (compressed_data : bytes)
  : result (Compressor * str) :=
  match compressed_data with
  | [] => Ok (self, [])
  | _ :: _ =>
      let self := reset_dictionary self in
      let codes := _decode_codes compressed_data in
      match codes with
      | [] => Ok (self, [])
      | old_code :: rest =>
          first ← reverse_dictionary_getitem self old_code;
          '(self, result, _) ← decompress_loop (self, [first], old_code) rest;
          Ok (self, concat result)
      end
  end.

Definition get_compression_stats (self : Compressor) (original_text : str)
    (compressed_data : bytes) : result Stats :=
  encoded ← encode (encoding self) original_text;
  let original_size := len encoded in
  let compressed_size := len compressed_data in
  if original_size =? 0 then
    Ok {| original_size := 0;
          compressed_size := compressed_size;
          compression_ratio := Int 0;
          space_saved := 0 |}
  else
    quotient ← truediv compressed_size original_size;
    let compression_ratio := ((1 - quotient) * 100)%float in
    let space_saved := original_size - compressed_size in
    Ok {| original_size := original_size;
          compressed_size := compressed_size;
          compression_ratio := Float (round compression_ratio 2);
          space_saved := space_saved |}.

End LZW77.

(** ** Methods of [HybridLZW77Compressor] *)

Module Hybrid.

Section WithUnicodedata.
Context `{unicodedata}.

Definition preprocess_text (text : str) : str :=
  let text := normalize_NFC text in
  let text := re_sub_plus isspace [SPACE] text in
  let text := re_sub_plus is_newline [LINE_FEED] text in
  strip text.

Definition compress (self : Compressor) (text : str) : result (Compressor * bytes) :=
  try_except CompressionFailed
    (let preprocessed_text := preprocess_text text in
     LZW77.compress self preprocessed_text).

End WithUnicodedata.

Definition decompress (self : Compressor) (compressed_data : bytes)
  : result (Compressor * str) :=
  try_except DecompressionFailed (LZW77.decompress self compressed_data).

End Hybrid.

(** ** Vocabulary of the statements *)

(** The value a method returns, the final state of [self] left out. *)
Definition value {S A} (r : result (S * A)) : result A :=
  match r with
  | Ok (_, a) => Ok a
  | Raise e => Raise e
  end.

(** The 2-byte big-endian numbers packed in a payload, as long as two
    bytes are left. *)
Fixpoint unpack_pairs (b : bytes) : list Z :=
  match b with
  | hi :: lo :: rest => unpack_be [hi; lo] :: unpack_pairs rest
  | _ => []
  end.

(** A normaliser for the concrete runs: NFC leaves unchanged a text that
    is in composed form already, as is every text all of whose code points
    are below U+0300.  Only such texts are run with it. *)
Definition nfc_of_composed_text : unicodedata := {| normalize_NFC text := text |}.

(** Following the specification's words, "the number of new dictionary
    entries learned during this compression call": how many times the
    call runs the insertion triple in the loop body, for a symbol that is
    not a key yet and for [new_string].  [learned_by_char] counts them
    for one symbol, along the branches of [LZW77.compress_char]. *)
Definition learned_by_char (st : Compressor * list Z * str) (char : N) : Z :=
  let '(self, _, current_string) := st in
  let for_symbol :=
    if contains (dictionary self) [char] then 0
    else if next_code self <? max_dict_size self then 1
    else if contains (dictionary (reset_dictionary self)) [char] then 0 else 1 in
  let self :=
    if contains (dictionary self) [char] then self
    else if next_code self <? max_dict_size self then add_entry [char] self
    else if contains (dictionary (reset_dictionary self)) [char] then reset_dictionary self
    else add_entry [char] (reset_dictionary self) in
  let for_new_string :=
    if contains (dictionary self) (current_string ++ [char]) then 0
    else if next_code self <? max_dict_size self then 1 else 0 in
  for_symbol + for_new_string.

Fixpoint learned_in_loop `{unicodedata} (st : Compressor * list Z * str) (text : str) : Z :=
  match text with
  | [] => 0
  | char :: text =>
      learned_by_char st char +
      match LZW77.compress_char st char with
      | Ok st => learned_in_loop st text
      | Raise _ => 0
      end
  end.

Definition entries_learned `{unicodedata} (self : Compressor) (text : str) : Z :=
  learned_in_loop (reset_dictionary self, [], []) (normalize_NFC text).

(** The specification's words on the two mappings: they are inverses of
    each other, and no two distinct codes of the active range
    [[0, next_code)] map to the same string. *)
Definition inverse_mappings (self : Compressor) : Prop :=
  forall s code,
    dictionary self !! s = Some code <-> reverse_dictionary self !! code = Some s.

Definition codes_injective (self : Compressor) : Prop :=
  forall code1 code2 s,
    0 <= code1 < next_code self -> 0 <= code2 < next_code self ->
    reverse_dictionary self !! code1 = Some s ->
    reverse_dictionary self !! code2 = Some s ->
    code1 = code2.

(** What the code keeps at every point: the reverse mapping undoes the
    forward one, every code in use is below [next_code], and [next_code]
    is 256 at least. *)
Definition forward_consistent (self : Compressor) : Prop :=
  forall s code,
    dictionary self !! s = Some code -> reverse_dictionary self !! code = Some s.

Definition codes_in_range (self : Compressor) : Prop :=
  forall code s,
    reverse_dictionary self !! code = Some s -> 0 <= code < next_code self.

Definition synchronized (self : Compressor) : Prop :=
  forward_consistent self /\ codes_in_range self /\ 256 <= next_code self.

Definition strings_injective (self : Compressor) : Prop :=
  forall s1 s2 code,
    dictionary self !! s1 = Some code -> dictionary self !! s2 = Some code -> s1 = s2.

(** The loop of [reset_dictionary] over [range(256)] writes code [i] at
    step [i]: the same bookkeeping as an insertion at [next_code], with the
    loop index for the counter. *)
Definition synchronized_upto (bound : Z) (self : Compressor) : Prop :=
  forward_consistent self
  /\ forall code s, reverse_dictionary self !! code = Some s -> 0 <= code < bound.

(** [after r P]: the run [r] raises nothing and [P] holds of what it
    returns. *)
Definition after {A} (r : result A) (P : A -> Prop) : Prop :=
  match r with
  | Ok a => P a
  | Raise _ => False
  end.

Definition is_ok {A} (r : result A) : bool :=
  match r with
  | Ok _ => true
  | Raise _ => false
  end.

(** A symbol that no key of the freshly reset dictionary contains. *)
Definition fresh_symbol (self : Compressor) (c : N) : Prop :=
  map_Forall (fun (s : str) (_ : Z) => c ∉ s) (dictionary (reset_dictionary self)).

Definition same_configuration (self self' : Compressor) : Prop :=
  max_dict_size self = max_dict_size self'
  /\ encoding self = encoding self'
  /\ multilingual_dict self = multilingual_dict self'.

(** The state of the compress loop after the symbols [seen], all fresh and
    distinct, as long as every insertion found room: the running match is
    the last symbol, which is a key; every key is a key of the reset
    dictionary or is made of symbols of [seen]; two codes were spent for
    each symbol but the first. *)
Definition learning (self : Compressor) (seen : str) (st : Compressor * list Z * str) : Prop :=
  exists p,
    last seen = Some p
    /\ st.2 = [p]
    /\ same_configuration st.1.1 self
    /\ is_Some (dictionary st.1.1 !! [p])
    /\ (forall s code,
          dictionary st.1.1 !! s = Some code ->
          is_Some (dictionary (reset_dictionary self) !! s) \/ forall x, x ∈ s -> x ∈ seen)
    /\ next_code st.1.1 = next_code (reset_dictionary self) + 2 * len seen - 1.

(** The keys of the freshly reset dictionary. *)
Definition keys_after_reset (self : Compressor) : list str :=
  (map_to_list (dictionary (reset_dictionary self))).*1.

(** No key of [keys] holds the symbol [c]. *)
Definition avoids_keys (keys : list str) (c : N) : bool :=
  forallb (fun s : str => negb (bool_decide (c ∈ s))) keys.

(** [count] symbols in code point order, from [start] on. *)
Fixpoint symbols_from (start : N) (count : nat) : str :=
  match count with
  | O => []
  | S count => start :: symbols_from (N.succ start) count
  end.

(** A text long enough to fill the dictionary of any size up to the
    default one: the ideographs U+3400..U+9FFF and the Hangul syllables
    U+AC00..U+D7A3, in code point order, those left out that occur in a
    key of the reset dictionary (the seeds hold a few ideographs).  None
    of these symbols is white space, and none decomposes or combines under
    NFC: the text is in composed form. *)
Definition ideographs_and_syllables (self : Compressor) : str :=
  let keys := keys_after_reset self in
  filter (fun c => avoids_keys keys c = true)
    (symbols_from 0x3400 (N.to_nat 27648) ++ symbols_from 0xAC00 (N.to_nat 11172)).

(** Every code below [next_code] is in use. *)
Definition codes_complete (self : Compressor) : Prop :=
  forall code, 0 <= code < next_code self -> is_Some (reverse_dictionary self !! code).

(** [well_spaced after_space text]: every white-space symbol of [text] is
    one U+0020 with no white space next to it; with [after_space] set, the
    text does not start with one either. *)
Fixpoint well_spaced (after_space : bool) (text : str) : bool :=
  match text with
  | [] => true
  | c :: text =>
      if isspace c
      then negb after_space && (c =? SPACE)%N && well_spaced true text
      else well_spaced false text
  end.

(** [decoder_reaches start codes st]: the loop of [decompress], started
    on the dictionaries [start] with the chunk of the first code, reads
    [codes] without raising and ends in the state [st]. *)
Definition decoder_reaches (start : Compressor) (codes : list Z)
    (st : Compressor * list str * Z) : Prop :=
  match codes with
  | [] => False
  | old_code :: rest =>
      exists first,
        reverse_dictionary start !! old_code = Some first
        /\ LZW77.decompress_loop (start, [first], old_code) rest = Ok st
  end.

(** The state of the [compress] loop after the symbols [consumed], when
    every symbol was a key of [start] and every insertion found room, seen
    together with the [decompress] loop that reads the codes emitted so
    far: the chunks of the decoder followed by the running match spell
    [consumed], and the encoder's reverse mapping is the decoder's with one
    more entry, the last emitted string followed by the first symbol of
    the running match. *)
Definition decoder_follows (start : Compressor) (consumed : str)
    (st : Compressor * list Z * str) : Prop :=
  let '(self, result, current_string) := st in
  synchronized self
  /\ same_configuration self start
  /\ (forall s, is_Some (dictionary start !! s) -> is_Some (dictionary self !! s))
  /\ (current_string = [] \/ is_Some (dictionary self !! current_string))
  /\ next_code self = next_code start + len result
  /\ len result <= len consumed
  /\ Forall (fun code => 0 <= code < next_code self) result
  /\ ((result = [] /\ self = start /\ current_string = consumed)
      \/ exists decoder chunks old_code previous,
           decoder_reaches start result (decoder, chunks, old_code)
           /\ concat chunks ++ current_string = consumed
           /\ reverse_dictionary decoder !! old_code = Some previous
           /\ previous <> [] /\ current_string <> []
           /\ max_dict_size decoder = max_dict_size start
           /\ next_code self = next_code decoder + 1
           /\ reverse_dictionary decoder !! next_code decoder = None
           /\ reverse_dictionary self
              = <[next_code decoder := previous ++ take 1 current_string]>
                  (reverse_dictionary decoder)).

(** The largest value that [next_code] takes during a call: an insertion
    is guarded by [next_code < max_dict_size], except the one that follows
    a reset in the middle of the [compress] loop. *)
Definition code_bound (self : Compressor) : Z :=
  Z.max (max_dict_size self) (next_code (reset_dictionary self) + 1).

(** [key_error_or r P]: the run [r] returns a value that satisfies [P], or
    raises the [KeyError] of a failed [self.dictionary[...]], and nothing
    else. *)
Definition key_error_or {A} (r : result A) (P : A -> Prop) : Prop :=
  match r with
  | Ok a => P a
  | Raise (KeyError_str _) => True
  | Raise _ => False
  end.

(** What holds of the [compress] loop after the symbols [consumed],
    whatever they are: the dictionaries are synchronized, the
    configuration is that of [start], no code reaches [code_bound], and
    there is at most one code per symbol, the running match not
    counted. *)
Definition emits_within (start : Compressor) (consumed : str)
    (st : Compressor * list Z * str) : Prop :=
  let '(self, result, current_string) := st in
  synchronized self
  /\ same_configuration self start
  /\ next_code self <= code_bound start
  /\ Forall (fun code => 0 <= code < code_bound start) result
  /\ ((current_string = [] /\ result = [] /\ consumed = [])
      \/ (current_string <> [] /\ len result + 1 <= len consumed)).

(** The patterns that a reset seeds the dictionary with. *)
Definition seeds (self : Compressor) : list str :=
  match multilingual_dict self with
  | Some d => common_words d ++ common_patterns d
  | None => []
  end.

Definition no_empty_string (self : Compressor) : Prop :=
  forall code s, reverse_dictionary self !! code = Some s -> s <> [].

(** [lookup_error_or r P]: the run [r] returns a value that satisfies [P],
    or raises the [KeyError] of a failed [self.reverse_dictionary[...]] or
    the invalid-code error, and nothing else. *)
Definition lookup_error_or {A} (r : result A) (P : A -> Prop) : Prop :=
  match r with
  | Ok a => P a
  | Raise (KeyError_int _) | Raise (InvalidCode _) => True
  | Raise _ => False
  end.

(** What holds of the [decompress] loop after [n] codes, whatever they
    are: the dictionaries are synchronized and hold no empty string, the
    configuration is that of [start], and every code gave a symbol or
    more. *)
Definition reads_within (start : Compressor) (n : Z)
    (st : Compressor * list str * Z) : Prop :=
  let '(self, result, old_code) := st in
  synchronized self
  /\ same_configuration self start
  /\ no_empty_string self
  /\ n <= len (concat result).

(** The strings that the loop over [range(256)] of [reset_dictionary]
    enters for the encoding [enc]. *)
Definition decoded_byte (enc : Encoding) (s : str) : Prop :=
  exists i, 0 <= i < 256 /\ decode_byte enc replace i = Some s.

(** The symbols that [str.encode] accepts: the Unicode scalar values, and
    under Latin-1 those below 256. *)
Definition encodable (enc : Encoding) (c : N) : bool :=
  match enc with
  | latin_1 => (c <? 256)%N
  | utf_8 | utf_16 => negb (surrogate c) && (c <? 0x110000)%N
  end.

(** The specification's words on rounding.  [nearest_even k a d]: the
    integer [k] is the nearest one to the fraction [a / d], and the even
    one of the two when [a / d] lies half way. *)
Definition nearest_even (k a d : Z) : Prop :=
  2 * Z.abs (a - k * d) <= d
  /\ (2 * Z.abs (a - k * d) = d -> Z.even k = true).

(** [rounded_to digits x r]: the float [r] is [x] rounded to [digits]
    decimal places.  With [m * 2^e] the exact magnitude of [x], [r] is the
    quotient by [10^digits] of the integer nearest to [m * 2^e * 10^digits],
    with the sign of [x]; where doubles lie more than [10^-digits] apart,
    [r] is [x]. *)
Definition rounded_to (digits : Z) (x r : float) : Prop :=
  match Prim2SF x with
  | S754_finite s m e =>
      if 10 ^ digits <=? 2 ^ (- e) then
        exists k : Z,
          nearest_even k (Z.pos m * 10 ^ digits) (2 ^ (- e))
          /\ r = (if s then - (float_of_Z k / float_of_Z (10 ^ digits))
                  else float_of_Z k / float_of_Z (10 ^ digits))%float
      else r = x
  | _ => r = x
  end.

(** The converse of [forward_consistent] at one code. *)
Definition backward_consistent_at (self : Compressor) (code : Z) : Prop :=
  forall s, reverse_dictionary self !! code = Some s -> dictionary self !! s = Some code.

(** [own_string enc code]: no byte value above [code] decodes to the
    string of [code].  Every code from 256 on has a string of its own;
    under Latin-1 every code has. *)
Definition own_string (enc : Encoding) (code : Z) : Prop :=
  forall j, code < j < 256 -> decode_byte enc replace j <> decode_byte enc replace code.

(** What [compress] keeps of the bijection at every point: the
    dictionaries are synchronized, the codes in use are exactly those of
    [[0, next_code)], and the forward mapping undoes the reverse one at
    every code that has a string of its own. *)
Definition well_kept (self : Compressor) : Prop :=
  synchronized self
  /\ codes_complete self
  /\ forall code, own_string (encoding self) code -> backward_consistent_at self code.

(** The dictionary in which [decompress] builds the entry of a turn: the
    current one if it has room, a freshly reset one if it is full (the
    [if]/[else] that follows [result.append(string)]). *)
Definition entry_dictionary (self : Compressor) : Compressor :=
  if next_code self <? max_dict_size self then self else reset_dictionary self.

(** * Properties *)

(** ** Bytes and big-endian numbers *)

Lemma to_N_byte_of_N (n : N) : Byte.to_N (byte_of_N n) = (n mod 256)%N.
Proof.
  unfold byte_of_N.
  destruct (Byte.of_N (n mod 256)) as [b|] eqn:E.
  - by apply Byte.to_of_N.
  - apply Byte.of_N_None_iff in E.
    pose proof (N.mod_upper_bound n 256). lia.
Qed.

Lemma len_nonneg {A} (l : list A) : 0 <= len l.
Proof. unfold len. lia. Qed.

Lemma len_app {A} (l k : list A) : len (l ++ k) = len l + len k.
Proof. unfold len. rewrite length_app. lia. Qed.

Lemma unpack_pack_H (n : Z) :
  0 <= n <= 65535 ->
  exists hi lo, pack_H n = Ok [hi; lo] /\ unpack_be [hi; lo] = n.
Proof.
  intros Hn. unfold pack_H.
  replace ((0 <=? n) && (n <=? 65535)) with true
    by (symmetry; apply andb_true_iff; split; apply Z.leb_le; lia).
  eexists _, _. split; [reflexivity|].
  unfold unpack_be. cbn [foldl]. rewrite !to_N_byte_of_N.
  rewrite !N2Z.inj_mod, !Z2N.id by (try apply Z.div_pos; try apply Z.mod_pos_bound; lia).
  change (Z.of_N 256) with 256.
  rewrite (Z.mod_small (n / 256)) by (split; [apply Z.div_pos; lia | apply Z.div_lt_upper_bound; lia]).
  rewrite Z.mod_mod by lia.
  pose proof (Z.div_mod n 256). lia.
Qed.

Lemma unpack_pack_I (n : Z) :
  0 <= n <= 4294967295 ->
  exists b, pack_I n = Ok b /\ length b = 4%nat /\ unpack_be b = n.
Proof.
  intros Hn. unfold pack_I.
  replace ((0 <=? n) && (n <=? 4294967295)) with true
    by (symmetry; apply andb_true_iff; split; apply Z.leb_le; lia).
  eexists. split; [reflexivity|]. split; [reflexivity|].
  unfold unpack_be. cbn [foldl]. rewrite !to_N_byte_of_N.
  rewrite !N2Z.inj_mod, !Z2N.id
    by (try apply Z.div_pos; try apply Z.mod_pos_bound; lia).
  change (Z.of_N 256) with 256.
  rewrite !Z.mod_mod by lia.
  rewrite (Z.mod_small (n / 16777216))
    by (split; [apply Z.div_pos; lia | apply Z.div_lt_upper_bound; lia]).
  pose proof (Z.div_mod n 256 ltac:(lia)).
  pose proof (Z.div_mod (n / 256) 256 ltac:(lia)).
  pose proof (Z.div_mod (n / 256 / 256) 256 ltac:(lia)).
  rewrite !Z.div_div in * by lia.
  change (256 * 256) with 65536 in *. change (65536 * 256) with 16777216 in *.
  lia.
Qed.

(** ** The frame reader *)

Lemma unpack_pairs_length (b : bytes) : length (unpack_pairs b) = (length b / 2)%nat.
Proof.
  remember (length b) as n eqn:Hn. revert b Hn.
  induction n as [n IH] using lt_wf_ind. intros b Hn.
  destruct b as [|hi [|lo rest]]; subst; try reflexivity.
  cbn [unpack_pairs length].
  rewrite (IH (length rest)) by (simpl; lia || reflexivity).
  replace (S (S (length rest))) with (length rest + 1 * 2)%nat by lia.
  rewrite Nat.div_add by lia. lia.
Qed.

Lemma unpack_pairs_lookup (i : nat) : forall b : bytes,
  (2 * i + 2 <= length b)%nat ->
  unpack_pairs b !! i = Some (unpack_be (take 2 (drop (2 * i) b))).
Proof.
  induction i as [|i IH]; intros b Hb.
  - destruct b as [|hi [|lo rest]]; simpl in *; try lia. reflexivity.
  - destruct b as [|hi [|lo rest]]; simpl in Hb; try lia.
    replace (2 * S i)%nat with (S (S (2 * i))) by lia.
    cbn [unpack_pairs lookup list_lookup drop].
    apply IH. lia.
Qed.

Lemma decode_loop_spec (codes_data : bytes) (remaining : nat) :
  forall (i : nat) (codes : list Z),
  LZW77.decode_loop codes_data remaining (Z.of_nat i) codes
  = codes ++ take remaining (drop i (unpack_pairs codes_data)).
Proof.
  induction remaining as [|remaining IH]; intros i codes.
  - simpl. by rewrite app_nil_r.
  - cbn [LZW77.decode_loop].
    destruct (Z.leb_spec (Z.of_nat i * 2 + 2) (len codes_data)) as [Hle|Hgt].
    + unfold len in Hle.
      assert (Hi : (2 * i + 2 <= length codes_data)%nat) by lia.
      pose proof (unpack_pairs_lookup i codes_data Hi) as Hlk.
      replace (Z.of_nat i + 1) with (Z.of_nat (S i)) by lia.
      rewrite IH.
      rewrite (drop_S _ _ _ Hlk). cbn [take].
      unfold slice.
      replace (Z.to_nat (Z.of_nat i * 2 + 2 - Z.of_nat i * 2)) with 2%nat by lia.
      replace (Z.to_nat (Z.of_nat i * 2)) with (2 * i)%nat by lia.
      by rewrite <- app_assoc.
    + unfold len in Hgt.
      rewrite drop_ge; [by rewrite take_nil, app_nil_r|].
      rewrite unpack_pairs_length.
      enough (length codes_data / 2 < S i)%nat by lia.
      apply Nat.Div0.div_lt_upper_bound. lia.
Qed.

Lemma unpack_be_nonneg (b : bytes) : 0 <= unpack_be b.
Proof.
  unfold unpack_be.
  enough (forall acc, 0 <= acc ->
            0 <= foldl (fun acc x => acc * 256 + Z.of_N (Byte.to_N x)) acc b)
    by (apply H; lia).
  induction b as [|x b IH]; intros acc Hacc; simpl; [done|].
  apply IH. lia.
Qed.

Lemma decode_codes_spec (data : bytes) :
  LZW77._decode_codes data =
    if len data <? 8 then []
    else take (Z.to_nat (unpack_be (slice data 0 4))) (unpack_pairs (drop 8 data)).
Proof.
  unfold LZW77._decode_codes.
  destruct (len data <? 8); [done|].
  change 0 with (Z.of_nat 0) at 2. by rewrite decode_loop_spec.
Qed.

(** ** The frame writer *)

Lemma pack_codes_spec (codes : list Z) :
  Forall (fun code => 0 <= code <= 65535) codes ->
  exists packed, LZW77.pack_codes codes = Ok packed
    /\ length packed = (2 * length codes)%nat
    /\ unpack_pairs packed = codes.
Proof.
  induction 1 as [|code codes Hcode _ IH].
  - by exists [].
  - destruct IH as (packed & Hp & Hlen & Hun).
    destruct (unpack_pack_H code Hcode) as (hi & lo & Hpk & Hval).
    exists (hi :: lo :: packed). cbn [LZW77.pack_codes].
    rewrite Hpk, Hp. cbn. repeat split.
    + lia.
    + by rewrite Hun, <- Hval.
Qed.

Lemma encode_codes_spec (self : Compressor) (codes : list Z) :
  Forall (fun code => 0 <= code <= 65535) codes ->
  len codes <= 4294967295 ->
  256 <= next_code self <= 4294967295 + 256 ->
  exists count used packed,
    LZW77._encode_codes self codes = Ok ((count ++ used) ++ packed)
    /\ length count = 4%nat /\ unpack_be count = len codes
    /\ length used = 4%nat /\ unpack_be used = next_code self - 256
    /\ length packed = (2 * length codes)%nat /\ unpack_pairs packed = codes.
Proof.
  intros Hcodes Hlen Hnext.
  destruct (pack_codes_spec codes Hcodes) as (packed & Hp & Hplen & Hun).
  destruct (unpack_pack_I (len codes)) as (count & Hc & Hclen & Hcval);
    [pose proof (len_nonneg codes); lia|].
  destruct (unpack_pack_I (next_code self - 256)) as (used & Hu & Hulen & Huval); [lia|].
  exists count, used, packed.
  unfold LZW77._encode_codes. rewrite Hp. cbn. rewrite Hc. cbn. rewrite Hu. cbn.
  done.
Qed.

(** ** The frame: what the header says and what the reader returns *)

Lemma frame_parts (count used packed : bytes) :
  length count = 4%nat -> length used = 4%nat ->
  slice ((count ++ used) ++ packed) 0 4 = count
  /\ slice ((count ++ used) ++ packed) 4 8 = used
  /\ drop 8 ((count ++ used) ++ packed) = packed.
Proof.
  intros Hclen Hulen. repeat split.
  - unfold slice. change (Z.to_nat (4 - 0)) with 4%nat. change (Z.to_nat 0) with 0%nat.
    rewrite drop_0, <- app_assoc. by apply take_app_length'.
  - unfold slice. change (Z.to_nat (8 - 4)) with 4%nat. change (Z.to_nat 4) with 4%nat.
    rewrite <- app_assoc, drop_app_length' by done. by apply take_app_length'.
  - rewrite drop_app_length'; [done|]. rewrite length_app. lia.
Qed.

(** What [_encode_codes] writes, [_decode_codes] reads back. *)
Lemma decode_encoded_codes (self : Compressor) (codes : list Z) :
  Forall (fun code => 0 <= code <= 65535) codes ->
  len codes <= 4294967295 ->
  256 <= next_code self <= 4294967295 + 256 ->
  exists frame,
    LZW77._encode_codes self codes = Ok frame
    /\ len frame = 8 + 2 * len codes
    /\ LZW77._decode_codes frame = codes.
Proof.
  intros Hcodes Hlen Hnext.
  destruct (encode_codes_spec self codes Hcodes Hlen Hnext)
    as (count & used & packed & Henc & Hclen & Hcval & Hulen & Huval & Hplen & Hun).
  destruct (frame_parts count used packed Hclen Hulen) as (Hcount & _ & Hdrop).
  exists ((count ++ used) ++ packed).
  assert (Hflen : len ((count ++ used) ++ packed) = 8 + 2 * len codes).
  { unfold len. rewrite !length_app. lia. }
  repeat split; try done.
  rewrite decode_codes_spec, Hflen, Hcount, Hdrop, Hcval, Hun.
  pose proof (len_nonneg codes).
  replace (8 + 2 * len codes <? 8) with false by (symmetry; apply Z.ltb_ge; lia).
  unfold len. rewrite Nat2Z.id. apply firstn_all.
Qed.

(** C7, as amended.  For every list of [n] codes that fit in 16 bits,
    [_encode_codes] returns a frame of exactly [8 + 2 * n] bytes: the first
    four read, big-endian, as [n]; the next four as [next_code - 256],
    with [next_code] as it is at the end of the call; then the codes, two
    bytes each, in emission order, so that [_decode_codes] reads the same
    list back. *)
Theorem encode_codes_frame (self : Compressor) (codes : list Z) :
  Forall (fun code => 0 <= code <= 65535) codes ->
  len codes <= 4294967295 ->
  256 <= next_code self <= 4294967295 + 256 ->
  exists frame,
    LZW77._encode_codes self codes = Ok frame
    /\ len frame = 8 + 2 * len codes
    /\ unpack_be (slice frame 0 4) = len codes
    /\ unpack_be (slice frame 4 8) = next_code self - 256
    /\ unpack_pairs (drop 8 frame) = codes
    /\ LZW77._decode_codes frame = codes.
Proof.
  intros Hcodes Hlen Hnext.
  destruct (encode_codes_spec self codes Hcodes Hlen Hnext)
    as (count & used & packed & Henc & Hclen & Hcval & Hulen & Huval & Hplen & Hun).
  destruct (frame_parts count used packed Hclen Hulen) as (Hcount & Hused & Hdrop).
  destruct (decode_encoded_codes self codes Hcodes Hlen Hnext)
    as (frame & Henc' & Hflen & Hdecode).
  assert (frame = (count ++ used) ++ packed) as -> by congruence.
  exists ((count ++ used) ++ packed).
  split; [exact Henc|]. split; [exact Hflen|].
  split; [by rewrite Hcount|]. split; [by rewrite Hused|].
  split; [by rewrite Hdrop | exact Hdecode].
Qed.

(** Five codes: an 18-byte frame whose first four bytes read as 5. *)
Lemma encode_codes_frame_five :
  exists frame,
    LZW77._encode_codes (LZW77Compressor_init 65536 latin_1) [104; 101; 108; 112; 33] = Ok frame
    /\ len frame = 8 + 2 * len [104; 101; 108; 112; 33]
    /\ unpack_be (slice frame 0 4) = len [104; 101; 108; 112; 33]
    /\ unpack_be (slice frame 4 8) = next_code (LZW77Compressor_init 65536 latin_1) - 256
    /\ unpack_pairs (drop 8 frame) = [104; 101; 108; 112; 33]
    /\ LZW77._decode_codes frame = [104; 101; 108; 112; 33].
Proof.
  apply (encode_codes_frame (LZW77Compressor_init 65536 latin_1) [104; 101; 108; 112; 33]).
  - repeat constructor; lia.
  - vm_compute. discriminate.
  - vm_compute. split; discriminate.
Defined.

(** C7, the claim as stated fails: the second header field is not the
    number of entries learned during the call.  The hybrid compressor with
    its default arguments learns nothing from the text [a] and writes 131,
    the number of seed entries; [LZW77Compressor(257, 'latin-1')] learns
    two entries from [abcd], one before and one after the reset, and
    writes 1. *)
Lemma header_field_is_not_entries_learned :
  (@entries_learned nfc_of_composed_text (HybridLZW77Compressor_init 65536 utf_8) (py "a") = 0
   /\ value (@Hybrid.compress nfc_of_composed_text (HybridLZW77Compressor_init 65536 utf_8) (py "a"))
      = Ok [x00; x00; x00; x01; x00; x00; x00; x83; x00; x61]
   /\ unpack_be (slice [x00; x00; x00; x01; x00; x00; x00; x83; x00; x61] 4 8) = 131)
  /\
  (@entries_learned nfc_of_composed_text (LZW77Compressor_init 257 latin_1) (py "abcd") = 2
   /\ value (@LZW77.compress nfc_of_composed_text (LZW77Compressor_init 257 latin_1) (py "abcd"))
      = Ok [x00; x00; x00; x04; x00; x00; x00; x01; x00; x61; x00; x62; x00; x63; x00; x64]
   /\ unpack_be (slice [x00; x00; x00; x04; x00; x00; x00; x01;
                        x00; x61; x00; x62; x00; x63; x00; x64] 4 8) = 1).
Proof. vm_compute. repeat split. Qed.

(** C6, as amended.  The frame reader never fails: a byte stream shorter
    than the 8-byte header reads as the empty code list, and otherwise the
    reader returns the packed codes that are there, up to the declared
    count: [min(count, payload length // 2)] of them.  A truncated payload
    is decoded silently as far as it goes. *)
Theorem decode_codes_truncates (data : bytes) :
  LZW77._decode_codes data =
    (if len data <? 8 then []
     else take (Z.to_nat (unpack_be (slice data 0 4))) (unpack_pairs (drop 8 data)))
  /\ len (LZW77._decode_codes data) =
    (if len data <? 8 then 0
     else Z.min (unpack_be (slice data 0 4)) ((len data - 8) / 2)).
Proof.
  split; [apply decode_codes_spec|].
  rewrite decode_codes_spec.
  destruct (Z.ltb_spec (len data) 8) as [Hlt|Hge]; [done|].
  pose proof (unpack_be_nonneg (slice data 0 4)).
  unfold len in *. rewrite length_take, unpack_pairs_length, length_drop.
  rewrite Nat2Z.inj_min, Z2Nat.id by lia.
  f_equal. rewrite Nat2Z.inj_div, Nat2Z.inj_sub by lia. done.
Qed.

(** C6, the claim as stated fails: the frame of [abc] with its last two
    bytes cut off declares three codes and holds two; [decompress] raises
    nothing and returns [ab].  Seven bytes, too few for a header, give the
    empty string. *)
Lemma truncated_frame_decodes_silently :
  value (@Hybrid.compress nfc_of_composed_text (HybridLZW77Compressor_init 65536 utf_8) (py "abc"))
    = Ok [x00; x00; x00; x03; x00; x00; x00; x85; x00; x61; x00; x62; x00; x63]
  /\ value (Hybrid.decompress (HybridLZW77Compressor_init 65536 utf_8)
              [x00; x00; x00; x03; x00; x00; x00; x85; x00; x61; x00; x62])
    = Ok (py "ab")
  /\ value (Hybrid.decompress (HybridLZW77Compressor_init 65536 utf_8)
              [x00; x00; x00; x03; x00; x00; x00])
    = Ok [].
Proof. vm_compute. repeat split. Qed.

(** C10.  For every byte string shorter than 8 bytes, the empty one
    included, [decompress] returns the empty string and raises nothing, in
    the base class and in the hybrid one. *)
Theorem decompress_short_input (self : Compressor) (data : bytes) :
  (length data < 8)%nat ->
  value (LZW77.decompress self data) = Ok []
  /\ value (Hybrid.decompress self data) = Ok [].
Proof.
  intros Hlen.
  assert (Hbase : value (LZW77.decompress self data) = Ok []).
  { unfold LZW77.decompress. destruct data as [|b data]; [done|].
    rewrite decode_codes_spec.
    replace (len (b :: data) <? 8) with true; [done|].
    symmetry. apply Z.ltb_lt. unfold len. lia. }
  split; [done|].
  unfold Hybrid.decompress.
  destruct (LZW77.decompress self data) as [[? ?]|]; simpl in *; congruence.
Qed.

Lemma decompress_short_input_seven :
  value (LZW77.decompress (HybridLZW77Compressor_init 65536 utf_8)
           [x00; x00; x00; x02; x00; x00; x00]) = Ok []
  /\ value (Hybrid.decompress (HybridLZW77Compressor_init 65536 utf_8)
           [x00; x00; x00; x02; x00; x00; x00]) = Ok [].
Proof.
  apply (decompress_short_input (HybridLZW77Compressor_init 65536 utf_8)
           [x00; x00; x00; x02; x00; x00; x00]).
  simpl. lia.
Defined.

(** ** The two mappings stay synchronized *)

Section Synchronized.

Lemma insert_pair_synchronized (d : gmap str Z) (r : gmap Z str) (s : str) (n : Z) :
  0 <= n ->
  (forall s' c, d !! s' = Some c -> r !! c = Some s') ->
  (forall c s', r !! c = Some s' -> 0 <= c < n) ->
  (forall s' c, <[s := n]> d !! s' = Some c -> <[n := s]> r !! c = Some s')
  /\ (forall c s', <[n := s]> r !! c = Some s' -> 0 <= c < n + 1).
Proof.
  intros Hn Hfwd Hrange. split.
  - intros s' c. rewrite lookup_insert. case_decide as Hs.
    + intros [= <-]. subst s'. by rewrite lookup_insert_eq.
    + intros Hd. pose proof (Hfwd _ _ Hd) as Hr.
      pose proof (Hrange _ _ Hr).
      rewrite lookup_insert_ne by lia. done.
  - intros c s'. rewrite lookup_insert. case_decide as Hc.
    + intros _. lia.
    + intros Hr. pose proof (Hrange _ _ Hr). lia.
Qed.

Lemma base_entry_synchronized (self : Compressor) (i : Z) :
  0 <= i ->
  synchronized_upto i self ->
  synchronized_upto (i + 1) (LZW77Compressor.base_entry self i).
Proof.
  intros Hi [Hfwd Hrange]. unfold LZW77Compressor.base_entry.
  destruct (decode_byte (encoding self) replace i) as [char|].
  - destruct (insert_pair_synchronized _ _ char i Hi Hfwd Hrange) as [H1 H2].
    split; [exact H1 | exact H2].
  - split; [done|]. intros c s Hr. pose proof (Hrange _ _ Hr). lia.
Qed.

Lemma base_loop_synchronized (n : nat) : forall (self : Compressor) (i : Z),
  0 <= i ->
  synchronized_upto i self ->
  synchronized_upto (i + Z.of_nat n)
    (foldl LZW77Compressor.base_entry self (seqZ i (Z.of_nat n))).
Proof.
  induction n as [|n IH]; intros self i Hi Hs.
  - simpl. by rewrite Z.add_0_r.
  - rewrite seqZ_cons by lia. cbn [foldl].
    replace (Z.pred (Z.of_nat (S n))) with (Z.of_nat n) by lia.
    replace (i + Z.of_nat (S n)) with (Z.succ i + Z.of_nat n) by lia.
    apply IH; [lia|]. by apply base_entry_synchronized.
Qed.

Lemma base_loop_synchronized_Z (n : Z) (self : Compressor) :
  0 <= n ->
  synchronized_upto 0 self ->
  synchronized_upto n (foldl LZW77Compressor.base_entry self (seqZ 0 n)).
Proof.
  intros Hn Hs.
  pose proof (base_loop_synchronized (Z.to_nat n) self 0 ltac:(lia) Hs) as H.
  rewrite Z2Nat.id, Z.add_0_l in H by lia. exact H.
Qed.

Lemma base_reset_synchronized (self : Compressor) :
  synchronized (LZW77Compressor.reset_dictionary self).
Proof.
  unfold LZW77Compressor.reset_dictionary.
  match goal with
  | |- context [foldl LZW77Compressor.base_entry ?s0 (seqZ 0 256)] =>
      pose proof (base_loop_synchronized_Z 256 s0 ltac:(lia)) as H;
      remember (foldl LZW77Compressor.base_entry s0 (seqZ 0 256)) as s1 eqn:Hs1;
      clear Hs1
  end.
  destruct H as [Hfwd Hrange].
  - split; intros ? ?; cbn; by rewrite lookup_empty.
  - split; [|split].
    + intros s c. cbn. apply Hfwd.
    + intros c s. cbn. apply Hrange.
    + cbn. lia.
Qed.

Lemma add_entry_synchronized (s : str) (self : Compressor) :
  synchronized self -> synchronized (add_entry s self).
Proof.
  intros (Hfwd & Hrange & Hn).
  destruct (insert_pair_synchronized _ _ s (next_code self) ltac:(lia) Hfwd Hrange)
    as [H1 H2].
  split; [exact H1 | split; [exact H2 | cbn; lia]].
Qed.

Lemma seed_entry_synchronized (self : Compressor) (pattern : str) :
  synchronized self -> synchronized (HybridLZW77Compressor.seed_entry self pattern).
Proof.
  intros Hs. unfold HybridLZW77Compressor.seed_entry.
  destruct (_ && _); [by apply add_entry_synchronized | done].
Qed.

Lemma reset_dictionary_synchronized (self : Compressor) :
  synchronized (reset_dictionary self).
Proof.
  unfold reset_dictionary. destruct (multilingual_dict self) as [d|].
  - unfold HybridLZW77Compressor.reset_dictionary.
    generalize (common_words d ++ common_patterns d).
    generalize (base_reset_synchronized self).
    generalize (LZW77Compressor.reset_dictionary self).
    intros s Hs l. revert s Hs.
    induction l as [|p l IH]; intros s Hs; [done|].
    cbn [foldl]. apply IH. by apply seed_entry_synchronized.
  - apply base_reset_synchronized.
Qed.

Lemma compress_char_synchronized (st st' : Compressor * list Z * str) (char : N) :
  synchronized st.1.1 ->
  LZW77.compress_char st char = Ok st' ->
  synchronized st'.1.1.
Proof.
  destruct st as [[self result] current]. cbn [fst]. intros Hs.
  unfold LZW77.compress_char.
  set (self1 := if negb _ then _ else _).
  assert (Hs1 : synchronized self1).
  { subst self1. repeat case_match;
      auto using add_entry_synchronized, reset_dictionary_synchronized. }
  clearbody self1.
  destruct (contains (dictionary self1) (current ++ [char])).
  - intros [= <-]. done.
  - destruct (dictionary_getitem self1 current) as [code|e]; cbn; [|done].
    intros [= <-]. cbn [fst].
    case_match; auto using add_entry_synchronized, reset_dictionary_synchronized.
Qed.

Lemma compress_loop_synchronized (text : str) :
  forall st st' : Compressor * list Z * str,
  synchronized st.1.1 ->
  LZW77.compress_loop st text = Ok st' ->
  synchronized st'.1.1.
Proof.
  induction text as [|char text IH]; intros st st' Hs.
  - intros [= <-]. done.
  - cbn [LZW77.compress_loop].
    destruct (LZW77.compress_char st char) as [st1|e] eqn:E; cbn; [|done].
    apply IH. by eapply compress_char_synchronized.
Qed.

Lemma decompress_code_synchronized (st st' : Compressor * list str * Z) (code : Z) :
  synchronized st.1.1 ->
  LZW77.decompress_code st code = Ok st' ->
  synchronized st'.1.1.
Proof.
  destruct st as [[self result] old_code]. cbn [fst]. intros Hs.
  unfold LZW77.decompress_code.
  destruct (LZW77.resolve_code self old_code code) as [string|e]; cbn; [|done].
  destruct (next_code self <? max_dict_size self).
  - destruct (reverse_dictionary_getitem self old_code) as [previous|e]; cbn; [|done].
    destruct (first_symbol string) as [c|e]; cbn; [|done].
    intros [= <-]. by apply add_entry_synchronized.
  - destruct (reverse_dictionary_getitem (reset_dictionary self) old_code)
      as [previous|e]; cbn; [|done].
    destruct (first_symbol string) as [c|e]; cbn; [|done].
    intros [= <-]. apply add_entry_synchronized, reset_dictionary_synchronized.
Qed.

Lemma decompress_loop_synchronized (codes : list Z) :
  forall st st' : Compressor * list str * Z,
  synchronized st.1.1 ->
  LZW77.decompress_loop st codes = Ok st' ->
  synchronized st'.1.1.
Proof.
  induction codes as [|code codes IH]; intros st st' Hs.
  - intros [= <-]. done.
  - cbn [LZW77.decompress_loop].
    destruct (LZW77.decompress_code st code) as [st1|e] eqn:E; cbn; [|done].
    apply IH. by eapply decompress_code_synchronized.
Qed.

Lemma synchronized_strings_injective (self : Compressor) :
  synchronized self -> strings_injective self.
Proof.
  intros (Hfwd & _) s1 s2 code H1 H2.
  apply Hfwd in H1, H2. congruence.
Qed.

End Synchronized.

Lemma after_intro {A} (r : result A) (P : A -> Prop) :
  is_ok r = true -> (forall a, r = Ok a -> P a) -> after r P.
Proof. destruct r as [a|e]; cbn; [auto | discriminate]. Qed.

(** C3, the claim as stated fails: reading the codes 97, 97, 97 under
    Latin-1, [decompress] inserts the string [aa] twice, at 384 and at 385;
    two distinct codes of the active range then map to the same string, and
    the forward mapping keeps the later code only. *)
Lemma decoder_maps_two_codes_to_one_string :
  value (LZW77.decompress (HybridLZW77Compressor_init 65536 latin_1)
           [x00; x00; x00; x03; x00; x00; x00; x00; x00; x61; x00; x61; x00; x61])
    = Ok (py "aaa")
  /\ after (LZW77.decompress (HybridLZW77Compressor_init 65536 latin_1)
           [x00; x00; x00; x03; x00; x00; x00; x00; x00; x61; x00; x61; x00; x61])
       (fun st =>
          next_code st.1 = 386
          /\ reverse_dictionary st.1 !! 384 = Some (py "aa")
          /\ reverse_dictionary st.1 !! 385 = Some (py "aa")
          /\ dictionary st.1 !! py "aa" = Some 385
          /\ ~ codes_injective st.1
          /\ ~ inverse_mappings st.1).
Proof.
  split; [vm_compute; reflexivity|].
  apply after_intro; [vm_compute; reflexivity|].
  intros [st s] E. cbn [fst].
  assert (H : match LZW77.decompress (HybridLZW77Compressor_init 65536 latin_1)
                       [x00; x00; x00; x03; x00; x00; x00; x00; x00; x61; x00; x61; x00; x61]
               with
               | Ok (st, _) =>
                   Some (next_code st, reverse_dictionary st !! 384,
                         reverse_dictionary st !! 385, dictionary st !! py "aa")
               | Raise _ => None
               end = Some (386, Some (py "aa"), Some (py "aa"), Some 385))
    by (vm_compute; reflexivity).
  rewrite E in H. injection H as Hnext H384 H385 Haa.
  clear E. repeat split; try done.
  - intros Hinj.
    assert (384 = 385) as Heq; [|discriminate Heq].
    apply (Hinj 384 385 (py "aa")); rewrite ?Hnext; done.
  - intros Hinv.
    apply (Hinv (py "aa") 384) in H384. congruence.
Qed.

(** ** Decoding one code *)

Lemma contains_true `{Countable K} {V} (d : gmap K V) (key : K) (v : V) :
  d !! key = Some v -> contains d key = true.
Proof. unfold contains. by intros ->. Qed.

Lemma contains_false `{Countable K} {V} (d : gmap K V) (key : K) :
  d !! key = None -> contains d key = false.
Proof. unfold contains. by intros ->. Qed.

Lemma resolve_code_known (self : Compressor) (old_code code : Z) (s : str) :
  reverse_dictionary self !! code = Some s ->
  LZW77.resolve_code self old_code code = Ok s.
Proof.
  intros Hs. unfold LZW77.resolve_code, reverse_dictionary_getitem.
  by rewrite (contains_true _ _ _ Hs), Hs.
Qed.

Lemma resolve_code_pending (self : Compressor) (old_code code : Z) (c : N) (tail : str) :
  reverse_dictionary self !! code = None ->
  code = next_code self ->
  reverse_dictionary self !! old_code = Some (c :: tail) ->
  LZW77.resolve_code self old_code code = Ok ((c :: tail) ++ [c]).
Proof.
  intros Hnone -> Hold. unfold LZW77.resolve_code, reverse_dictionary_getitem.
  by rewrite (contains_false _ _ Hnone), Z.eqb_refl, Hold.
Qed.

Lemma resolve_code_invalid (self : Compressor) (old_code code : Z) :
  reverse_dictionary self !! code = None ->
  code <> next_code self ->
  LZW77.resolve_code self old_code code = Raise (InvalidCode code).
Proof.
  intros Hnone Hne. unfold LZW77.resolve_code.
  rewrite (contains_false _ _ Hnone).
  by replace (code =? next_code self) with false by (symmetry; by apply Z.eqb_neq).
Qed.

Lemma decompress_loop_app (before rest : list Z) :
  forall st : Compressor * list str * Z,
  LZW77.decompress_loop st (before ++ rest)
  = st ← LZW77.decompress_loop st before; LZW77.decompress_loop st rest.
Proof.
  induction before as [|code before IH]; intros st; [done|].
  cbn [app LZW77.decompress_loop].
  destruct (LZW77.decompress_code st code) as [st1|e]; cbn; [apply IH | done].
Qed.

(** ** What a reset puts at the codes 0..255 *)

Lemma base_entry_encoding (self : Compressor) (i : Z) :
  encoding (LZW77Compressor.base_entry self i) = encoding self.
Proof. unfold LZW77Compressor.base_entry. by destruct (decode_byte _ _ _). Qed.

Lemma base_entry_reverse (self : Compressor) (i code : Z) :
  reverse_dictionary (LZW77Compressor.base_entry self i) !! code
  = if decide (code = i) then decode_byte (encoding self) replace i
    else reverse_dictionary self !! code.
Proof.
  unfold LZW77Compressor.base_entry.
  assert (Hsome : is_Some (decode_byte (encoding self) replace i)).
  { unfold decode_byte. repeat case_match; eauto. }
  destruct Hsome as [char ->]. cbn. rewrite lookup_insert.
  repeat case_decide; congruence.
Qed.

Lemma base_loop_reverse (n : nat) : forall (self : Compressor) (a code : Z),
  reverse_dictionary (foldl LZW77Compressor.base_entry self (seqZ a (Z.of_nat n))) !! code
  = if decide (a <= code < a + Z.of_nat n) then decode_byte (encoding self) replace code
    else reverse_dictionary self !! code.
Proof.
  induction n as [|n IH]; intros self a code.
  - simpl. case_decide; [lia | done].
  - rewrite seqZ_cons by lia. cbn [foldl].
    replace (Z.pred (Z.of_nat (S n))) with (Z.of_nat n) by lia.
    rewrite IH, base_entry_encoding, base_entry_reverse.
    repeat case_decide; try lia; try done. by subst.
Qed.

Lemma base_loop_reverse_Z (n : Z) (self : Compressor) (code : Z) :
  0 <= n ->
  reverse_dictionary (foldl LZW77Compressor.base_entry self (seqZ 0 n)) !! code
  = if decide (0 <= code < n) then decode_byte (encoding self) replace code
    else reverse_dictionary self !! code.
Proof.
  intros Hn. pose proof (base_loop_reverse (Z.to_nat n) self 0 code) as H.
  rewrite Z2Nat.id, Z.add_0_l in H by lia. exact H.
Qed.

Lemma base_reset_reverse (self : Compressor) (code : Z) :
  0 <= code < 256 ->
  reverse_dictionary (LZW77Compressor.reset_dictionary self) !! code
  = decode_byte (encoding self) replace code.
Proof.
  intros Hcode. unfold LZW77Compressor.reset_dictionary.
  match goal with
  | |- context [foldl LZW77Compressor.base_entry ?s0 (seqZ 0 256)] =>
      pose proof (base_loop_reverse_Z 256 s0 code ltac:(lia)) as H;
      remember (foldl LZW77Compressor.base_entry s0 (seqZ 0 256)) as s1 eqn:Hs1;
      clear Hs1
  end.
  cbn in *. rewrite H. case_decide; [done | lia].
Qed.

Lemma seed_loop_reverse (patterns : list str) : forall (self : Compressor) (code : Z),
  code < next_code self ->
  reverse_dictionary (foldl HybridLZW77Compressor.seed_entry self patterns) !! code
  = reverse_dictionary self !! code.
Proof.
  induction patterns as [|p patterns IH]; intros self code Hcode; [done|].
  cbn [foldl]. unfold HybridLZW77Compressor.seed_entry at 2.
  destruct (_ && _); [|by apply IH].
  rewrite IH by (cbn; lia). cbn. apply lookup_insert_ne. lia.
Qed.

Lemma reset_dictionary_reverse (self : Compressor) (code : Z) :
  0 <= code < 256 ->
  reverse_dictionary (reset_dictionary self) !! code
  = decode_byte (encoding self) replace code.
Proof.
  intros Hcode. unfold reset_dictionary.
  destruct (multilingual_dict self) as [d|]; [|by apply base_reset_reverse].
  unfold HybridLZW77Compressor.reset_dictionary.
  rewrite seed_loop_reverse; [by apply base_reset_reverse|].
  destruct (base_reset_synchronized self) as (_ & _ & Hn). lia.
Qed.

(** C4, what the code does instead.  A reset skips no byte value: a value
    in [range(256)] that is not a valid standalone character of the
    configured encoding (where [decode] with the strict handler raises
    [UnicodeDecodeError]) is entered all the same, with U+FFFD for its
    string.  Decoding with [errors='replace'] raises nothing, so the
    [except UnicodeDecodeError: continue] of the loop is never run. *)
Theorem reset_dictionary_keeps_invalid_bytes (self : Compressor) (i : Z) :
  0 <= i < 256 ->
  decode_byte (encoding self) strict i = None ->
  reverse_dictionary (reset_dictionary self) !! i = Some [REPLACEMENT_CHARACTER].
Proof.
  intros Hi Hstrict. rewrite reset_dictionary_reverse by done.
  unfold decode_byte in *. by repeat case_match.
Qed.

Lemma reset_dictionary_keeps_byte_128 :
  reverse_dictionary (reset_dictionary (HybridLZW77Compressor_init 65536 utf_8)) !! 128
  = Some [REPLACEMENT_CHARACTER].
Proof.
  apply (reset_dictionary_keeps_invalid_bytes (HybridLZW77Compressor_init 65536 utf_8) 128).
  - lia.
  - vm_compute. reflexivity.
Defined.

(** Under UTF-8 the 128 values from 128 up share the one string U+FFFD,
    whose forward entry keeps the last of them. *)
Lemma reset_dictionary_utf_8_replacement :
  dictionary (reset_dictionary (HybridLZW77Compressor_init 65536 utf_8))
    !! [REPLACEMENT_CHARACTER] = Some 255
  /\ reverse_dictionary (reset_dictionary (HybridLZW77Compressor_init 65536 utf_8)) !! 128
     = Some [REPLACEMENT_CHARACTER]
  /\ reverse_dictionary (reset_dictionary (HybridLZW77Compressor_init 65536 utf_8)) !! 255
     = Some [REPLACEMENT_CHARACTER]
  /\ next_code (reset_dictionary (HybridLZW77Compressor_init 65536 utf_8)) = 387.
Proof. vm_compute. repeat split. Qed.

(** ** Preprocessing *)

Lemma sub_runs_isspace_symbols (text : str) : forall (in_run : bool) (c : N),
  c ∈ sub_runs isspace [SPACE] in_run text -> c = SPACE \/ isspace c = false.
Proof.
  induction text as [|c0 text IH]; intros in_run c; cbn [sub_runs].
  - by intros ?%elem_of_nil.
  - destruct (isspace c0) eqn:Hc0.
    + rewrite elem_of_app. intros [Hin|Hin]; [|by eapply IH].
      destruct in_run; [by apply elem_of_nil in Hin|].
      apply list_elem_of_singleton in Hin. by left.
    + rewrite elem_of_cons. intros [->|Hin]; [by right | by eapply IH].
Qed.

Lemma sub_runs_none (cls : N -> bool) (repl : str) (text : str) : forall in_run : bool,
  (forall c, c ∈ text -> cls c = false) ->
  sub_runs cls repl in_run text = text.
Proof.
  induction text as [|c0 text IH]; intros in_run Hnone; [done|].
  cbn [sub_runs]. rewrite (Hnone c0) by (apply elem_of_cons; by left).
  f_equal. apply IH. intros c Hc. apply Hnone. apply elem_of_cons. by right.
Qed.

Lemma lstrip_symbols (text : str) (c : N) : c ∈ lstrip text -> c ∈ text.
Proof.
  induction text as [|c0 text IH]; [done|]. cbn [lstrip].
  destruct (isspace c0); [|done].
  intros Hin. apply elem_of_cons. right. by apply IH.
Qed.

Lemma strip_symbols (text : str) (c : N) : c ∈ strip text -> c ∈ text.
Proof.
  unfold strip, rstrip. rewrite elem_of_reverse.
  intros Hin%lstrip_symbols. rewrite elem_of_reverse in Hin.
  by apply lstrip_symbols.
Qed.

(** The second substitution finds nothing to replace. *)
Lemma newline_substitution_is_identity (text : str) :
  re_sub_plus is_newline [LINE_FEED] (re_sub_plus isspace [SPACE] text)
  = re_sub_plus isspace [SPACE] text.
Proof.
  apply sub_runs_none. intros c Hc.
  apply sub_runs_isspace_symbols in Hc as [->|Hc]; [done|].
  unfold is_newline. apply N.eqb_neq. intros ->. discriminate Hc.
Qed.

(** C8, what the code does instead.  No newline survives preprocessing:
    [\s] matches the newline, so the first substitution turns every run
    that holds one into a single space, and the substitution of newline
    runs that follows has nothing left to keep. *)
Theorem preprocess_text_has_no_newline `{unicodedata} (text : str) :
  LINE_FEED ∉ Hybrid.preprocess_text text.
Proof.
  unfold Hybrid.preprocess_text. intros Hin%strip_symbols.
  rewrite newline_substitution_is_identity in Hin.
  apply sub_runs_isspace_symbols in Hin as [Hin|Hin]; discriminate Hin.
Qed.

(** The text [a], newline, [b] comes out as [a b]. *)
Lemma preprocess_text_newline_to_space :
  @Hybrid.preprocess_text nfc_of_composed_text [97; 10; 98]%N = py "a b".
Proof. vm_compute. reflexivity. Qed.

(** ** Statistics *)

Lemma div_half_even_nearest (a d : Z) :
  0 < d -> nearest_even (div_half_even a d) a d.
Proof.
  intros Hd. unfold nearest_even, div_half_even.
  pose proof (Z.div_mod a d ltac:(lia)) as Ha.
  pose proof (Z.mod_pos_bound a d Hd) as Hr.
  destruct (Z.ltb_spec (2 * (a mod d)) d); [split; [lia | lia]|].
  destruct (Z.ltb_spec d (2 * (a mod d))); [split; [lia | lia]|].
  destruct (Z.even (a / d)) eqn:Heven; [split; [lia | done]|].
  split; [lia|]. intros _. rewrite Z.even_add, Heven. done.
Qed.

Lemma nearest_even_unique (k k' a d : Z) :
  0 < d -> nearest_even k a d -> nearest_even k' a d -> k = k'.
Proof.
  intros Hd (Hk & Hke) (Hk' & Hke').
  assert (Hclose : k' = k \/ k' = k + 1 \/ k = k' + 1) by nia.
  destruct Hclose as [->|[->| ->]]; [done| |].
  - assert (Hk2 : 2 * Z.abs (a - k * d) = d) by nia.
    assert (Hk2' : 2 * Z.abs (a - (k + 1) * d) = d) by nia.
    apply Hke in Hk2. apply Hke' in Hk2'. rewrite Z.even_add, Hk2 in Hk2'. done.
  - assert (Hk2 : 2 * Z.abs (a - (k' + 1) * d) = d) by nia.
    assert (Hk2' : 2 * Z.abs (a - k' * d) = d) by nia.
    apply Hke in Hk2. apply Hke' in Hk2'. rewrite Z.even_add, Hk2' in Hk2. done.
Qed.

(** [round] rounds: its result is the one float that [rounded_to]
    describes. *)
Lemma round_rounded_to (digits : Z) (x r : float) :
  0 <= digits -> rounded_to digits x r <-> r = round x digits.
Proof.
  intros Hdigits. unfold rounded_to, round.
  destruct (Prim2SF x) as [| | |s m e]; try done.
  destruct (Z.leb_spec (10 ^ digits) (2 ^ (- e))) as [Hfine|]; [|done].
  assert (Hd : 0 < 2 ^ (- e)) by (pose proof (Z.pow_pos_nonneg 10 digits); lia).
  split.
  - intros (k & Hk & ->).
    by rewrite (nearest_even_unique k _ _ _ Hd Hk (div_half_even_nearest _ _ Hd)).
  - intros ->. eexists. split; [by apply div_half_even_nearest|]. by destruct s.
Qed.

(** C9.  For a text that the configured codec can encode, the statistics
    hold the byte length of the encoded text, the byte length of the
    frame, their difference, and the ratio
    [(1 - compressed_size / original_size) * 100] rounded to two decimal
    places: the quotient by 100 of the integer nearest to a hundred times
    the ratio, ties to even, and no other float.  For an empty text the
    ratio and the difference are 0 and no division takes place. *)
Theorem get_compression_stats_correct (self : Compressor) (original_text : str)
    (compressed_data encoded : bytes) :
  encode (encoding self) original_text = Ok encoded ->
  exists stats,
    LZW77.get_compression_stats self original_text compressed_data = Ok stats
    /\ original_size stats = len encoded
    /\ compressed_size stats = len compressed_data
    /\ (len encoded = 0 ->
        compression_ratio stats = Int 0 /\ space_saved stats = 0)
    /\ (len encoded <> 0 ->
        (exists r,
            compression_ratio stats = Float r
            /\ rounded_to 2
                 ((1 - float_of_Z (len compressed_data) / float_of_Z (len encoded)) * 100)
                 r
            /\ forall r',
                rounded_to 2
                  ((1 - float_of_Z (len compressed_data) / float_of_Z (len encoded)) * 100)
                  r' ->
                r' = r)
        /\ space_saved stats = len encoded - len compressed_data).
Proof.
  intros Henc. unfold LZW77.get_compression_stats. rewrite Henc. cbn [mbind result_bind].
  destruct (Z.eqb_spec (len encoded) 0) as [Hzero|Hpos].
  - eexists. split; [reflexivity|]. cbn. rewrite Hzero. repeat split; congruence.
  - unfold truediv. destruct (Z.eqb_spec (len encoded) 0) as [|_]; [done|].
    cbn [mbind result_bind].
    eexists. split; [reflexivity|]. cbn. split; [done|]. split; [done|].
    split; [done|]. intros _. split; [|done].
    eexists. split; [reflexivity|].
    split; [by apply round_rounded_to|]. intros r' Hr'. by apply round_rounded_to in Hr'.
Qed.

(** A text of 1000 bytes and a frame of 400: ratio 60.0, 600 bytes saved.
    A text of 3 bytes and a frame of 1: the ratio 66.66666666666667 is
    rounded to 66.67, a hundredth of the integer 6667. *)
Lemma get_compression_stats_1000_400 :
  (exists stats,
      LZW77.get_compression_stats (HybridLZW77Compressor_init 65536 utf_8)
        (repeat 97%N 1000) (repeat x00 400) = Ok stats
      /\ original_size stats = 1000
      /\ compressed_size stats = 400
      /\ compression_ratio stats = Float 60
      /\ space_saved stats = 600)
  /\ (exists stats,
        LZW77.get_compression_stats (HybridLZW77Compressor_init 65536 utf_8)
          (repeat 97%N 3) (repeat x00 1) = Ok stats
        /\ original_size stats = 3
        /\ compressed_size stats = 1
        /\ compression_ratio stats = Float 0x1.0aae147ae147bp+6
        /\ space_saved stats = 2).
Proof.
  split.
  - destruct (get_compression_stats_correct (HybridLZW77Compressor_init 65536 utf_8)
                (repeat 97%N 1000) (repeat x00 400) (repeat x61 1000))
      as (stats & Hrun & Horig & Hcomp & _ & Hratio); [vm_compute; reflexivity|].
    exists stats.
    destruct Hratio as [(r & Hratio & _ & Honly) Hsaved]; [vm_compute; discriminate|].
    split; [exact Hrun|]. split; [rewrite Horig; vm_compute; reflexivity|].
    split; [rewrite Hcomp; vm_compute; reflexivity|].
    split; [|rewrite Hsaved; vm_compute; reflexivity].
    rewrite Hratio. f_equal. symmetry. apply Honly.
    exists 6000. split; [|vm_compute; reflexivity].
    split; [vm_compute; discriminate | vm_compute; discriminate].
  - destruct (get_compression_stats_correct (HybridLZW77Compressor_init 65536 utf_8)
                (repeat 97%N 3) (repeat x00 1) (repeat x61 3))
      as (stats & Hrun & Horig & Hcomp & _ & Hratio); [vm_compute; reflexivity|].
    exists stats.
    destruct Hratio as [(r & Hratio & _ & Honly) Hsaved]; [vm_compute; discriminate|].
    split; [exact Hrun|]. split; [rewrite Horig; vm_compute; reflexivity|].
    split; [rewrite Hcomp; vm_compute; reflexivity|].
    split; [|rewrite Hsaved; vm_compute; reflexivity].
    rewrite Hratio. f_equal. symmetry. apply Honly.
    exists 6667. split; [|vm_compute; reflexivity].
    split; [vm_compute; discriminate | vm_compute; discriminate].
Defined.

(** ** A reset depends on the configuration only *)

Lemma base_loop_config (l : list Z) : forall self : Compressor,
  max_dict_size (foldl LZW77Compressor.base_entry self l) = max_dict_size self
  /\ encoding (foldl LZW77Compressor.base_entry self l) = encoding self
  /\ multilingual_dict (foldl LZW77Compressor.base_entry self l) = multilingual_dict self.
Proof.
  induction l as [|i l IH]; intros self; [done|].
  cbn [foldl]. destruct (IH (LZW77Compressor.base_entry self i)) as (-> & -> & ->).
  unfold LZW77Compressor.base_entry. by destruct (decode_byte _ _ _).
Qed.

Lemma base_loop_ext (l : list Z) : forall self self' : Compressor,
  encoding self = encoding self' ->
  dictionary self = dictionary self' ->
  reverse_dictionary self = reverse_dictionary self' ->
  dictionary (foldl LZW77Compressor.base_entry self l)
  = dictionary (foldl LZW77Compressor.base_entry self' l)
  /\ reverse_dictionary (foldl LZW77Compressor.base_entry self l)
     = reverse_dictionary (foldl LZW77Compressor.base_entry self' l).
Proof.
  induction l as [|i l IH]; intros self self' Henc Hd Hr; [done|].
  cbn [foldl]. apply IH; unfold LZW77Compressor.base_entry; rewrite Henc;
    destruct (decode_byte _ _ _); cbn; congruence.
Qed.

Lemma base_reset_ext (self self' : Compressor) :
  max_dict_size self = max_dict_size self' ->
  encoding self = encoding self' ->
  multilingual_dict self = multilingual_dict self' ->
  LZW77Compressor.reset_dictionary self = LZW77Compressor.reset_dictionary self'.
Proof.
  intros Hmax Henc Hmd. unfold LZW77Compressor.reset_dictionary.
  generalize (seqZ 0 256). intros l.
  set (s0 := {| max_dict_size := max_dict_size self; encoding := encoding self;
                multilingual_dict := multilingual_dict self; dictionary := ∅;
                reverse_dictionary := ∅; next_code := next_code self |}).
  set (s0' := {| max_dict_size := max_dict_size self'; encoding := encoding self';
                 multilingual_dict := multilingual_dict self'; dictionary := ∅;
                 reverse_dictionary := ∅; next_code := next_code self' |}).
  destruct (base_loop_config l s0) as (-> & -> & ->).
  destruct (base_loop_config l s0') as (-> & -> & ->).
  destruct (base_loop_ext l s0 s0') as [-> ->]; try done.
  cbn. by rewrite Hmax, Henc, Hmd.
Qed.

Lemma base_reset_config (self : Compressor) :
  max_dict_size (LZW77Compressor.reset_dictionary self) = max_dict_size self
  /\ encoding (LZW77Compressor.reset_dictionary self) = encoding self
  /\ multilingual_dict (LZW77Compressor.reset_dictionary self) = multilingual_dict self.
Proof.
  unfold LZW77Compressor.reset_dictionary. generalize (seqZ 0 256). intros l.
  cbn [max_dict_size encoding multilingual_dict].
  match goal with
  | |- context [foldl LZW77Compressor.base_entry ?s0 l] =>
      destruct (base_loop_config l s0) as (-> & -> & ->)
  end.
  done.
Qed.

Lemma seed_loop_config (patterns : list str) : forall self : Compressor,
  max_dict_size (foldl HybridLZW77Compressor.seed_entry self patterns) = max_dict_size self
  /\ encoding (foldl HybridLZW77Compressor.seed_entry self patterns) = encoding self
  /\ multilingual_dict (foldl HybridLZW77Compressor.seed_entry self patterns)
     = multilingual_dict self.
Proof.
  induction patterns as [|p patterns IH]; intros self; [done|].
  cbn [foldl]. destruct (IH (HybridLZW77Compressor.seed_entry self p)) as (-> & -> & ->).
  unfold HybridLZW77Compressor.seed_entry. by destruct (_ && _).
Qed.

Lemma reset_dictionary_config (self : Compressor) :
  max_dict_size (reset_dictionary self) = max_dict_size self
  /\ encoding (reset_dictionary self) = encoding self
  /\ multilingual_dict (reset_dictionary self) = multilingual_dict self.
Proof.
  unfold reset_dictionary. destruct (multilingual_dict self) as [d|] eqn:Hmd.
  - unfold HybridLZW77Compressor.reset_dictionary.
    destruct (seed_loop_config (common_words d ++ common_patterns d)
                (LZW77Compressor.reset_dictionary self)) as (-> & -> & ->).
    destruct (base_reset_config self) as (-> & -> & ->). done.
  - rewrite <- Hmd. apply base_reset_config.
Qed.

Lemma reset_dictionary_ext (self self' : Compressor) :
  max_dict_size self = max_dict_size self' ->
  encoding self = encoding self' ->
  multilingual_dict self = multilingual_dict self' ->
  reset_dictionary self = reset_dictionary self'.
Proof.
  intros Hmax Henc Hmd.
  pose proof (base_reset_ext self self' Hmax Henc Hmd) as Hbase.
  unfold reset_dictionary, HybridLZW77Compressor.reset_dictionary.
  by rewrite <- Hmd, Hbase.
Qed.

Lemma reset_dictionary_idempotent (self : Compressor) :
  reset_dictionary (reset_dictionary self) = reset_dictionary self.
Proof.
  destruct (reset_dictionary_config self) as (Hmax & Henc & Hmd).
  by apply reset_dictionary_ext.
Qed.

(** ** What else a reset does: the seeds, the first free code *)

Lemma seed_loop_grows (patterns : list str) : forall self : Compressor,
  (forall s, is_Some (dictionary self !! s) ->
             is_Some (dictionary (foldl HybridLZW77Compressor.seed_entry self patterns) !! s))
  /\ next_code self <= next_code (foldl HybridLZW77Compressor.seed_entry self patterns)
  /\ next_code (foldl HybridLZW77Compressor.seed_entry self patterns)
     <= Z.max (next_code self) (max_dict_size self).
Proof.
  induction patterns as [|p patterns IH]; intros self.
  - cbn. repeat split; [done | lia | lia].
  - cbn [foldl]. destruct (IH (HybridLZW77Compressor.seed_entry self p)) as (Hkeys & Hle & Hmax).
    unfold HybridLZW77Compressor.seed_entry in *.
    destruct (negb (contains (dictionary self) p)) eqn:Hnew;
      destruct (Z.ltb_spec (next_code self) (max_dict_size self)) as [Hroom|Hfull];
      cbn [andb] in *; repeat split; try done; try (cbn in *; lia).
    intros s Hs. apply Hkeys. cbn. rewrite lookup_insert. by case_decide.
Qed.

(** Every seed entry is a key after the reset, provided the dictionary
    did not fill up on the way. *)
Lemma seed_loop_present (patterns : list str) : forall self : Compressor,
  next_code (foldl HybridLZW77Compressor.seed_entry self patterns) < max_dict_size self ->
  forall p, p ∈ patterns ->
  is_Some (dictionary (foldl HybridLZW77Compressor.seed_entry self patterns) !! p).
Proof.
  induction patterns as [|p0 patterns IH]; intros self Hroom p Hp.
  - by apply elem_of_nil in Hp.
  - cbn [foldl] in *.
    destruct (seed_loop_grows patterns (HybridLZW77Compressor.seed_entry self p0))
      as (Hkeys & Hle & _).
    assert (Hmax : max_dict_size (HybridLZW77Compressor.seed_entry self p0)
                   = max_dict_size self).
    { unfold HybridLZW77Compressor.seed_entry. by destruct (_ && _). }
    apply elem_of_cons in Hp as [->|Hp]; [|apply IH; [by rewrite Hmax | done]].
    apply Hkeys. unfold HybridLZW77Compressor.seed_entry in *.
    destruct (contains (dictionary self) p0) eqn:Hold; cbn [negb andb] in *.
    + unfold contains in Hold. by destruct (dictionary self !! p0).
    + destruct (Z.ltb_spec (next_code self) (max_dict_size self)) as [Hlt|Hge].
      * cbn. rewrite lookup_insert_eq. by eexists.
      * lia.
Qed.

Lemma reset_dictionary_seeds_present (self : Compressor) (d : MultilingualDictionary)
    (p : str) :
  multilingual_dict self = Some d ->
  next_code (reset_dictionary self) < max_dict_size self ->
  p ∈ common_words d ++ common_patterns d ->
  is_Some (dictionary (reset_dictionary self) !! p).
Proof.
  unfold reset_dictionary. intros -> Hroom Hp.
  unfold HybridLZW77Compressor.reset_dictionary in *.
  apply seed_loop_present; [|done].
  by destruct (base_reset_config self) as (-> & _).
Qed.

Lemma add_entry_complete (s : str) (self : Compressor) :
  codes_complete self -> codes_complete (add_entry s self).
Proof.
  intros Hall code Hcode. cbn in *. rewrite lookup_insert.
  case_decide; [by eexists|]. apply Hall. lia.
Qed.

(** After a reset [next_code] is the first free code: every code below it
    is in use, and it is not. *)
Lemma reset_dictionary_first_free_code (self : Compressor) :
  codes_complete (reset_dictionary self)
  /\ reverse_dictionary (reset_dictionary self) !! next_code (reset_dictionary self) = None.
Proof.
  split.
  - assert (Hbase : codes_complete (LZW77Compressor.reset_dictionary self)).
    { intros code Hcode.
      assert (Hnext : next_code (LZW77Compressor.reset_dictionary self) = 256) by done.
      rewrite Hnext in Hcode. rewrite base_reset_reverse by done.
      unfold decode_byte. repeat case_match; by eexists. }
    unfold reset_dictionary. destruct (multilingual_dict self) as [d|]; [|done].
    unfold HybridLZW77Compressor.reset_dictionary.
    generalize (common_words d ++ common_patterns d).
    revert Hbase. generalize (LZW77Compressor.reset_dictionary self).
    intros s Hs l. revert s Hs.
    induction l as [|p l IH]; intros s Hs; [done|].
    cbn [foldl]. apply IH. unfold HybridLZW77Compressor.seed_entry.
    destruct (_ && _); [by apply add_entry_complete | done].
  - destruct (reset_dictionary_synchronized self) as (_ & Hrange & _).
    destruct (reverse_dictionary (reset_dictionary self) !! next_code (reset_dictionary self))
      as [s|] eqn:Hs; [|done].
    apply Hrange in Hs. lia.
Qed.

(** ** The round trip on a symbol that is not a dictionary key *)

Section NewSymbol.
Context `{unicodedata}.

Lemma preprocess_text_symbol (c : N) :
  normalize_NFC [c] = [c] -> isspace c = false -> Hybrid.preprocess_text [c] = [c].
Proof.
  intros Hnfc Hspace. unfold Hybrid.preprocess_text. rewrite Hnfc.
  assert (Hnl : is_newline c = false).
  { unfold is_newline. apply N.eqb_neq. intros ->. discriminate Hspace. }
  unfold re_sub_plus. cbn [sub_runs]. rewrite Hspace. cbn [sub_runs]. rewrite Hnl.
  unfold strip, rstrip. cbn [lstrip]. rewrite Hspace.
  change (reverse [c]) with [c]. cbn [lstrip]. by rewrite Hspace.
Qed.

(** The compressor enters the symbol at the first free code and emits
    that code. *)
Lemma compress_codes_new_symbol (self : Compressor) (c : N) :
  normalize_NFC [c] = [c] ->
  dictionary (reset_dictionary self) !! [c] = None ->
  LZW77.compress_codes self [c]
  = Ok (add_entry [c] (reset_dictionary self), [next_code (reset_dictionary self)]).
Proof.
  intros Hnfc Hnone. unfold LZW77.compress_codes. rewrite Hnfc.
  cbn [LZW77.compress_loop]. unfold LZW77.compress_char.
  rewrite reset_dictionary_idempotent, (contains_false _ _ Hnone).
  cbn [negb app].
  replace (if next_code (reset_dictionary self) <? max_dict_size (reset_dictionary self)
           then add_entry [c] (reset_dictionary self)
           else add_entry [c] (reset_dictionary self))
    with (add_entry [c] (reset_dictionary self)) by (by destruct (_ <? _)).
  assert (Hkey : dictionary (add_entry [c] (reset_dictionary self)) !! [c]
                 = Some (next_code (reset_dictionary self)))
    by apply lookup_insert_eq.
  rewrite (contains_true _ _ _ Hkey). cbn [mbind result_bind LZW77.emit_last].
  unfold dictionary_getitem. by rewrite Hkey.
Qed.

(** The decompressor, freshly reset, does not know that code. *)
Lemma decompress_unknown_first_code (self : Compressor) (frame : bytes) (rest : list Z) :
  frame <> [] ->
  LZW77._decode_codes frame = next_code (reset_dictionary self) :: rest ->
  LZW77.decompress self frame = Raise (KeyError_int (next_code (reset_dictionary self))).
Proof.
  intros Hframe Hcodes. unfold LZW77.decompress.
  destruct frame as [|b frame]; [done|]. rewrite Hcodes.
  unfold reverse_dictionary_getitem.
  destruct (reverse_dictionary (reset_dictionary self) !! next_code (reset_dictionary self))
    as [s|] eqn:Hs; [|done].
  destruct (reset_dictionary_synchronized self) as (_ & Hrange & _).
  apply Hrange in Hs. lia.
Qed.

(** C1, a failing input in general form.  Take any compressor and any
    symbol that preprocessing leaves alone and that is not a key after a
    reset (under UTF-8: any symbol from U+0080 on, U+FFFD and the seeds
    apart).  Compressing the one-symbol text succeeds, and decompressing
    the frame raises: the compressor gave the symbol a code of its own,
    which the decompressor cannot know. *)
Theorem round_trip_fails_on_new_symbol (self : Compressor) (c : N) :
  normalize_NFC [c] = [c] ->
  isspace c = false ->
  dictionary (reset_dictionary self) !! [c] = None ->
  next_code (reset_dictionary self) <= 65535 ->
  Hybrid.preprocess_text [c] = [c]
  /\ exists frame,
      value (Hybrid.compress self [c]) = Ok frame
      /\ value (Hybrid.decompress self frame)
         = Raise (DecompressionFailed (KeyError_int (next_code (reset_dictionary self)))).
Proof.
  intros Hnfc Hspace Hnone Hbound.
  pose proof (preprocess_text_symbol c Hnfc Hspace) as Hpre.
  split; [exact Hpre|].
  destruct (reset_dictionary_synchronized self) as (_ & _ & Hlow).
  destruct (decode_encoded_codes (add_entry [c] (reset_dictionary self))
              [next_code (reset_dictionary self)])
    as (frame & Hframe & Hlen & Hdecode).
  { repeat constructor; lia. }
  { vm_compute. discriminate. }
  { cbn. lia. }
  exists frame. split.
  - unfold Hybrid.compress. rewrite Hpre. unfold LZW77.compress.
    rewrite (compress_codes_new_symbol self c Hnfc Hnone). cbn [mbind result_bind].
    by rewrite Hframe.
  - unfold Hybrid.decompress.
    rewrite (decompress_unknown_first_code self frame []); [done| |done].
    intros ->. vm_compute in Hlen. discriminate Hlen.
Qed.

End NewSymbol.

(** The hybrid compressor with its default arguments on the text [ñ]. *)
Lemma round_trip_fails_on_n_tilde :
  @Hybrid.preprocess_text nfc_of_composed_text [241%N] = [241%N]
  /\ exists frame,
      value (@Hybrid.compress nfc_of_composed_text
               (HybridLZW77Compressor_init 65536 utf_8) [241%N]) = Ok frame
      /\ value (Hybrid.decompress (HybridLZW77Compressor_init 65536 utf_8) frame)
         = Raise (DecompressionFailed
                    (KeyError_int
                       (next_code (reset_dictionary (HybridLZW77Compressor_init 65536 utf_8))))).
Proof.
  apply (@round_trip_fails_on_new_symbol nfc_of_composed_text
           (HybridLZW77Compressor_init 65536 utf_8) 241%N).
  - reflexivity.
  - vm_compute. reflexivity.
  - vm_compute. reflexivity.
  - vm_compute. discriminate.
Defined.

(** The same run, evaluated: the frame holds the one code 387, and
    [decompress] raises [KeyError: 387]. *)
Lemma round_trip_n_tilde_evaluated :
  value (@Hybrid.compress nfc_of_composed_text
           (HybridLZW77Compressor_init 65536 utf_8) (py "ñ"))
    = Ok [x00; x00; x00; x01; x00; x00; x00; x84; x01; x83]
  /\ value (Hybrid.decompress (HybridLZW77Compressor_init 65536 utf_8)
              [x00; x00; x00; x01; x00; x00; x00; x84; x01; x83])
    = Raise (DecompressionFailed (KeyError_int 387))
  /\ @Hybrid.preprocess_text nfc_of_composed_text (py "ñ") = py "ñ".
Proof. vm_compute. repeat split. Qed.

(** Plain text fails as well once the dictionary overflows: with room for
    two learned entries, the compressor resets without inserting (line 77)
    while the decompressor resets and looks the previous code up in the
    fresh dictionary (line 120). *)
Lemma round_trip_fails_across_reset :
  @Hybrid.preprocess_text nfc_of_composed_text (py "abababababab") = py "abababababab"
  /\ value (@Hybrid.compress nfc_of_composed_text
              (HybridLZW77Compressor_init 389 utf_8) (py "abababababab"))
     = Ok [x00; x00; x00; x09; x00; x00; x00; x85;
           x00; x61; x00; x62; x01; x83; x00; x61; x00; x62; x01; x83;
           x00; x61; x00; x62; x01; x83]
  /\ value (Hybrid.decompress (HybridLZW77Compressor_init 389 utf_8)
              [x00; x00; x00; x09; x00; x00; x00; x85;
               x00; x61; x00; x62; x01; x83; x00; x61; x00; x62; x01; x83;
               x00; x61; x00; x62; x01; x83])
     = Raise (DecompressionFailed (KeyError_int 387)).
Proof. vm_compute. repeat split. Qed.

(** ** Compressing past the capacity of the dictionary *)

Section Overflow.
Variable self : Compressor.

Lemma reset_same_configuration (s : Compressor) :
  same_configuration s self -> reset_dictionary s = reset_dictionary self.
Proof. intros (? & ? & ?). by apply reset_dictionary_ext. Qed.

Lemma same_configuration_add_entry (s : Compressor) (key : str) :
  same_configuration s self -> same_configuration (add_entry key s) self.
Proof. intros (? & ? & ?). by repeat split. Qed.

Lemma same_configuration_reset : same_configuration (reset_dictionary self) self.
Proof. apply reset_dictionary_config. Qed.

Lemma fresh_symbol_not_key (c : N) (s : str) :
  fresh_symbol self c -> c ∈ s -> dictionary (reset_dictionary self) !! s = None.
Proof.
  intros Hfresh Hin.
  destruct (dictionary (reset_dictionary self) !! s) as [code|] eqn:Hs; [|done].
  by destruct (Hfresh s code Hs).
Qed.

(** The match [p] is not a key once the dictionary is the reset one plus
    the symbol [c]: looking it up raises. *)
Lemma compress_char_raises (s : Compressor) (result : list Z) (p c : N) :
  same_configuration s self ->
  dictionary s !! [c] = None ->
  max_dict_size s <= next_code s \/ dictionary s = dictionary (reset_dictionary self) ->
  fresh_symbol self p -> fresh_symbol self c -> p <> c ->
  LZW77.compress_char (s, result, [p]) c = Raise (KeyError_str [p]).
Proof.
  intros Hconf Hc Hfull Hp Hfc Hne.
  assert (HRc : dictionary (reset_dictionary self) !! [c] = None)
    by (apply (fresh_symbol_not_key c); [done | apply elem_of_cons; by left]).
  assert (HRp : dictionary (reset_dictionary self) !! [p] = None)
    by (apply (fresh_symbol_not_key p); [done | apply elem_of_cons; by left]).
  assert (HRpc : dictionary (reset_dictionary self) !! [p; c] = None)
    by (apply (fresh_symbol_not_key p); [done | apply elem_of_cons; by left]).
  unfold LZW77.compress_char.
  rewrite (contains_false _ _ Hc), (reset_same_configuration s Hconf),
    (contains_false _ _ HRc).
  cbn [negb app].
  set (s1 := if next_code s <? max_dict_size s then _ else _).
  assert (Hs1 : exists k, dictionary s1 = <[[c] := k]> (dictionary (reset_dictionary self))).
  { subst s1. destruct (Z.ltb_spec (next_code s) (max_dict_size s)) as [Hlt|Hge].
    - destruct Hfull as [Hfull|Hfull]; [lia|]. eexists. cbn. by rewrite Hfull.
    - by eexists. }
  destruct Hs1 as [k Hs1]. clearbody s1.
  assert (Hpc : dictionary s1 !! [p; c] = None)
    by (rewrite Hs1, lookup_insert_ne by congruence; done).
  assert (Hp1 : dictionary s1 !! [p] = None)
    by (rewrite Hs1, lookup_insert_ne by congruence; done).
  rewrite (contains_false _ _ Hpc). unfold dictionary_getitem. by rewrite Hp1.
Qed.

(** After a reset that dropped the running match, the call cannot end
    well: the next symbol raises, and so does the end of the text. *)
Lemma compress_loop_raises_after_reset (result : list Z) (p : N) (rest : str) :
  fresh_symbol self p ->
  Forall (fresh_symbol self) rest ->
  p ∉ rest ->
  (st ← LZW77.compress_loop (reset_dictionary self, result, [p]) rest; LZW77.emit_last st)
  = Raise (KeyError_str [p]).
Proof.
  intros Hp Hrest Hnotin.
  assert (HRp : dictionary (reset_dictionary self) !! [p] = None)
    by (apply (fresh_symbol_not_key p); [done | apply elem_of_cons; by left]).
  destruct rest as [|c rest].
  - cbn. unfold dictionary_getitem. by rewrite HRp.
  - cbn [LZW77.compress_loop].
    rewrite compress_char_raises; try done.
    + apply same_configuration_reset.
    + apply (fresh_symbol_not_key c); [|apply elem_of_cons; by left].
      by apply Forall_cons in Hrest as [? _].
    + by right.
    + by apply Forall_cons in Hrest as [? _].
    + intros ->. apply Hnotin, elem_of_cons. by left.
Qed.

Lemma compress_loop_raises_when_full (rest : str) :
  forall (seen : str) (st : Compressor * list Z * str),
  learning self seen st ->
  NoDup (seen ++ rest) ->
  Forall (fresh_symbol self) (seen ++ rest) ->
  rest <> [] ->
  max_dict_size self <= next_code (reset_dictionary self) + 2 * (len seen + len rest - 1) ->
  exists key,
    (st ← LZW77.compress_loop st rest; LZW77.emit_last st) = Raise (KeyError_str key).
Proof.
  induction rest as [|c rest IH]; intros seen [[s result] cur] Hlearn Hnodup Hfresh Hne Hbound;
    [done|].
  destruct Hlearn as (p & Hlast & Hcur & Hconf & Hpkey & Hkeys & Hnext).
  cbn [fst snd] in *. subst cur.
  assert (Hpseen : p ∈ seen) by (by apply last_Some_elem_of).
  apply NoDup_app in Hnodup as (Hnd_seen & Hdisj & Hnd_rest).
  apply NoDup_cons in Hnd_rest as [Hc_rest Hnd_rest].
  assert (Hc_seen : c ∉ seen).
  { intros Hin. apply (Hdisj c Hin), elem_of_cons. by left. }
  assert (Hpc : p <> c) by (intros ->; done).
  apply Forall_app in Hfresh as [Hfresh_seen Hfresh_rest].
  apply Forall_cons in Hfresh_rest as [Hfresh_c Hfresh_rest].
  assert (Hfresh_p : fresh_symbol self p).
  { rewrite Forall_forall in Hfresh_seen. by apply Hfresh_seen. }
  assert (Hc : dictionary s !! [c] = None).
  { destruct (dictionary s !! [c]) as [code|] eqn:Hs; [|done].
    destruct (Hkeys _ _ Hs) as [[code' HR]|Hin].
    - rewrite (fresh_symbol_not_key c [c]) in HR; [done|done|apply elem_of_cons; by left].
    - destruct Hc_seen. apply Hin, elem_of_cons. by left. }
  destruct (Z.ltb_spec (next_code s) (max_dict_size s)) as [Hroom|Hfull].
  2:{ exists [p]. cbn [LZW77.compress_loop].
      rewrite compress_char_raises; try done.
      by left. }
  (* the symbol is entered, the match is emitted *)
  assert (Hstep : LZW77.compress_char (s, result, [p]) c
                  = code ← dictionary_getitem (add_entry [c] s) [p];
                    Ok (if next_code (add_entry [c] s) <? max_dict_size (add_entry [c] s)
                        then add_entry [p; c] (add_entry [c] s)
                        else reset_dictionary (add_entry [c] s),
                        result ++ [code], [c])).
  { unfold LZW77.compress_char. rewrite (contains_false _ _ Hc). cbn [negb app].
    replace (next_code s <? max_dict_size s) with true by (symmetry; by apply Z.ltb_lt).
    assert (Hpc' : dictionary (add_entry [c] s) !! [p; c] = None).
    { cbn. rewrite lookup_insert_ne by congruence.
      destruct (dictionary s !! [p; c]) as [code|] eqn:Hs; [|done].
      destruct (Hkeys _ _ Hs) as [[code' HR]|Hin].
      - rewrite (fresh_symbol_not_key c [p; c]) in HR; [done|done|].
        apply elem_of_cons. right. apply elem_of_cons. by left.
      - destruct Hc_seen. apply Hin, elem_of_cons. right. apply elem_of_cons. by left. }
    by rewrite (contains_false _ _ Hpc'). }
  cbn [LZW77.compress_loop]. rewrite Hstep.
  destruct Hpkey as [code Hpkey].
  assert (Hget : dictionary_getitem (add_entry [c] s) [p] = Ok code).
  { unfold dictionary_getitem. cbn. rewrite lookup_insert_ne by congruence. by rewrite Hpkey. }
  rewrite Hget. cbn [mbind result_bind].
  destruct (Z.ltb_spec (next_code (add_entry [c] s)) (max_dict_size (add_entry [c] s)))
    as [Hroom'|Hfull'].
  - (* room for [new_string] too: the loop goes on as before *)
    destruct rest as [|c' rest'].
    { cbn in Hroom', Hbound. destruct Hconf as (Hmax & _).
      unfold len in *. cbn in Hbound. lia. }
    apply (IH (seen ++ [c])).
    + exists c. cbn [fst snd]. split; [apply last_snoc|]. split; [done|].
      split; [by do 2 apply same_configuration_add_entry|].
      split.
      { exists (next_code s). cbn. rewrite lookup_insert_ne by congruence.
        apply lookup_insert_eq. }
      split.
      { intros k code'. cbn. rewrite !lookup_insert.
        repeat case_decide; subst.
        - intros _. right. intros x Hx. rewrite elem_of_app.
          apply elem_of_cons in Hx as [->|Hx]; [by left|].
          apply list_elem_of_singleton in Hx as ->. right. by apply list_elem_of_singleton.
        - intros _. right. intros x Hx. apply list_elem_of_singleton in Hx as ->.
          rewrite elem_of_app. right. by apply list_elem_of_singleton.
        - intros Hs. destruct (Hkeys _ _ Hs) as [?|Hin]; [by left|].
          right. intros x Hx. rewrite elem_of_app. left. by apply Hin. }
      cbn. rewrite Hnext, len_app. unfold len. cbn. lia.
    + rewrite <- app_assoc. cbn. apply NoDup_app. repeat split; try done.
      by apply NoDup_cons.
    + rewrite <- app_assoc. cbn. apply Forall_app. split; [done|]. by apply Forall_cons.
    + done.
    + rewrite len_app. unfold len in *. cbn in *. lia.
  - (* no room: the reset drops the symbol [c], which is the new match *)
    exists [c].
    rewrite (reset_same_configuration (add_entry [c] s))
      by (by apply same_configuration_add_entry).
    apply compress_loop_raises_after_reset; done.
Qed.

End Overflow.

Lemma lstrip_no_space (text : str) :
  Forall (fun c => isspace c = false) text -> lstrip text = text.
Proof. destruct 1 as [|c text Hc _]; [done|]. cbn. by rewrite Hc. Qed.

Section PastCapacity.
Context `{unicodedata}.

Lemma preprocess_text_no_space (text : str) :
  normalize_NFC text = text ->
  Forall (fun c => isspace c = false) text ->
  Hybrid.preprocess_text text = text.
Proof.
  intros Hnfc Hspace. unfold Hybrid.preprocess_text. rewrite Hnfc.
  rewrite newline_substitution_is_identity.
  unfold re_sub_plus. rewrite sub_runs_none.
  - unfold strip, rstrip. rewrite (lstrip_no_space text Hspace).
    rewrite lstrip_no_space by (by apply Forall_reverse).
    apply reverse_involutive.
  - intros c Hc. rewrite Forall_forall in Hspace. by apply Hspace.
Qed.

(** The base class past its capacity: the reset drops the running match
    from the dictionary, and the code of the match is looked up next. *)
Lemma base_compress_raises_past_capacity (self : Compressor) (text : str) :
  normalize_NFC text = text ->
  NoDup text ->
  Forall (fresh_symbol self) text ->
  2 <= len text ->
  max_dict_size self <= next_code (reset_dictionary self) + 2 * (len text - 1) ->
  exists key, LZW77.compress self text = Raise (KeyError_str key).
Proof.
  intros Hnfc Hnodup Hfresh Hlen Hbound.
  destruct text as [|c rest]; [unfold len in Hlen; cbn in Hlen; lia|].
  assert (Hrest : rest <> []) by (intros ->; unfold len in Hlen; cbn in Hlen; lia).
  assert (Hfresh_c : fresh_symbol self c) by (by apply Forall_cons in Hfresh as [? _]).
  assert (HRc : dictionary (reset_dictionary self) !! [c] = None)
    by (apply (fresh_symbol_not_key self c); [done | apply elem_of_cons; by left]).
  assert (Hfirst : LZW77.compress_char (reset_dictionary self, [], []) c
                   = Ok (add_entry [c] (reset_dictionary self), [], [c])).
  { unfold LZW77.compress_char.
    rewrite reset_dictionary_idempotent, (contains_false _ _ HRc). cbn [negb app].
    replace (if next_code (reset_dictionary self) <? max_dict_size (reset_dictionary self)
             then add_entry [c] (reset_dictionary self)
             else add_entry [c] (reset_dictionary self))
      with (add_entry [c] (reset_dictionary self)) by (by destruct (_ <? _)).
    by rewrite (contains_true _ _ (next_code (reset_dictionary self)))
      by apply lookup_insert_eq. }
  destruct (compress_loop_raises_when_full self rest [c]
              (add_entry [c] (reset_dictionary self), [], [c])) as [key Hkey]; try done.
  - exists c. cbn [fst snd]. split; [done|]. split; [done|].
    split; [apply same_configuration_add_entry, same_configuration_reset|].
    split; [eexists; apply lookup_insert_eq|]. split.
    + intros s code. cbn. rewrite lookup_insert. case_decide; subst.
      * intros _. by right.
      * intros Hs. left. by eexists.
    + cbn. unfold len. cbn. lia.
  - unfold len in *. cbn in *. lia.
  - exists key. unfold LZW77.compress, LZW77.compress_codes. rewrite Hnfc.
    cbn [LZW77.compress_loop]. rewrite Hfirst. cbn [mbind result_bind].
    by rewrite Hkey.
Qed.

(** C2, failing inputs in general form.  Take any compressor and any
    text of two or more symbols, pairwise distinct, none of them white
    space and none of them part of a key of the freshly reset dictionary,
    which normalisation leaves alone, and long enough for [next_code] to
    reach [max_dict_size] (two codes are spent on each symbol after the
    first).  Then [compress] raises [KeyError], in the base class and,
    wrapped, in the hybrid one: no frame is returned. *)
Theorem compress_raises_past_capacity (self : Compressor) (text : str) :
  normalize_NFC text = text ->
  Forall (fun c => isspace c = false) text ->
  NoDup text ->
  Forall (fresh_symbol self) text ->
  2 <= len text ->
  max_dict_size self <= next_code (reset_dictionary self) + 2 * (len text - 1) ->
  exists key,
    LZW77.compress self text = Raise (KeyError_str key)
    /\ Hybrid.compress self text = Raise (CompressionFailed (KeyError_str key)).
Proof.
  intros Hnfc Hspace Hnodup Hfresh Hlen Hbound.
  destruct (base_compress_raises_past_capacity self text Hnfc Hnodup Hfresh Hlen Hbound)
    as [key Hkey].
  exists key. split; [exact Hkey|].
  unfold Hybrid.compress. rewrite (preprocess_text_no_space text Hnfc Hspace).
  by rewrite Hkey.
Qed.

End PastCapacity.

Lemma fresh_symbol_decide (self : Compressor) (c : N) :
  bool_decide (fresh_symbol self c) = true -> fresh_symbol self c.
Proof. apply bool_decide_eq_true_1. Qed.

(** [HybridLZW77Compressor(256, 'utf-8')] on the text [ñö]. *)
Lemma compress_raises_on_two_symbols :
  exists key,
    @LZW77.compress nfc_of_composed_text (HybridLZW77Compressor_init 256 utf_8) [241; 246]%N
      = Raise (KeyError_str key)
    /\ @Hybrid.compress nfc_of_composed_text (HybridLZW77Compressor_init 256 utf_8)
         [241; 246]%N
      = Raise (CompressionFailed (KeyError_str key)).
Proof.
  apply (@compress_raises_past_capacity nfc_of_composed_text
           (HybridLZW77Compressor_init 256 utf_8) [241; 246]%N).
  - reflexivity.
  - repeat constructor.
  - apply (bool_decide_unpack _). vm_compute. exact I.
  - repeat constructor; apply fresh_symbol_decide; vm_compute; reflexivity.
  - vm_compute. discriminate.
  - vm_compute. discriminate.
Defined.

(** The same run, evaluated, and the same text with the hybrid class. *)
Lemma compress_two_symbols_evaluated :
  value (@LZW77.compress nfc_of_composed_text (LZW77Compressor_init 256 utf_8) (py "ñö"))
    = Raise (KeyError_str (py "ñ"))
  /\ value (@Hybrid.compress nfc_of_composed_text (HybridLZW77Compressor_init 256 utf_8)
              (py "ñö"))
    = Raise (CompressionFailed (KeyError_str (py "ñ"))).
Proof. vm_compute. split; reflexivity. Qed.

(** ** The default configuration past its capacity *)

Lemma avoids_keys_fresh (self : Compressor) (c : N) :
  avoids_keys (keys_after_reset self) c = true -> fresh_symbol self c.
Proof.
  intros Havoid s code Hs. unfold avoids_keys in Havoid.
  rewrite forallb_forall in Havoid.
  assert (Hin : s ∈ keys_after_reset self).
  { unfold keys_after_reset. apply list_elem_of_fmap. exists (s, code).
    split; [done|]. by apply elem_of_map_to_list. }
  apply list_elem_of_In, Havoid in Hin.
  apply negb_true_iff, bool_decide_eq_false in Hin. done.
Qed.

Lemma isspace_above_U3000 (c : N) : (0x3000 < c)%N -> isspace c = false.
Proof.
  intros Hc. unfold isspace.
  repeat match goal with
         | |- context [(c <=? ?k)%N] => rewrite (proj2 (N.leb_gt c k)) by lia
         | |- context [(c =? ?k)%N] => rewrite (proj2 (N.eqb_neq c k)) by lia
         | |- context [(?k <=? c)%N] => rewrite (proj2 (N.leb_le k c)) by lia
         end.
  reflexivity.
Qed.

Lemma elem_of_symbols_from (count : nat) : forall (start c : N),
  c ∈ symbols_from start count <-> (start <= c < start + N.of_nat count)%N.
Proof.
  induction count as [|count IH]; intros start c; cbn [symbols_from].
  - rewrite elem_of_nil. lia.
  - rewrite elem_of_cons, IH. lia.
Qed.

Lemma NoDup_symbols_from (count : nat) : forall start : N,
  NoDup (symbols_from start count).
Proof.
  induction count as [|count IH]; intros start; cbn [symbols_from].
  - apply NoDup_nil_2.
  - apply NoDup_cons. split; [|apply IH]. rewrite elem_of_symbols_from. lia.
Qed.

Lemma ideographs_and_syllables_range (self : Compressor) (c : N) :
  c ∈ ideographs_and_syllables self ->
  (0x3400 <= c <= 0xD7A3)%N /\ fresh_symbol self c.
Proof.
  unfold ideographs_and_syllables. cbv zeta.
  rewrite list_elem_of_filter.
  intros [Havoid Hc]. split; [|by apply avoids_keys_fresh].
  rewrite elem_of_app, !elem_of_symbols_from, !N2Nat.id in Hc. lia.
Qed.

Lemma ideographs_and_syllables_NoDup (self : Compressor) :
  NoDup (ideographs_and_syllables self).
Proof.
  unfold ideographs_and_syllables. cbv zeta. apply NoDup_filter.
  apply NoDup_app. split; [apply NoDup_symbols_from|]. split; [|apply NoDup_symbols_from].
  intros x. rewrite !elem_of_symbols_from, !N2Nat.id. lia.
Qed.

Lemma normalize_NFC_composed_text (text : str) :
  @normalize_NFC nfc_of_composed_text text = text.
Proof. reflexivity. Qed.

(** [HybridLZW77Compressor()] raises on this text of 38805 symbols: the
    dictionary is full after 32575 of them. *)
Lemma compress_raises_with_default_arguments :
  len (ideographs_and_syllables (HybridLZW77Compressor_init 65536 utf_8)) = 38805
  /\ exists key,
      @Hybrid.compress nfc_of_composed_text (HybridLZW77Compressor_init 65536 utf_8)
        (ideographs_and_syllables (HybridLZW77Compressor_init 65536 utf_8))
      = Raise (CompressionFailed (KeyError_str key)).
Proof.
  assert (Hlen : len (ideographs_and_syllables (HybridLZW77Compressor_init 65536 utf_8))
                 = 38805) by (vm_cast_no_check (eq_refl 38805)).
  split; [exact Hlen|].
  assert (Hspace : Forall (fun c => isspace c = false)
                     (ideographs_and_syllables (HybridLZW77Compressor_init 65536 utf_8))).
  { apply Forall_forall. intros c [Hc _]%ideographs_and_syllables_range.
    apply isspace_above_U3000. lia. }
  destruct (@base_compress_raises_past_capacity nfc_of_composed_text
              (HybridLZW77Compressor_init 65536 utf_8)
              (ideographs_and_syllables (HybridLZW77Compressor_init 65536 utf_8)))
    as (key & Hkey).
  - apply normalize_NFC_composed_text.
  - apply ideographs_and_syllables_NoDup.
  - apply Forall_forall. intros c [_ Hc]%ideographs_and_syllables_range. exact Hc.
  - rewrite Hlen. lia.
  - rewrite Hlen.
    replace (max_dict_size (HybridLZW77Compressor_init 65536 utf_8)) with 65536
      by (vm_compute; reflexivity).
    replace (next_code (reset_dictionary (HybridLZW77Compressor_init 65536 utf_8))) with 387
      by (vm_compute; reflexivity).
    lia.
  - exists key. unfold Hybrid.compress.
    rewrite (@preprocess_text_no_space nfc_of_composed_text _
               (normalize_NFC_composed_text _) Hspace).
    by rewrite Hkey.
Qed.

(** * Further properties of the engine *)

(** ** The shape of a preprocessed text *)

Lemma sub_runs_well_spaced (text : str) : forall after_space : bool,
  well_spaced after_space (sub_runs isspace [SPACE] after_space text) = true.
Proof.
  induction text as [|c text IH]; intros after_space; [done|].
  cbn [sub_runs]. destruct (isspace c) eqn:Hc.
  - destruct after_space; [apply IH|].
    cbn. by rewrite IH.
  - cbn [well_spaced]. by rewrite Hc.
Qed.

Lemma well_spaced_weaken (text : str) :
  well_spaced true text = true -> well_spaced false text = true.
Proof. destruct text as [|c text]; [done|]. cbn. by destruct (isspace c). Qed.

Lemma well_spaced_lstrip (text : str) : forall after_space : bool,
  well_spaced after_space text = true -> well_spaced true (lstrip text) = true.
Proof.
  induction text as [|c text IH]; intros after_space; [done|].
  cbn [well_spaced lstrip]. destruct (isspace c) eqn:Hc.
  - intros (_ & H)%andb_true_iff. by eapply IH.
  - intros H. cbn [well_spaced]. by rewrite Hc.
Qed.

Lemma well_spaced_take (text : str) : forall (after_space : bool) (k : nat),
  well_spaced after_space text = true -> well_spaced after_space (take k text) = true.
Proof.
  induction text as [|c text IH]; intros after_space k; [by destruct k|].
  destruct k as [|k]; [done|]. cbn [take well_spaced].
  destruct (isspace c).
  - intros ([-> ->]%andb_true_iff & H)%andb_true_iff. by rewrite (IH true k H).
  - apply IH.
Qed.

Lemma lstrip_drop (text : str) : exists k, lstrip text = drop k text.
Proof.
  induction text as [|c text [k IH]]; [by exists 0%nat|].
  cbn [lstrip]. destruct (isspace c); [by exists (S k) | by exists 0%nat].
Qed.

Lemma rstrip_take (text : str) : exists k, rstrip text = take k text.
Proof.
  unfold rstrip. destruct (lstrip_drop (reverse text)) as [k ->].
  rewrite reverse_drop, reverse_involutive. by eexists.
Qed.

Lemma head_lstrip (text : str) (c : N) :
  head (lstrip text) = Some c -> isspace c = false.
Proof.
  induction text as [|c0 text IH]; [done|]. cbn [lstrip].
  destruct (isspace c0) eqn:Hc0; [done|]. by intros [= <-].
Qed.

Lemma last_rstrip (text : str) (c : N) :
  last (rstrip text) = Some c -> isspace c = false.
Proof. unfold rstrip. rewrite last_reverse. apply head_lstrip. Qed.

Lemma lstrip_head (text : str) :
  (forall c, head text = Some c -> isspace c = false) -> lstrip text = text.
Proof. destruct text as [|c text]; [done|]. intros H. cbn. by rewrite (H c). Qed.

Lemma well_spaced_head (text : str) (c : N) :
  well_spaced true text = true -> head text = Some c -> isspace c = false.
Proof.
  destruct text as [|c0 text]; [done|]. cbn. intros H [= <-].
  by destruct (isspace c0).
Qed.

Lemma sub_runs_well_spaced_id (text : str) : forall after_space : bool,
  well_spaced after_space text = true ->
  sub_runs isspace [SPACE] after_space text = text.
Proof.
  induction text as [|c text IH]; intros after_space; [done|].
  cbn [well_spaced sub_runs]. destruct (isspace c).
  - intros ([Hfirst ->%N.eqb_eq]%andb_true_iff & H)%andb_true_iff.
    destruct after_space; [done|]. cbn. by rewrite (IH true H).
  - intros H. by rewrite (IH false H).
Qed.

Section Preprocessing.
Context `{unicodedata}.

Lemma preprocess_text_spaced (text : str) :
  well_spaced true (Hybrid.preprocess_text text) = true.
Proof.
  unfold Hybrid.preprocess_text. rewrite newline_substitution_is_identity.
  unfold strip. destruct (rstrip_take (lstrip (re_sub_plus isspace [SPACE]
                                                (normalize_NFC text)))) as [k ->].
  apply well_spaced_take, (well_spaced_lstrip _ false), sub_runs_well_spaced.
Qed.

Lemma preprocess_text_last (text : str) (c : N) :
  last (Hybrid.preprocess_text text) = Some c -> isspace c = false.
Proof.
  unfold Hybrid.preprocess_text. rewrite newline_substitution_is_identity.
  unfold strip. apply last_rstrip.
Qed.

(** X1.  Whatever the input, the preprocessed text has no white space but
    single U+0020 symbols between other symbols: none at the start, none
    at the end, no two in a row. *)
Theorem preprocess_text_well_spaced (text : str) :
  well_spaced true (Hybrid.preprocess_text text) = true
  /\ (forall c, last (Hybrid.preprocess_text text) = Some c -> isspace c = false)
  /\ (forall c, c ∈ Hybrid.preprocess_text text -> isspace c = true -> c = SPACE).
Proof.
  split; [apply preprocess_text_spaced|]. split; [apply preprocess_text_last|].
  unfold Hybrid.preprocess_text. rewrite newline_substitution_is_identity.
  intros c Hin%strip_symbols Hspace.
  apply sub_runs_isspace_symbols in Hin as [->|Hin]; [done | congruence].
Qed.

(** X2.  Preprocessing a preprocessed text changes nothing, as far as the
    normaliser leaves that text alone. *)
Theorem preprocess_text_idempotent (text : str) :
  normalize_NFC (Hybrid.preprocess_text text) = Hybrid.preprocess_text text ->
  Hybrid.preprocess_text (Hybrid.preprocess_text text) = Hybrid.preprocess_text text.
Proof.
  intros Hnfc.
  pose proof (preprocess_text_spaced text) as Hspaced.
  pose proof (preprocess_text_last text) as Hlast.
  set (r := Hybrid.preprocess_text text) in *.
  unfold Hybrid.preprocess_text at 1. rewrite Hnfc.
  rewrite newline_substitution_is_identity. unfold re_sub_plus.
  rewrite sub_runs_well_spaced_id by (by apply well_spaced_weaken).
  unfold strip. rewrite (lstrip_head r) by (intros c; by apply well_spaced_head).
  unfold rstrip. rewrite lstrip_head; [apply reverse_involutive|].
  intros c. rewrite head_reverse. apply Hlast.
Qed.

Lemma sub_runs_blank (text : str) : forall in_run : bool,
  Forall (fun c => isspace c = true) text ->
  sub_runs isspace [SPACE] in_run text
  = if in_run then [] else match text with [] => [] | _ :: _ => [SPACE] end.
Proof.
  induction text as [|c text IH]; intros in_run Hall; [by destruct in_run|].
  apply Forall_cons in Hall as [Hc Hall]. cbn [sub_runs]. rewrite Hc, (IH true Hall).
  destruct in_run; by rewrite app_nil_r.
Qed.

(** X3.  A text that is empty or all white space (once normalised) compresses
    to the empty byte string, with [self] untouched, and the empty byte
    string decompresses to the empty text. *)
Theorem compress_blank_text (self : Compressor) (text : str) :
  Forall (fun c => isspace c = true) (normalize_NFC text) ->
  Hybrid.preprocess_text text = []
  /\ Hybrid.compress self text = Ok (self, [])
  /\ Hybrid.decompress self [] = Ok (self, []).
Proof.
  intros Hblank.
  assert (Hpre : Hybrid.preprocess_text text = []).
  { unfold Hybrid.preprocess_text. rewrite newline_substitution_is_identity.
    unfold re_sub_plus. rewrite (sub_runs_blank _ false Hblank).
    by destruct (normalize_NFC text). }
  split; [exact Hpre|]. split; [|done].
  unfold Hybrid.compress. by rewrite Hpre.
Qed.

End Preprocessing.

Lemma preprocess_text_idempotent_spaces :
  @Hybrid.preprocess_text nfc_of_composed_text
    (@Hybrid.preprocess_text nfc_of_composed_text [32; 97; 9; 10; 10; 98; 32; 32; 99; 13]%N)
  = @Hybrid.preprocess_text nfc_of_composed_text [32; 97; 9; 10; 10; 98; 32; 32; 99; 13]%N.
Proof.
  apply (@preprocess_text_idempotent nfc_of_composed_text). reflexivity.
Defined.

Lemma compress_blank_text_spaces :
  @Hybrid.preprocess_text nfc_of_composed_text [32; 10; 9; 32]%N = []
  /\ @Hybrid.compress nfc_of_composed_text (HybridLZW77Compressor_init 65536 utf_8)
       [32; 10; 9; 32]%N
     = Ok (HybridLZW77Compressor_init 65536 utf_8, [])
  /\ Hybrid.decompress (HybridLZW77Compressor_init 65536 utf_8) []
     = Ok (HybridLZW77Compressor_init 65536 utf_8, []).
Proof.
  apply (@compress_blank_text nfc_of_composed_text). repeat constructor.
Defined.

(** ** No state is kept from one call to the next *)

Section Stateless.
Context `{unicodedata}.

(** X4.  What [compress] and [decompress] return depends on the configuration
    of the compressor only ([max_dict_size], [encoding], the seeds), not on
    what its dictionaries held before the call: both start with a
    reset. *)
Theorem calls_depend_on_configuration (self self' : Compressor) (text : str)
    (compressed_data : bytes) :
  same_configuration self self' ->
  value (LZW77.compress self text) = value (LZW77.compress self' text)
  /\ value (Hybrid.compress self text) = value (Hybrid.compress self' text)
  /\ value (LZW77.decompress self compressed_data)
     = value (LZW77.decompress self' compressed_data)
  /\ value (Hybrid.decompress self compressed_data)
     = value (Hybrid.decompress self' compressed_data).
Proof.
  intros (Hmax & Henc & Hmd).
  pose proof (reset_dictionary_ext self self' Hmax Henc Hmd) as Hreset.
  assert (Hc : forall t, value (LZW77.compress self t) = value (LZW77.compress self' t)).
  { intros t. unfold LZW77.compress, LZW77.compress_codes. rewrite Hreset.
    by destruct t. }
  assert (Hd : value (LZW77.decompress self compressed_data)
               = value (LZW77.decompress self' compressed_data)).
  { unfold LZW77.decompress. rewrite Hreset. by destruct compressed_data. }
  split; [apply Hc|]. split; [|split; [exact Hd|]].
  - unfold Hybrid.compress. specialize (Hc (Hybrid.preprocess_text text)).
    destruct (LZW77.compress self _) as [[? ?]|], (LZW77.compress self' _) as [[? ?]|];
      cbn in *; congruence.
  - unfold Hybrid.decompress.
    destruct (LZW77.decompress self _) as [[? ?]|], (LZW77.decompress self' _) as [[? ?]|];
      cbn in *; congruence.
Qed.

End Stateless.

(** A compressor that has learned an entry answers like a new one. *)
Lemma calls_depend_on_configuration_used :
  value (@LZW77.compress nfc_of_composed_text
           (add_entry (py "ab") (HybridLZW77Compressor_init 65536 utf_8)) (py "abab"))
  = value (@LZW77.compress nfc_of_composed_text
             (HybridLZW77Compressor_init 65536 utf_8) (py "abab"))
  /\ value (@Hybrid.compress nfc_of_composed_text
             (add_entry (py "ab") (HybridLZW77Compressor_init 65536 utf_8)) (py "abab"))
     = value (@Hybrid.compress nfc_of_composed_text
                (HybridLZW77Compressor_init 65536 utf_8) (py "abab"))
  /\ value (LZW77.decompress
              (add_entry (py "ab") (HybridLZW77Compressor_init 65536 utf_8))
              [x00; x00; x00; x01; x00; x00; x00; x00; x00; x61])
     = value (LZW77.decompress (HybridLZW77Compressor_init 65536 utf_8)
                [x00; x00; x00; x01; x00; x00; x00; x00; x00; x61])
  /\ value (Hybrid.decompress
              (add_entry (py "ab") (HybridLZW77Compressor_init 65536 utf_8))
              [x00; x00; x00; x01; x00; x00; x00; x00; x00; x61])
     = value (Hybrid.decompress (HybridLZW77Compressor_init 65536 utf_8)
                [x00; x00; x00; x01; x00; x00; x00; x00; x00; x61]).
Proof.
  apply (@calls_depend_on_configuration nfc_of_composed_text).
  split; [|split]; vm_compute; reflexivity.
Defined.

(** ** What the frame reader does not look at *)

Lemma unpack_pairs_app (payload extra : bytes) (n : nat) :
  length payload = (2 * n)%nat ->
  unpack_pairs (payload ++ extra) = unpack_pairs payload ++ unpack_pairs extra.
Proof.
  revert payload. induction n as [|n IH]; intros payload Hlen.
  - by destruct payload.
  - destruct payload as [|hi [|lo payload]]; cbn in Hlen; try lia.
    cbn [app unpack_pairs]. rewrite IH by lia. done.
Qed.

(** X5.  The reader takes the code count from the first four bytes and the
    codes from the payload: the second header field does not matter, and
    neither do bytes that follow the declared codes. *)
Theorem decode_codes_ignores (count used used' payload extra : bytes) :
  length count = 4%nat -> length used = 4%nat -> length used' = 4%nat ->
  len payload = 2 * unpack_be count ->
  LZW77._decode_codes ((count ++ used) ++ payload) = unpack_pairs payload
  /\ LZW77._decode_codes ((count ++ used') ++ payload ++ extra) = unpack_pairs payload.
Proof.
  intros Hclen Hulen Hulen' Hplen.
  assert (Hread : forall u rest,
             length u = 4%nat ->
             LZW77._decode_codes ((count ++ u) ++ payload ++ rest) = unpack_pairs payload).
  { intros u rest Hu. rewrite decode_codes_spec.
    destruct (frame_parts count u (payload ++ rest) Hclen Hu) as (-> & _ & ->).
    replace (len ((count ++ u) ++ payload ++ rest) <? 8) with false.
    2:{ symmetry. apply Z.ltb_ge. unfold len. rewrite !length_app. lia. }
    pose proof (unpack_be_nonneg count).
    rewrite (unpack_pairs_app payload rest (Z.to_nat (unpack_be count)))
      by (unfold len in Hplen; lia).
    rewrite take_app_length'; [done|].
    rewrite unpack_pairs_length. unfold len in Hplen.
    replace (length payload) with (Z.to_nat (unpack_be count) * 2)%nat by lia.
    by rewrite Nat.div_mul. }
  split.
  - specialize (Hread used [] Hulen). by rewrite app_nil_r in Hread.
  - by apply Hread.
Qed.

Lemma decode_codes_ignores_trailer :
  LZW77._decode_codes (([x00; x00; x00; x02] ++ [x00; x00; x00; x85])
                         ++ [x00; x61; x00; x62])
    = unpack_pairs [x00; x61; x00; x62]
  /\ LZW77._decode_codes (([x00; x00; x00; x02] ++ [xff; xff; xff; xff])
                            ++ [x00; x61; x00; x62] ++ [x01; x02; x03])
    = unpack_pairs [x00; x61; x00; x62].
Proof.
  apply (decode_codes_ignores [x00; x00; x00; x02] [x00; x00; x00; x85]
           [xff; xff; xff; xff] [x00; x61; x00; x62] [x01; x02; x03]);
    reflexivity.
Defined.

(** ** A first code that is not in the dictionary *)

(** X6.  The first code of a frame is looked up without the check that later
    codes get: if it is [next_code] or more after the reset, [decompress]
    raises [KeyError], not the invalid-code error. *)
Theorem decompress_first_code_unknown (self : Compressor) (data : bytes)
    (code : Z) (rest : list Z) :
  data <> [] ->
  LZW77._decode_codes data = code :: rest ->
  next_code (reset_dictionary self) <= code ->
  LZW77.decompress self data = Raise (KeyError_int code)
  /\ Hybrid.decompress self data = Raise (DecompressionFailed (KeyError_int code)).
Proof.
  intros Hdata Hcodes Hcode.
  assert (Hbase : LZW77.decompress self data = Raise (KeyError_int code)).
  { unfold LZW77.decompress. destruct data as [|b data]; [done|]. rewrite Hcodes.
    unfold reverse_dictionary_getitem.
    destruct (reverse_dictionary (reset_dictionary self) !! code) as [s|] eqn:Hs; [|done].
    destruct (reset_dictionary_synchronized self) as (_ & Hrange & _).
    apply Hrange in Hs. lia. }
  split; [exact Hbase|]. unfold Hybrid.decompress. by rewrite Hbase.
Qed.

Lemma decompress_first_code_unknown_1000 :
  LZW77.decompress (HybridLZW77Compressor_init 65536 utf_8)
    [x00; x00; x00; x02; x00; x00; x00; x00; x03; xe8; x00; x61]
  = Raise (KeyError_int 1000)
  /\ Hybrid.decompress (HybridLZW77Compressor_init 65536 utf_8)
       [x00; x00; x00; x02; x00; x00; x00; x00; x03; xe8; x00; x61]
     = Raise (DecompressionFailed (KeyError_int 1000)).
Proof.
  apply (decompress_first_code_unknown (HybridLZW77Compressor_init 65536 utf_8)
           [x00; x00; x00; x02; x00; x00; x00; x00; x03; xe8; x00; x61] 1000 [97]).
  - discriminate.
  - vm_compute. reflexivity.
  - vm_compute. discriminate.
Defined.

(** ** Round trip of a text that teaches the dictionary no symbol *)

Lemma len_snoc {A} (l : list A) (x : A) : len (l ++ [x]) = len l + 1.
Proof. rewrite len_app. unfold len. cbn. lia. Qed.

Lemma decoder_reaches_snoc (start : Compressor) (codes : list Z)
    (st st' : Compressor * list str * Z) (code : Z) :
  decoder_reaches start codes st ->
  LZW77.decompress_code st code = Ok st' ->
  decoder_reaches start (codes ++ [code]) st'.
Proof.
  destruct codes as [|old_code rest]; [done|].
  intros (first & Hfirst & Hloop) Hstep. exists first. split; [done|].
  rewrite decompress_loop_app, Hloop. cbn. by rewrite Hstep.
Qed.

(** One iteration of the [decompress] loop on the code of [cur], when the
    decoder is one entry behind the encoder. *)
Lemma decompress_code_in_step (decoder : Compressor) (chunks : list str)
    (old_code code : Z) (previous cur : str) :
  reverse_dictionary decoder !! old_code = Some previous ->
  previous <> [] -> cur <> [] ->
  reverse_dictionary decoder !! next_code decoder = None ->
  <[next_code decoder := previous ++ take 1 cur]> (reverse_dictionary decoder) !! code
    = Some cur ->
  next_code decoder < max_dict_size decoder ->
  LZW77.decompress_code (decoder, chunks, old_code) code
  = Ok (add_entry (previous ++ take 1 cur) decoder, chunks ++ [cur], code).
Proof.
  intros Hprev Hpne Hcne Hfree Hcode Hroom.
  destruct previous as [|p ptail]; [done|]. destruct cur as [|c ctail]; [done|].
  assert (Hres : LZW77.resolve_code decoder old_code code = Ok (c :: ctail)).
  { destruct (decide (code = next_code decoder)) as [->|Hne].
    - rewrite lookup_insert_eq in Hcode. injection Hcode as Hp Htail. subst p.
      rewrite (resolve_code_pending decoder old_code (next_code decoder) c ptail)
        by done.
      cbn. f_equal. f_equal. exact Htail.
    - rewrite lookup_insert_ne in Hcode by done. by apply resolve_code_known. }
  unfold LZW77.decompress_code. rewrite Hres. cbn.
  apply Z.ltb_lt in Hroom. rewrite Hroom.
  unfold reverse_dictionary_getitem. rewrite Hprev. done.
Qed.

(** The decoder reads the code that the encoder emits for its running
    match, and then knows every entry that the encoder knew when it
    emitted it. *)
Lemma decoder_follows_emitted (start self : Compressor) (consumed cur : str)
    (result : list Z) (code : Z) :
  decoder_follows start consumed (self, result, cur) ->
  cur <> [] ->
  dictionary self !! cur = Some code ->
  next_code self <= max_dict_size start ->
  exists decoder chunks,
    decoder_reaches start (result ++ [code]) (decoder, chunks, code)
    /\ concat chunks = consumed
    /\ reverse_dictionary decoder !! code = Some cur
    /\ max_dict_size decoder = max_dict_size start
    /\ next_code decoder = next_code self
    /\ reverse_dictionary decoder = reverse_dictionary self.
Proof.
  intros (Hsync & Hconf & Hkeys & Hcur & Hnext & Hlen & Hcodes & Hdec) Hne Hcode Hroom.
  assert (Hrev : reverse_dictionary self !! code = Some cur) by by apply Hsync.
  destruct Hdec as [(-> & -> & ->)|Hdec].
  - exists start, [consumed]. cbn. rewrite app_nil_r.
    repeat split; try done; by exists consumed.
  - destruct Hdec as (decoder & chunks & old_code & previous & Hreach & Hcat & Hprev
                      & Hpne & _ & Hmax & Hnx & Hfree & Hahead).
    exists (add_entry (previous ++ take 1 cur) decoder), (chunks ++ [cur]).
    split.
    { eapply decoder_reaches_snoc; [exact Hreach|].
      apply (decompress_code_in_step decoder chunks old_code code previous cur);
        try done; [by rewrite <- Hahead | lia]. }
    split; [by rewrite concat_app; cbn; rewrite app_nil_r|].
    cbn. rewrite <- Hahead. repeat split; try done; lia.
Qed.

Section RoundTrip.
Context `{unicodedata}.

Lemma compress_char_decoder_follows (start : Compressor) (consumed : str)
    (st : Compressor * list Z * str) (c : N) :
  decoder_follows start consumed st ->
  is_Some (dictionary start !! [c]) ->
  next_code start + len consumed < max_dict_size start ->
  exists st',
    LZW77.compress_char st c = Ok st' /\ decoder_follows start (consumed ++ [c]) st'.
Proof.
  destruct st as [[self result] cur]. intros Hinv Hc Hroom.
  pose proof Hinv as (Hsync & Hconf & Hkeys & Hcur & Hnext & Hlen & Hcodes & Hdec).
  pose proof (len_snoc consumed c) as Hlen1.
  unfold LZW77.compress_char.
  destruct (Hkeys [c] Hc) as [v Hv]. rewrite (contains_true _ _ _ Hv). cbn [negb].
  destruct (dictionary self !! (cur ++ [c])) as [w|] eqn:Hnew.
  - rewrite (contains_true _ _ _ Hnew). eexists. split; [reflexivity|].
    split; [done|]. split; [done|]. split; [done|]. split; [by right; eexists|].
    split; [done|]. split; [lia|]. split; [done|].
    destruct Hdec as [(-> & -> & ->)|Hdec]; [by left|]. right.
    destruct Hdec as (decoder & chunks & old_code & previous & Hreach & Hcat & Hprev
                      & Hpne & Hcne & Hmax & Hnx & Hfree & Hahead).
    exists decoder, chunks, old_code, previous.
    repeat split; try done.
    + by rewrite app_assoc, Hcat.
    + by destruct cur.
    + rewrite Hahead. by destruct cur.
  - rewrite (contains_false _ _ Hnew).
    assert (Hne : cur <> []) by (intros ->; cbn in Hnew; congruence).
    destruct Hcur as [->|[code Hcode]]; [done|].
    unfold dictionary_getitem. rewrite Hcode. cbn.
    destruct Hconf as (Hmax & Henc & Hmd).
    assert (Hlt : (next_code self <? max_dict_size self) = true) by (apply Z.ltb_lt; lia).
    rewrite Hlt. eexists. split; [reflexivity|].
    destruct (decoder_follows_emitted start self consumed cur result code)
      as (decoder & chunks & Hreach & Hcat & Hprev & Hdmax & Hdnext & Hdrev);
      [done | done | done | lia |].
    assert (Hrange : 0 <= code < next_code self).
    { destruct Hsync as (Hfwd & Hin & _). eapply Hin, Hfwd, Hcode. }
    assert (Hkeys' : forall s, is_Some (dictionary start !! s) ->
                               is_Some (dictionary (add_entry (cur ++ [c]) self) !! s)).
    { intros s Hs. cbn. rewrite lookup_insert. case_decide; [by eexists|by apply Hkeys]. }
    split; [by apply add_entry_synchronized|]. split; [done|]. split; [exact Hkeys'|].
    split; [right; by apply Hkeys'|].
    pose proof (len_snoc result code) as Hlen2.
    split; [cbn; lia|]. split; [lia|].
    split.
    { apply Forall_app. split.
      - eapply Forall_impl; [exact Hcodes|]. cbn. intros; lia.
      - apply Forall_singleton. cbn. lia. }
    right. exists decoder, chunks, code, cur.
    repeat split; try done.
    + by rewrite Hcat.
    + cbn. lia.
    + rewrite Hdrev, Hdnext. destruct Hsync as (_ & Hin & _).
      destruct (reverse_dictionary self !! next_code self) as [s|] eqn:Hs; [|done].
      apply Hin in Hs. lia.
    + cbn. by rewrite Hdrev, Hdnext.
Qed.

Lemma compress_loop_decoder_follows (start : Compressor) (text : str) :
  forall (consumed : str) (st : Compressor * list Z * str),
  decoder_follows start consumed st ->
  Forall (fun c => is_Some (dictionary start !! [c])) text ->
  next_code start + len (consumed ++ text) <= max_dict_size start ->
  exists st',
    LZW77.compress_loop st text = Ok st' /\ decoder_follows start (consumed ++ text) st'.
Proof.
  induction text as [|c text IH]; intros consumed st Hinv Hkeys Hroom.
  - exists st. rewrite app_nil_r. done.
  - apply Forall_cons in Hkeys as [Hc Hkeys].
    assert (Hlen : len (consumed ++ c :: text) = len consumed + 1 + len text)
      by (rewrite len_app; unfold len; cbn; lia).
    pose proof (len_nonneg text).
    destruct (compress_char_decoder_follows start consumed st c) as (st1 & Hstep & Hinv1);
      [done | done | lia |].
    destruct (IH (consumed ++ [c]) st1) as (st' & Hloop & Hinv');
      [done | done | by rewrite <- app_assoc |].
    exists st'. cbn. rewrite Hstep. cbn. rewrite <- app_assoc in Hinv'. done.
Qed.

End RoundTrip.

Lemma emit_last_decoder_follows (start : Compressor) (text : str)
    (st : Compressor * list Z * str) :
  decoder_follows start text st ->
  next_code start + len text <= max_dict_size start ->
  exists self codes,
    LZW77.emit_last st = Ok (self, codes)
    /\ same_configuration self start
    /\ 256 <= next_code self <= max_dict_size start
    /\ Forall (fun code => 0 <= code < next_code self) codes
    /\ len codes <= len text + 1
    /\ ((codes = [] /\ text = [])
        \/ exists decoder chunks old_code,
             decoder_reaches start codes (decoder, chunks, old_code)
             /\ concat chunks = text).
Proof.
  destruct st as [[self result] cur]. intros Hinv Hroom.
  pose proof Hinv as (Hsync & Hconf & Hkeys & Hcur & Hnext & Hlen & Hcodes & Hdec).
  assert (Hbound : 256 <= next_code self <= max_dict_size start)
    by (split; [apply Hsync | lia]).
  exists self. unfold LZW77.emit_last. destruct cur as [|c cur].
  - exists result. destruct Hdec as [(-> & -> & <-)|Hdec].
    + repeat split; try done; try lia. by left.
    + by destruct Hdec as (? & ? & ? & ? & _ & _ & _ & _ & ? & _).
  - destruct Hcur as [|[code Hcode]]; [done|].
    unfold dictionary_getitem. rewrite Hcode. cbn. exists (result ++ [code]).
    destruct (decoder_follows_emitted start self text (c :: cur) result code)
      as (decoder & chunks & Hreach & Hcat & _); [done | done | done | lia |].
    pose proof (len_snoc result code).
    split; [done|]. split; [done|]. split; [done|]. split.
    { apply Forall_app. split; [done|]. apply Forall_singleton.
      destruct Hsync as (Hfwd & Hin & _). eapply Hin, Hfwd, Hcode. }
    split; [lia|]. right. by exists decoder, chunks, code.
Qed.

(** Framing the codes and reading the frame back gives the decoder the
    codes that were framed. *)
Lemma decompress_framed_codes (self other start : Compressor) (codes : list Z)
    (text : str) :
  reset_dictionary other = start ->
  256 <= next_code self <= 65536 ->
  Forall (fun code => 0 <= code < next_code self) codes ->
  len codes <= 65537 ->
  (codes = [] /\ text = [])
  \/ (exists decoder chunks old_code,
        decoder_reaches start codes (decoder, chunks, old_code)
        /\ concat chunks = text) ->
  exists frame,
    LZW77._encode_codes self codes = Ok frame
    /\ len frame = 8 + 2 * len codes
    /\ value (LZW77.decompress other frame) = Ok text.
Proof.
  intros Hreset Hnext Hcodes Hlen Hdec.
  destruct (decode_encoded_codes self codes) as (frame & Hframe & Hflen & Hdecode).
  { eapply Forall_impl; [exact Hcodes|]. cbn. intros; lia. }
  { lia. }
  { lia. }
  exists frame. split; [done|]. split; [done|].
  pose proof (len_nonneg codes).
  unfold LZW77.decompress. destruct frame as [|b frame]; [unfold len in *; cbn in *; lia|].
  rewrite Hdecode, Hreset.
  destruct Hdec as [(-> & ->)|(decoder & chunks & old_code & Hreach & Hcat)]; [done|].
  destruct codes as [|first_code rest]; [done|].
  destruct Hreach as (first & Hfirst & Hrun).
  unfold reverse_dictionary_getitem. rewrite Hfirst. cbn. rewrite Hrun. cbn.
  by rewrite Hcat.
Qed.

Lemma contains_is_Some `{Countable K} {V} (d : gmap K V) (key : K) :
  contains d key = true -> is_Some (d !! key).
Proof. unfold contains. by destruct (d !! key); [eexists|]. Qed.

Section RoundTripTheorems.
Context `{unicodedata}.

(** The codes of a text whose symbols are all keys after the reset, when
    the dictionary has room for one entry per symbol: the encoder emits
    them without raising, and the decoder spells the text from them. *)
Lemma compress_codes_decoder_follows (self : Compressor) (text : str) :
  Forall (fun c => contains (dictionary (reset_dictionary self)) [c] = true)
         (normalize_NFC text) ->
  next_code (reset_dictionary self) + len (normalize_NFC text) <= max_dict_size self ->
  exists self' codes,
    LZW77.compress_codes self text = Ok (self', codes)
    /\ same_configuration self self'
    /\ 256 <= next_code self' <= max_dict_size self
    /\ Forall (fun code => 0 <= code < next_code self') codes
    /\ len codes <= len (normalize_NFC text) + 1
    /\ ((codes = [] /\ normalize_NFC text = [])
        \/ exists decoder chunks old_code,
             decoder_reaches (reset_dictionary self) codes (decoder, chunks, old_code)
             /\ concat chunks = normalize_NFC text).
Proof.
  intros Hkeys Hroom.
  pose proof (reset_dictionary_synchronized self) as Hsync.
  pose proof (reset_dictionary_config self) as (Hmax & Henc & Hmd).
  remember (reset_dictionary self) as start eqn:Hstart.
  assert (Hinit : decoder_follows start [] (start, [], [])).
  { split; [done|]. split; [done|]. split; [done|]. split; [by left|].
    split; [unfold len; cbn; lia|]. split; [done|]. split; [done|]. by left. }
  destruct (compress_loop_decoder_follows start (normalize_NFC text) [] (start, [], []))
    as (st & Hloop & Hinv); [done | | cbn; lia |].
  { eapply Forall_impl; [exact Hkeys|]. intros c. apply contains_is_Some. }
  cbn [app] in Hinv.
  destruct (emit_last_decoder_follows start (normalize_NFC text) st Hinv)
    as (self' & codes & Hemit & (Hmax' & Henc' & Hmd') & Hnext & Hcodes & Hlen & Hdec);
    [lia|].
  exists self', codes. unfold LZW77.compress_codes. rewrite <- Hstart, Hloop. cbn.
  split; [done|]. split; [repeat split; congruence|]. split; [lia|]. done.
Qed.

(** X7.  A text whose symbols are all in the dictionary after the reset, and
    short enough for the dictionary never to fill up, comes back from
    [decompress] as its NFC form, whichever compressor of the same
    configuration reads the frame. *)
Theorem round_trip_known_symbols (self other : Compressor) (text : str) :
  text <> [] ->
  same_configuration self other ->
  Forall (fun c => contains (dictionary (reset_dictionary self)) [c] = true)
         (normalize_NFC text) ->
  next_code (reset_dictionary self) + len (normalize_NFC text) <= max_dict_size self ->
  max_dict_size self <= 65536 ->
  exists self' frame,
    LZW77.compress self text = Ok (self', frame)
    /\ same_configuration self self'
    /\ value (LZW77.decompress other frame) = Ok (normalize_NFC text).
Proof.
  intros Htext (Hmax & Henc & Hmd) Hkeys Hroom Hsize.
  destruct (compress_codes_decoder_follows self text Hkeys Hroom)
    as (self' & codes & Hcodes & Hconf & Hnext & Hrange & Hlen & Hdec).
  pose proof (len_nonneg (normalize_NFC text)).
  pose proof (proj2 (proj2 (reset_dictionary_synchronized self))) as Hbase.
  destruct (decompress_framed_codes self' other (reset_dictionary self) codes
              (normalize_NFC text))
    as (frame & Hframe & _ & Hback);
    [symmetry; by apply reset_dictionary_ext | lia | done | lia | done |].
  exists self', frame. split; [|done].
  unfold LZW77.compress. destruct text; [done|]. rewrite Hcodes. cbn. by rewrite Hframe.
Qed.

(** X8.  The hybrid compressor compresses the preprocessed text: when
    the symbols of that text are all keys after the reset and the
    dictionary never fills up, the hybrid [decompress] gives back the NFC
    form of the preprocessed text, whichever compressor of the same
    configuration reads the frame. *)
Theorem hybrid_round_trip_known_symbols (self other : Compressor) (text : str) :
  Hybrid.preprocess_text text <> [] ->
  same_configuration self other ->
  Forall (fun c => contains (dictionary (reset_dictionary self)) [c] = true)
         (normalize_NFC (Hybrid.preprocess_text text)) ->
  next_code (reset_dictionary self) + len (normalize_NFC (Hybrid.preprocess_text text))
    <= max_dict_size self ->
  max_dict_size self <= 65536 ->
  exists self' frame,
    Hybrid.compress self text = Ok (self', frame)
    /\ same_configuration self self'
    /\ value (Hybrid.decompress other frame)
       = Ok (normalize_NFC (Hybrid.preprocess_text text)).
Proof.
  intros Htext (Hmax & Henc & Hmd) Hkeys Hroom Hsize.
  destruct (compress_codes_decoder_follows self (Hybrid.preprocess_text text) Hkeys Hroom)
    as (self' & codes & Hcodes & Hconf & Hnext & Hrange & Hlen & Hdec).
  pose proof (len_nonneg (normalize_NFC (Hybrid.preprocess_text text))).
  pose proof (proj2 (proj2 (reset_dictionary_synchronized self))) as Hbase.
  destruct (decompress_framed_codes self' other (reset_dictionary self) codes
              (normalize_NFC (Hybrid.preprocess_text text)))
    as (frame & Hframe & _ & Hback);
    [symmetry; by apply reset_dictionary_ext | lia | done | lia | done |].
  exists self', frame. split; [|split; [done|]].
  - unfold Hybrid.compress, LZW77.compress.
    destruct (Hybrid.preprocess_text text); [done|]. rewrite Hcodes. cbn.
    by rewrite Hframe.
  - unfold Hybrid.decompress.
    by destruct (LZW77.decompress other frame) as [[? ?]|].
Qed.

End RoundTripTheorems.

Lemma Forall_keys_forallb (d : gmap str Z) (text : str) :
  forallb (fun c => contains d [c]) text = true ->
  Forall (fun c => contains d [c] = true) text.
Proof.
  induction text as [|c text IH]; cbn; [done|].
  intros [Hc Htext]%andb_prop. by constructor; [|apply IH].
Qed.

Lemma round_trip_known_symbols_abab :
  exists self' frame,
    @LZW77.compress nfc_of_composed_text (LZW77Compressor_init 65536 utf_8)
      (py "abababab") = Ok (self', frame)
    /\ same_configuration (LZW77Compressor_init 65536 utf_8) self'
    /\ value (LZW77.decompress
                (add_entry (py "ab") (LZW77Compressor_init 65536 utf_8)) frame)
       = Ok (@normalize_NFC nfc_of_composed_text (py "abababab")).
Proof.
  apply (@round_trip_known_symbols nfc_of_composed_text
           (LZW77Compressor_init 65536 utf_8)
           (add_entry (py "ab") (LZW77Compressor_init 65536 utf_8)) (py "abababab")).
  - discriminate.
  - split; [|split]; vm_compute; reflexivity.
  - apply Forall_keys_forallb. vm_compute. reflexivity.
  - vm_compute. discriminate.
  - vm_compute. discriminate.
Defined.

Lemma hybrid_round_trip_known_symbols_the_cat :
  exists self' frame,
    @Hybrid.compress nfc_of_composed_text (HybridLZW77Compressor_init 65536 utf_8)
      (py "  the cat   and the hat ") = Ok (self', frame)
    /\ same_configuration (HybridLZW77Compressor_init 65536 utf_8) self'
    /\ value (Hybrid.decompress (HybridLZW77Compressor_init 65536 utf_8) frame)
       = Ok (@normalize_NFC nfc_of_composed_text
               (@Hybrid.preprocess_text nfc_of_composed_text
                  (py "  the cat   and the hat "))).
Proof.
  apply (@hybrid_round_trip_known_symbols nfc_of_composed_text
           (HybridLZW77Compressor_init 65536 utf_8)
           (HybridLZW77Compressor_init 65536 utf_8) (py "  the cat   and the hat ")).
  - vm_compute. discriminate.
  - split; [|split]; reflexivity.
  - apply Forall_keys_forallb. vm_compute. reflexivity.
  - vm_compute. discriminate.
  - vm_compute. discriminate.
Defined.

(** ** What [compress] can raise, and how long a frame can be *)

Lemma reset_within_bound (start self : Compressor) :
  same_configuration self start ->
  synchronized (reset_dictionary self)
  /\ same_configuration (reset_dictionary self) start
  /\ next_code (reset_dictionary self) <= code_bound start.
Proof.
  intros Hconf. rewrite (reset_same_configuration start self Hconf).
  split; [apply reset_dictionary_synchronized|].
  split; [apply same_configuration_reset|]. unfold code_bound. lia.
Qed.

Lemma add_entry_within_bound (start self : Compressor) (s : str) :
  synchronized self ->
  same_configuration self start ->
  next_code self < code_bound start ->
  synchronized (add_entry s self)
  /\ same_configuration (add_entry s self) start
  /\ next_code (add_entry s self) <= code_bound start.
Proof.
  intros Hsync Hconf Hnext. split; [by apply add_entry_synchronized|].
  split; [by apply same_configuration_add_entry|]. cbn. lia.
Qed.

Section CompressGeneral.
Context `{unicodedata}.

Lemma compress_char_emits_within (start : Compressor) (consumed : str)
    (st : Compressor * list Z * str) (c : N) :
  emits_within start consumed st ->
  key_error_or (LZW77.compress_char st c) (emits_within start (consumed ++ [c])).
Proof.
  destruct st as [[self result] cur]. intros (Hsync & Hconf & Hnext & Hcodes & Hlen).
  pose proof (len_snoc consumed c) as Hlen1. pose proof (len_nonneg consumed).
  unfold LZW77.compress_char.
  set (self1 := if negb _ then _ else _).
  assert (H1 : (synchronized self1 /\ same_configuration self1 start
                /\ next_code self1 <= code_bound start)
               /\ contains (dictionary self1) [c] = true).
  { subst self1. destruct (contains (dictionary self) [c]) eqn:Hin; cbn [negb]; [done|].
    destruct (next_code self <? max_dict_size self) eqn:Hroom.
    - apply Z.ltb_lt in Hroom. split.
      + apply add_entry_within_bound; [done | done |].
        destruct Hconf as (Hmax & _). unfold code_bound. lia.
      + unfold contains. cbn. by rewrite lookup_insert_eq.
    - destruct (reset_within_bound start self Hconf) as (Hrs & Hrc & Hrn).
      assert (Hrn' : next_code (reset_dictionary self) < code_bound start).
      { rewrite (reset_same_configuration start self Hconf). unfold code_bound. lia. }
      destruct (contains (dictionary (reset_dictionary self)) [c]) eqn:Hin'; cbn [negb].
      + done.
      + split; [by apply add_entry_within_bound|].
        unfold contains. cbn. by rewrite lookup_insert_eq. }
  clearbody self1. destruct H1 as ((Hs1 & Hc1 & Hn1) & Hin1).
  destruct (contains (dictionary self1) (cur ++ [c])) eqn:Hnew.
  - cbn. split; [done|]. split; [done|]. split; [done|]. split; [done|].
    right. split; [by destruct cur|].
    destruct Hlen as [(_ & -> & _)|(_ & Hlen)]; [unfold len in *; cbn in *|]; lia.
  - assert (Hne : cur <> []) by (intros ->; cbn in Hnew; congruence).
    destruct Hlen as [(-> & _)|(_ & Hlen)]; [done|].
    unfold dictionary_getitem.
    destruct (dictionary self1 !! cur) as [code|] eqn:Hcode; cbn; [|done].
    assert (Hrange : 0 <= code < next_code self1).
    { destruct Hs1 as (Hfwd & Hin & _). eapply Hin, Hfwd, Hcode. }
    pose proof (len_snoc result code) as Hlen2.
    assert (Hcodes' : Forall (fun code => 0 <= code < code_bound start) (result ++ [code])).
    { apply Forall_app. split; [done|]. apply Forall_singleton. lia. }
    destruct (next_code self1 <? max_dict_size self1) eqn:Hroom.
    + apply Z.ltb_lt in Hroom.
      destruct (add_entry_within_bound start self1 (cur ++ [c])) as (? & ? & ?);
        [done | done | |].
      { destruct Hc1 as (Hmax & _). unfold code_bound. lia. }
      split; [done|]. split; [done|]. split; [done|]. split; [done|].
      right. split; [done|]. lia.
    + destruct (reset_within_bound start self1 Hc1) as (? & ? & ?).
      split; [done|]. split; [done|]. split; [done|]. split; [done|].
      right. split; [done|]. lia.
Qed.

Lemma compress_loop_emits_within (start : Compressor) (text : str) :
  forall (consumed : str) (st : Compressor * list Z * str),
  emits_within start consumed st ->
  key_error_or (LZW77.compress_loop st text) (emits_within start (consumed ++ text)).
Proof.
  induction text as [|c text IH]; intros consumed st Hinv.
  - cbn. by rewrite app_nil_r.
  - cbn. pose proof (compress_char_emits_within start consumed st c Hinv) as Hstep.
    destruct (LZW77.compress_char st c) as [st1|e]; cbn; [|exact Hstep].
    replace (consumed ++ c :: text) with ((consumed ++ [c]) ++ text)
      by by rewrite <- app_assoc.
    by apply IH.
Qed.

(** Whatever the text, the codes that [compress] emits are below
    [code_bound], and there is at most one for each symbol of the
    normalised text. *)
Lemma compress_codes_within (self : Compressor) (text : str) :
  key_error_or (LZW77.compress_codes self text)
    (fun '(self', codes) =>
       synchronized self'
       /\ same_configuration self' self
       /\ next_code self' <= code_bound self
       /\ Forall (fun code => 0 <= code < code_bound self) codes
       /\ len codes <= len (normalize_NFC text)
       /\ (normalize_NFC text <> [] -> 1 <= len codes)).
Proof.
  unfold LZW77.compress_codes.
  assert (Hinit : emits_within self [] (reset_dictionary self, [], [])).
  { destruct (reset_within_bound self self) as (? & ? & ?); [done|].
    split; [done|]. split; [done|]. split; [done|]. split; [done|]. by left. }
  pose proof (compress_loop_emits_within self (normalize_NFC text) [] _ Hinit) as Hloop.
  destruct (LZW77.compress_loop _ _) as [[[self1 result] cur]|e]; cbn; [|exact Hloop].
  cbn in Hloop. destruct Hloop as (Hsync & Hconf & Hnext & Hcodes & Hlen).
  pose proof (len_nonneg (normalize_NFC text)).
  destruct cur as [|c cur].
  - destruct Hlen as [(_ & -> & ->)|(? & _)]; [|done]. cbn.
    split; [done|]. split; [done|]. split; [done|]. split; [done|]. done.
  - destruct Hlen as [(? & _)|(_ & Hlen)]; [done|].
    unfold dictionary_getitem.
    destruct (dictionary self1 !! (c :: cur)) as [code|] eqn:Hcode; cbn; [|done].
    pose proof (len_snoc result code) as Hlen2. pose proof (len_nonneg result).
    split; [done|]. split; [done|]. split; [done|]. split; [|lia].
    apply Forall_app. split; [done|]. apply Forall_singleton.
    destruct Hsync as (Hfwd & Hin & _). apply Hfwd, Hin in Hcode. lia.
Qed.

(** X9.  With room for 16-bit codes, [compress] returns a frame or raises
    the [KeyError] of a running match that is no key; packing never fails.
    A frame holds at most one code for each symbol of the normalised text,
    so it is at most [8 + 2 * n] bytes long, and the frame reader finds
    the emitted codes in it. *)
Theorem compress_returns_or_key_error (self : Compressor) (text : str) :
  max_dict_size self <= 65536 ->
  next_code (reset_dictionary self) < 65536 ->
  len (normalize_NFC text) <= 4294967295 ->
  key_error_or (LZW77.compress self text)
    (fun '(self', frame) =>
       len frame <= 8 + 2 * len (normalize_NFC text)
       /\ (text <> [] ->
           synchronized self' /\ same_configuration self' self
           /\ exists codes,
               LZW77.compress_codes self text = Ok (self', codes)
               /\ LZW77._decode_codes frame = codes
               /\ len frame = 8 + 2 * len codes
               /\ len codes <= len (normalize_NFC text)
               /\ (normalize_NFC text <> [] -> 1 <= len codes))).
Proof.
  intros Hmax Hseeds Hlen. pose proof (len_nonneg (normalize_NFC text)).
  unfold LZW77.compress. destruct text as [|c text]; [cbn; split; [|done]|].
  { unfold len at 1. cbn. lia. }
  pose proof (compress_codes_within self (c :: text)) as Hcodes.
  destruct (LZW77.compress_codes self (c :: text)) as [[self' codes]|e]; cbn;
    [|exact Hcodes].
  destruct Hcodes as (Hsync & Hconf & Hnext & Hrange & Hcount & Hone).
  assert (Hbound : code_bound self <= 65536) by (unfold code_bound; lia).
  destruct (decode_encoded_codes self' codes) as (frame & Hframe & Hflen & Hdecode).
  { eapply Forall_impl; [exact Hrange|]. cbn. intros; lia. }
  { lia. }
  { destruct Hsync as (_ & _ & ?). lia. }
  rewrite Hframe. cbn. split; [lia|]. intros _. split; [done|]. split; [done|].
  by exists codes.
Qed.

End CompressGeneral.

Lemma compress_returns_or_key_error_abab :
  key_error_or
    (@LZW77.compress nfc_of_composed_text (LZW77Compressor_init 65536 utf_8) (py "abab"))
    (fun '(self', frame) =>
       len frame <= 8 + 2 * len (@normalize_NFC nfc_of_composed_text (py "abab"))
       /\ (py "abab" <> [] ->
           synchronized self'
           /\ same_configuration self' (LZW77Compressor_init 65536 utf_8)
           /\ exists codes,
               @LZW77.compress_codes nfc_of_composed_text
                 (LZW77Compressor_init 65536 utf_8) (py "abab") = Ok (self', codes)
               /\ LZW77._decode_codes frame = codes
               /\ len frame = 8 + 2 * len codes
               /\ len codes <= len (@normalize_NFC nfc_of_composed_text (py "abab"))
               /\ (@normalize_NFC nfc_of_composed_text (py "abab") <> [] ->
                   1 <= len codes))).
Proof.
  apply (@compress_returns_or_key_error nfc_of_composed_text
           (LZW77Compressor_init 65536 utf_8) (py "abab")).
  - vm_compute. discriminate.
  - vm_compute. reflexivity.
  - vm_compute. discriminate.
Defined.


(** ** What [decompress] can raise *)

Lemma base_reset_no_empty_string (self : Compressor) :
  no_empty_string (LZW77Compressor.reset_dictionary self).
Proof.
  intros code s Hs.
  destruct (base_reset_synchronized self) as (_ & Hin & _).
  pose proof (Hin code s Hs) as Hcode. cbn in Hcode.
  rewrite base_reset_reverse in Hs by done.
  unfold decode_byte in Hs. by repeat case_match; simplify_eq.
Qed.

Lemma add_entry_no_empty_string (self : Compressor) (s : str) :
  s <> [] -> no_empty_string self -> no_empty_string (add_entry s self).
Proof.
  intros Hs Hself code s'. cbn. rewrite lookup_insert.
  case_decide; [by intros [= <-]|apply Hself].
Qed.

Lemma reset_no_empty_string (self : Compressor) :
  [] ∉ seeds self -> no_empty_string (reset_dictionary self).
Proof.
  unfold seeds, reset_dictionary. destruct (multilingual_dict self) as [d|].
  - unfold HybridLZW77Compressor.reset_dictionary.
    generalize (common_words d ++ common_patterns d).
    generalize (base_reset_no_empty_string self).
    generalize (LZW77Compressor.reset_dictionary self).
    intros s Hs l. revert s Hs.
    induction l as [|p l IH]; intros s Hs Hl; [done|].
    apply not_elem_of_cons in Hl as [Hp Hl].
    cbn [foldl]. apply IH; [|done]. unfold HybridLZW77Compressor.seed_entry.
    destruct (_ && _); [by apply add_entry_no_empty_string | done].
  - intros _. apply base_reset_no_empty_string.
Qed.

Lemma len_concat_snoc {A} (l : list (list A)) (k : list A) :
  len (concat (l ++ [k])) = len (concat l) + len k.
Proof. by rewrite concat_app, len_app; cbn; rewrite app_nil_r. Qed.

Lemma decompress_code_reads_within (start : Compressor) (n : Z)
    (st : Compressor * list str * Z) (code : Z) :
  [] ∉ seeds start ->
  reads_within start n st ->
  lookup_error_or (LZW77.decompress_code st code) (reads_within start (n + 1)).
Proof.
  destruct st as [[self result] old_code]. intros Hseeds (Hsync & Hconf & Hne & Hlen).
  unfold LZW77.decompress_code.
  assert (Hres : lookup_error_or (LZW77.resolve_code self old_code code)
                   (fun string => string <> [])).
  { destruct (reverse_dictionary self !! code) as [s|] eqn:Hcode.
    - rewrite (resolve_code_known self old_code code s Hcode). cbn. by eapply Hne.
    - destruct (decide (code = next_code self)) as [->|Hother].
      + destruct (reverse_dictionary self !! old_code) as [[|c tail]|] eqn:Hold.
        * by apply Hne in Hold.
        * by rewrite (resolve_code_pending self old_code (next_code self) c tail).
        * unfold LZW77.resolve_code, reverse_dictionary_getitem.
          rewrite (contains_false _ _ Hcode), Z.eqb_refl, Hold. done.
      + by rewrite resolve_code_invalid. }
  destruct (LZW77.resolve_code self old_code code) as [[|c string]|e]; cbn in *;
    [done | | exact Hres].
  pose proof (len_concat_snoc result (c :: string)) as Hlen'.
  assert (Hpos : 1 <= len (c :: string)) by (unfold len; cbn; lia).
  assert (Hadd : forall self1,
             synchronized self1 -> same_configuration self1 start ->
             no_empty_string self1 ->
             lookup_error_or
               (self2 ← (previous ← reverse_dictionary_getitem self1 old_code;
                         Ok (add_entry (previous ++ [c]) self1));
                Ok (self2, result ++ [c :: string], code))
               (reads_within start (n + 1))).
  { intros self1 Hs1 Hc1 Hn1. unfold reverse_dictionary_getitem.
    destruct (reverse_dictionary self1 !! old_code) as [previous|]; cbn; [|done].
    split; [by apply add_entry_synchronized|].
    split; [by apply same_configuration_add_entry|].
    split; [apply add_entry_no_empty_string; [by destruct previous | done]|]. lia. }
  destruct (next_code self <? max_dict_size self).
  - by apply Hadd.
  - apply Hadd.
    + apply reset_dictionary_synchronized.
    + by apply reset_within_bound.
    + rewrite (reset_same_configuration start self Hconf).
      by apply reset_no_empty_string.
Qed.

Lemma decompress_loop_reads_within (start : Compressor) (codes : list Z) :
  forall (n : Z) (st : Compressor * list str * Z),
  [] ∉ seeds start ->
  reads_within start n st ->
  lookup_error_or (LZW77.decompress_loop st codes) (reads_within start (n + len codes)).
Proof.
  induction codes as [|code codes IH]; intros n st Hseeds Hinv.
  - cbn. by rewrite Z.add_0_r.
  - cbn [LZW77.decompress_loop].
    pose proof (decompress_code_reads_within start n st code Hseeds Hinv) as Hstep.
    destruct (LZW77.decompress_code st code) as [st1|e]; cbn; [|exact Hstep].
    replace (n + len (code :: codes)) with (n + 1 + len codes)
      by (unfold len; cbn; lia).
    by apply IH.
Qed.

(** X10.  [decompress] returns, or raises the [KeyError] of a code that the
    reverse dictionary lacks, or the invalid-code error; it never fails on
    [string[0]].  A text that it returns has at least one symbol for each
    code read from the frame. *)
Theorem decompress_returns_or_lookup_error (self : Compressor) (data : bytes) :
  [] ∉ seeds self ->
  lookup_error_or (LZW77.decompress self data)
    (fun '(self', text) =>
       len (LZW77._decode_codes data) <= len text
       /\ (data <> [] -> synchronized self' /\ same_configuration self' self))
  /\ match Hybrid.decompress self data with
     | Ok _
     | Raise (DecompressionFailed (KeyError_int _))
     | Raise (DecompressionFailed (InvalidCode _)) => True
     | Raise _ => False
     end.
Proof.
  intros Hseeds.
  assert (Hbase : lookup_error_or (LZW77.decompress self data)
    (fun '(self', text) =>
       len (LZW77._decode_codes data) <= len text
       /\ (data <> [] -> synchronized self' /\ same_configuration self' self))).
  { unfold LZW77.decompress. destruct data as [|b data]; [done|].
    destruct (reset_within_bound self self) as (Hsync & Hconf & _); [done|].
    destruct (LZW77._decode_codes (b :: data)) as [|old_code rest]; [done|].
    unfold reverse_dictionary_getitem.
    destruct (reverse_dictionary (reset_dictionary self) !! old_code) as [first|] eqn:Hfirst;
      cbn; [|done].
    pose proof (reset_no_empty_string self Hseeds) as Hne.
    assert (Hinit : reads_within self 1 (reset_dictionary self, [first], old_code)).
    { split; [done|]. split; [done|]. split; [done|]. apply Hne in Hfirst.
      cbn. rewrite app_nil_r. destruct first; [done|]. unfold len. cbn. lia. }
    pose proof (decompress_loop_reads_within self rest 1 _ Hseeds Hinit) as Hloop.
    destruct (LZW77.decompress_loop _ rest) as [[[self' result] old_code']|e]; cbn;
      [|exact Hloop].
    destruct Hloop as (? & ? & _ & Hlen). split; [|done].
    unfold len in *. cbn in *. lia. }
  split; [exact Hbase|]. unfold Hybrid.decompress.
  destruct (LZW77.decompress self data) as [[self' text]|e]; cbn; [done|].
  by destruct e.
Qed.

Lemma decompress_returns_or_lookup_error_hybrid :
  lookup_error_or
    (LZW77.decompress (HybridLZW77Compressor_init 65536 utf_8)
       [x00; x00; x00; x02; x00; x00; x00; x00; x00; x61; x01; x83])
    (fun '(self', text) =>
       len (LZW77._decode_codes
              [x00; x00; x00; x02; x00; x00; x00; x00; x00; x61; x01; x83]) <= len text
       /\ ([x00; x00; x00; x02; x00; x00; x00; x00; x00; x61; x01; x83] <> [] ->
           synchronized self'
           /\ same_configuration self' (HybridLZW77Compressor_init 65536 utf_8)))
  /\ match Hybrid.decompress (HybridLZW77Compressor_init 65536 utf_8)
             [x00; x00; x00; x02; x00; x00; x00; x00; x00; x61; x01; x83] with
     | Ok _
     | Raise (DecompressionFailed (KeyError_int _))
     | Raise (DecompressionFailed (InvalidCode _)) => True
     | Raise _ => False
     end.
Proof.
  apply (decompress_returns_or_lookup_error (HybridLZW77Compressor_init 65536 utf_8)
           [x00; x00; x00; x02; x00; x00; x00; x00; x00; x61; x01; x83]).
  apply (bool_decide_unpack _). vm_compute. exact I.
Defined.


(** ** The keys of a freshly reset dictionary *)

Lemma base_entry_dictionary (self : Compressor) (i : Z) (s : str) :
  dictionary (LZW77Compressor.base_entry self i) !! s
  = match decode_byte (encoding self) replace i with
    | Some char => if decide (char = s) then Some i else dictionary self !! s
    | None => dictionary self !! s
    end.
Proof.
  unfold LZW77Compressor.base_entry.
  destruct (decode_byte (encoding self) replace i) as [char|]; [|done].
  cbn. by rewrite lookup_insert.
Qed.

Lemma base_loop_keys (n : nat) : forall (self : Compressor) (a : Z) (s : str),
  is_Some (dictionary (foldl LZW77Compressor.base_entry self (seqZ a (Z.of_nat n))) !! s)
  <-> (exists i, a <= i < a + Z.of_nat n /\ decode_byte (encoding self) replace i = Some s)
      \/ is_Some (dictionary self !! s).
Proof.
  induction n as [|n IH]; intros self a s.
  - simpl. split; [by right|]. intros [(i & ? & _)|?]; [lia | done].
  - rewrite seqZ_cons by lia. cbn [foldl].
    replace (Z.pred (Z.of_nat (S n))) with (Z.of_nat n) by lia.
    rewrite IH, base_entry_encoding, base_entry_dictionary. split.
    + intros [(i & Hi & Hd)|Hs]; [left; exists i; split; [lia | done]|].
      destruct (decode_byte (encoding self) replace a) as [char|] eqn:Ha; [|by right].
      case_decide; [|by right]. subst. left. exists a. split; [lia | done].
    + intros [(i & Hi & Hd)|Hs].
      * destruct (decide (i = a)) as [->|Hne].
        -- right. rewrite Hd. by case_decide.
        -- left. exists i. split; [lia | done].
      * right. destruct (decode_byte (encoding self) replace a); [|done].
        by case_decide.
Qed.

Lemma base_loop_keys_Z (n : Z) (self : Compressor) (s : str) :
  0 <= n ->
  is_Some (dictionary (foldl LZW77Compressor.base_entry self (seqZ 0 n)) !! s)
  <-> (exists i, 0 <= i < n /\ decode_byte (encoding self) replace i = Some s)
      \/ is_Some (dictionary self !! s).
Proof.
  intros Hn. pose proof (base_loop_keys (Z.to_nat n) self 0 s) as H.
  rewrite Z2Nat.id, Z.add_0_l in H by lia. exact H.
Qed.

Lemma base_reset_keys (self : Compressor) (s : str) :
  is_Some (dictionary (LZW77Compressor.reset_dictionary self) !! s)
  <-> decoded_byte (encoding self) s.
Proof.
  unfold LZW77Compressor.reset_dictionary, decoded_byte.
  match goal with
  | |- context [foldl LZW77Compressor.base_entry ?s0 (seqZ 0 256)] =>
      pose proof (base_loop_keys_Z 256 s0 s ltac:(lia)) as H;
      remember (foldl LZW77Compressor.base_entry s0 (seqZ 0 256)) as s1 eqn:Hs1;
      clear Hs1
  end.
  cbn in *. rewrite H. split; [|by left].
  intros [?|Hempty]; [done|]. rewrite lookup_empty in Hempty. by destruct Hempty.
Qed.

Lemma seed_loop_keys (patterns : list str) : forall (self : Compressor) (s : str),
  is_Some (dictionary (foldl HybridLZW77Compressor.seed_entry self patterns) !! s) ->
  is_Some (dictionary self !! s) \/ s ∈ patterns.
Proof.
  induction patterns as [|p patterns IH]; intros self s Hs; [by left|].
  cbn [foldl] in Hs. apply IH in Hs as [Hs|Hs]; [|right; by apply elem_of_cons; right].
  unfold HybridLZW77Compressor.seed_entry in Hs.
  destruct (_ && _); [|by left].
  cbn in Hs. rewrite lookup_insert in Hs. case_decide; [|by left].
  subst. right. by apply elem_of_cons; left.
Qed.

(** X11.  The keys after a reset.  Every string that the loop over
    [range(256)] decodes is a key, in the hybrid class as well; every
    other key is a seed; and as long as the seeding did not stop for lack
    of room, every seed is a key.  A compressor with
    [max_dict_size <= 256] takes no seed at all. *)
Theorem reset_dictionary_keys (self : Compressor) (s : str) :
  (decoded_byte (encoding self) s -> is_Some (dictionary (reset_dictionary self) !! s))
  /\ (is_Some (dictionary (reset_dictionary self) !! s) ->
      decoded_byte (encoding self) s \/ s ∈ seeds self)
  /\ (next_code (reset_dictionary self) < max_dict_size self ->
      s ∈ seeds self -> is_Some (dictionary (reset_dictionary self) !! s))
  /\ (max_dict_size self <= 256 ->
      reset_dictionary self = LZW77Compressor.reset_dictionary self).
Proof.
  unfold seeds, reset_dictionary.
  destruct (multilingual_dict self) as [d|] eqn:Hmd.
  - unfold HybridLZW77Compressor.reset_dictionary. repeat split.
    + intros Hs. apply seed_loop_grows. by apply base_reset_keys.
    + intros [Hs|Hs]%seed_loop_keys; [left; by apply base_reset_keys | by right].
    + intros Hroom Hs.
      apply seed_loop_present; [|done].
      by destruct (base_reset_config self) as (-> & _).
    + intros Hmax. generalize (common_words d ++ common_patterns d).
      assert (Hfull : max_dict_size (LZW77Compressor.reset_dictionary self)
                      <= next_code (LZW77Compressor.reset_dictionary self)).
      { destruct (base_reset_config self) as (-> & _). cbn. lia. }
      intros l. induction l as [|p l IH]; [done|].
      cbn [foldl]. unfold HybridLZW77Compressor.seed_entry at 2.
      replace (next_code _ <? max_dict_size _) with false
        by (symmetry; apply Z.ltb_ge; lia).
      by rewrite andb_false_r.
  - repeat split; try done.
    + apply base_reset_keys.
    + intros Hs. left. by apply base_reset_keys.
    + by intros _ ?%elem_of_nil.
Qed.

(** X12.  The one-symbol keys after a reset, seeds apart: under UTF-8 the
    symbols below 128 and U+FFFD; under UTF-16 U+FFFD alone; under Latin-1
    the symbols below 256. *)
Theorem single_symbol_keys (self : Compressor) (c : N) :
  [c] ∉ seeds self ->
  (is_Some (dictionary (reset_dictionary self) !! [c])
   <-> match encoding self with
       | utf_8 => (c < 128)%N \/ c = REPLACEMENT_CHARACTER
       | utf_16 => c = REPLACEMENT_CHARACTER
       | latin_1 => (c < 256)%N
       end).
Proof.
  intros Hseed.
  assert (Hkeys : is_Some (dictionary (reset_dictionary self) !! [c])
                  <-> decoded_byte (encoding self) [c]).
  { unfold seeds, reset_dictionary in *.
    destruct (multilingual_dict self) as [d|]; [|apply base_reset_keys].
    unfold HybridLZW77Compressor.reset_dictionary. split.
    - intros [Hs|Hs]%seed_loop_keys; [by apply base_reset_keys | done].
    - intros Hs. apply seed_loop_grows. by apply base_reset_keys. }
  rewrite Hkeys. unfold decoded_byte, decode_byte.
  destruct (encoding self); split.
  - intros (i & Hi & Hd). destruct (i <? 128) eqn:Hlt; injection Hd as <-; [|by right].
    left. apply Z.ltb_lt in Hlt. lia.
  - intros [Hc| ->].
    + exists (Z.of_N c). rewrite N2Z.id.
      replace (Z.of_N c <? 128) with true by (symmetry; apply Z.ltb_lt; lia).
      split; [lia | done].
    + by exists 128.
  - by intros (i & Hi & [= <-]).
  - intros ->. by exists 0.
  - intros (i & Hi & [= <-]). lia.
  - intros Hc. exists (Z.of_N c). rewrite N2Z.id. split; [lia | done].
Qed.

Lemma reset_dictionary_keys_the :
  is_Some (dictionary (reset_dictionary (HybridLZW77Compressor_init 65536 utf_8))
             !! py "the").
Proof.
  destruct (reset_dictionary_keys (HybridLZW77Compressor_init 65536 utf_8) (py "the"))
    as (_ & _ & Hseed & _).
  apply Hseed.
  - vm_compute. reflexivity.
  - apply (bool_decide_unpack _). vm_compute. exact I.
Defined.

Lemma single_symbol_keys_n_tilde :
  is_Some (dictionary (reset_dictionary (HybridLZW77Compressor_init 65536 utf_8))
             !! [241%N])
  <-> match encoding (HybridLZW77Compressor_init 65536 utf_8) with
      | utf_8 => (241 < 128)%N \/ 241%N = REPLACEMENT_CHARACTER
      | utf_16 => 241%N = REPLACEMENT_CHARACTER
      | latin_1 => (241 < 256)%N
      end.
Proof.
  apply (single_symbol_keys (HybridLZW77Compressor_init 65536 utf_8) 241%N).
  apply (bool_decide_unpack _). vm_compute. exact I.
Defined.

(** ** When the framing raises *)

Lemma pack_H_cases (n : Z) :
  (0 <= n <= 65535 /\ is_ok (pack_H n) = true)
  \/ (~ 0 <= n <= 65535 /\ pack_H n = Raise StructError).
Proof.
  unfold pack_H. destruct (0 <=? n) eqn:H0; destruct (n <=? 65535) eqn:H1; cbn;
    try apply Z.leb_le in H0; try apply Z.leb_le in H1;
    try apply Z.leb_gt in H0; try apply Z.leb_gt in H1;
    solve [left; split; [lia | done] | right; split; [lia | done]].
Qed.

Lemma pack_I_cases (n : Z) :
  (0 <= n <= 4294967295 /\ is_ok (pack_I n) = true)
  \/ (~ 0 <= n <= 4294967295 /\ pack_I n = Raise StructError).
Proof.
  unfold pack_I. destruct (0 <=? n) eqn:H0; destruct (n <=? 4294967295) eqn:H1; cbn;
    try apply Z.leb_le in H0; try apply Z.leb_le in H1;
    try apply Z.leb_gt in H0; try apply Z.leb_gt in H1;
    solve [left; split; [lia | done] | right; split; [lia | done]].
Qed.

Lemma pack_codes_cases (codes : list Z) :
  (Forall (fun code => 0 <= code <= 65535) codes /\ is_ok (LZW77.pack_codes codes) = true)
  \/ (~ Forall (fun code => 0 <= code <= 65535) codes
      /\ LZW77.pack_codes codes = Raise StructError).
Proof.
  induction codes as [|code codes IH]; [by left|].
  cbn [LZW77.pack_codes].
  destruct (pack_H_cases code) as [(Hcode & Hok)|(Hcode & ->)].
  - destruct (pack_H code) as [b|]; [|done]. cbn.
    destruct IH as [(Hcodes & Hoks)|(Hcodes & ->)].
    + left. split; [by constructor|]. by destruct (LZW77.pack_codes codes).
    + right. split; [|done]. by intros [_ ?]%Forall_cons.
  - right. split; [|done]. by intros [? _]%Forall_cons.
Qed.

(** X13.  [_encode_codes] raises [struct.error] exactly when a code does not
    fit in 16 bits or a header field does not fit in 32 bits, and raises
    nothing else. *)
Theorem encode_codes_raises (self : Compressor) (codes : list Z) :
  (LZW77._encode_codes self codes = Raise StructError
   <-> ~ (Forall (fun code => 0 <= code <= 65535) codes
          /\ len codes <= 4294967295
          /\ 256 <= next_code self <= 4294967295 + 256))
  /\ forall e, LZW77._encode_codes self codes = Raise e -> e = StructError.
Proof.
  pose proof (len_nonneg codes).
  assert (Hcases : (Forall (fun code => 0 <= code <= 65535) codes
                    /\ len codes <= 4294967295
                    /\ 256 <= next_code self <= 4294967295 + 256
                    /\ is_ok (LZW77._encode_codes self codes) = true)
                   \/ (~ (Forall (fun code => 0 <= code <= 65535) codes
                          /\ len codes <= 4294967295
                          /\ 256 <= next_code self <= 4294967295 + 256)
                       /\ LZW77._encode_codes self codes = Raise StructError)).
  { unfold LZW77._encode_codes.
    destruct (pack_codes_cases codes) as [(Hcodes & Hok)|(Hcodes & ->)];
      [|right; split; [tauto | done]].
    destruct (LZW77.pack_codes codes) as [packed|]; [|done]. cbn.
    destruct (pack_I_cases (len codes)) as [(Hlen & Hok1)|(Hlen & ->)];
      [|right; split; [lia | done]].
    destruct (pack_I (len codes)) as [header|]; [|done]. cbn.
    destruct (pack_I_cases (next_code self - 256)) as [(Hnext & Hok2)|(Hnext & ->)];
      [|right; split; [lia | done]].
    destruct (pack_I (next_code self - 256)) as [header2|]; [|done]. cbn.
    left. repeat split; try done; lia. }
  split; [split|].
  - intros Hraise. destruct Hcases as [(_ & _ & _ & Hok)|(Hnot & _)]; [|done].
    by rewrite Hraise in Hok.
  - intros Hnot. destruct Hcases as [(? & ? & ? & _)|(_ & Hraise)]; [tauto | done].
  - intros e He. destruct Hcases as [(_ & _ & _ & Hok)|(_ & Hraise)]; [|congruence].
    by rewrite He in Hok.
Qed.

(** ** When the statistics raise *)

Lemma encode_symbol_None (enc : Encoding) (c : N) :
  encode_symbol enc c = None <-> encodable enc c = false.
Proof.
  unfold encode_symbol, encodable, surrogate.
  destruct enc;
    repeat match goal with
           | |- context [(?a <? ?b)%N] => destruct (N.ltb_spec a b)
           | |- context [(?a <=? ?b)%N] => destruct (N.leb_spec a b)
           end; cbn; split; intros; try done; lia.
Qed.

Lemma encode_symbols_None (enc : Encoding) (text : str) :
  encode_symbols enc text = None <-> Exists (fun c => encodable enc c = false) text.
Proof.
  induction text as [|c text IH]; cbn.
  - split; [done | by intros ?%Exists_nil].
  - destruct (encode_symbol enc c) as [b|] eqn:Hc.
    + destruct (encode_symbols enc text) as [bs|] eqn:Ht.
      * split; [done|]. intros [Hbad|Hbad]%Exists_cons.
        -- apply encode_symbol_None in Hbad. congruence.
        -- by apply IH in Hbad.
      * split; [|done]. intros _. apply Exists_cons. right. by apply IH.
    + split; [|done]. intros _. apply Exists_cons. left. by apply encode_symbol_None.
Qed.

(** X14.  [get_compression_stats] raises [UnicodeEncodeError] exactly when
    the text holds a symbol that the configured codec cannot encode, and
    raises nothing else: the division is never by zero. *)
Theorem get_compression_stats_raises (self : Compressor) (original_text : str)
    (compressed_data : bytes) :
  (LZW77.get_compression_stats self original_text compressed_data
     = Raise UnicodeEncodeError
   <-> Exists (fun c => encodable (encoding self) c = false) original_text)
  /\ forall e,
      LZW77.get_compression_stats self original_text compressed_data = Raise e ->
      e = UnicodeEncodeError.
Proof.
  rewrite <- encode_symbols_None.
  unfold LZW77.get_compression_stats, encode.
  destruct (encode_symbols (encoding self) original_text) as [bs|]; cbn;
    [|split; [done | by intros e [= <-]]].
  set (encoded := match encoding self with utf_16 => _ | _ => bs end).
  destruct (len encoded =? 0) eqn:Hzero; [by split|].
  unfold truediv. rewrite Hzero. cbn. by split.
Qed.

(** ** What is kept of the bijection between strings and codes *)

Lemma add_entry_backward (self : Compressor) (s : str) (code : Z) :
  dictionary self !! s = None ->
  backward_consistent_at self code ->
  backward_consistent_at (add_entry s self) code.
Proof.
  intros Hnew Hback s'. cbn. rewrite lookup_insert. case_decide as Hcode.
  - intros [= <-]. subst code. by rewrite lookup_insert_eq.
  - intros Hs'%Hback. rewrite lookup_insert_ne; [done|]. congruence.
Qed.

Lemma add_entry_well_kept (self : Compressor) (s : str) :
  dictionary self !! s = None -> well_kept self -> well_kept (add_entry s self).
Proof.
  intros Hnew (Hsync & Hall & Hback).
  split; [by apply add_entry_synchronized|]. split; [by apply add_entry_complete|].
  intros code Hown. apply add_entry_backward; [done|]. by apply Hback.
Qed.

Lemma base_loop_dictionary_other (n : nat) : forall (self : Compressor) (a : Z) (s : str),
  (forall j, a <= j < a + Z.of_nat n -> decode_byte (encoding self) replace j <> Some s) ->
  dictionary (foldl LZW77Compressor.base_entry self (seqZ a (Z.of_nat n))) !! s
  = dictionary self !! s.
Proof.
  induction n as [|n IH]; intros self a s Hother; [done|].
  rewrite seqZ_cons by lia. cbn [foldl].
  replace (Z.pred (Z.of_nat (S n))) with (Z.of_nat n) by lia.
  rewrite IH.
  - rewrite base_entry_dictionary.
    destruct (decode_byte (encoding self) replace a) as [char|] eqn:Ha; [|done].
    case_decide; [|done]. subst. destruct (Hother a); [lia | done].
  - intros j Hj. rewrite base_entry_encoding. apply Hother. lia.
Qed.

Lemma base_loop_dictionary_last (n : nat) :
  forall (self : Compressor) (a code : Z) (s : str),
  a <= code < a + Z.of_nat n ->
  decode_byte (encoding self) replace code = Some s ->
  (forall j, code < j < a + Z.of_nat n -> decode_byte (encoding self) replace j <> Some s) ->
  dictionary (foldl LZW77Compressor.base_entry self (seqZ a (Z.of_nat n))) !! s = Some code.
Proof.
  induction n as [|n IH]; intros self a code s Hcode Hs Hlast; [lia|].
  rewrite seqZ_cons by lia. cbn [foldl].
  replace (Z.pred (Z.of_nat (S n))) with (Z.of_nat n) by lia.
  destruct (decide (code = a)) as [->|Hne].
  - rewrite base_loop_dictionary_other.
    + rewrite base_entry_dictionary, Hs. by case_decide.
    + intros j Hj. rewrite base_entry_encoding. apply Hlast. lia.
  - apply IH; [lia | by rewrite base_entry_encoding |].
    intros j Hj. rewrite base_entry_encoding. apply Hlast. lia.
Qed.

Lemma base_loop_dictionary_last_Z (n : Z) (self : Compressor) (code : Z) (s : str) :
  0 <= code < n ->
  decode_byte (encoding self) replace code = Some s ->
  (forall j, code < j < n -> decode_byte (encoding self) replace j <> Some s) ->
  dictionary (foldl LZW77Compressor.base_entry self (seqZ 0 n)) !! s = Some code.
Proof.
  intros Hcode Hs Hlast.
  pose proof (base_loop_dictionary_last (Z.to_nat n) self 0 code s) as H.
  rewrite Z2Nat.id, Z.add_0_l in H by lia. by apply H.
Qed.

Lemma base_reset_dictionary_last (self : Compressor) (code : Z) (s : str) :
  0 <= code < 256 ->
  decode_byte (encoding self) replace code = Some s ->
  (forall j, code < j < 256 -> decode_byte (encoding self) replace j <> Some s) ->
  dictionary (LZW77Compressor.reset_dictionary self) !! s = Some code.
Proof.
  intros Hcode Hs Hlast. unfold LZW77Compressor.reset_dictionary.
  match goal with
  | |- context [foldl LZW77Compressor.base_entry ?s0 (seqZ 0 256)] =>
      pose proof (base_loop_dictionary_last_Z 256 s0 code s Hcode Hs Hlast) as H;
      remember (foldl LZW77Compressor.base_entry s0 (seqZ 0 256)) as s1 eqn:Hs1;
      clear Hs1
  end.
  cbn in *. by rewrite H.
Qed.

Lemma base_reset_backward (self : Compressor) (code : Z) :
  own_string (encoding self) code ->
  backward_consistent_at (LZW77Compressor.reset_dictionary self) code.
Proof.
  intros Hown s Hs.
  destruct (base_reset_synchronized self) as (_ & Hin & _).
  pose proof (Hin code s Hs) as Hcode. cbn in Hcode.
  rewrite base_reset_reverse in Hs by done.
  apply base_reset_dictionary_last; [done | done |].
  intros j Hj. rewrite <- Hs. by apply Hown.
Qed.

Lemma seed_loop_backward (patterns : list str) : forall (self : Compressor) (code : Z),
  backward_consistent_at self code ->
  backward_consistent_at (foldl HybridLZW77Compressor.seed_entry self patterns) code.
Proof.
  induction patterns as [|p patterns IH]; intros self code Hback; [done|].
  cbn [foldl]. apply IH. unfold HybridLZW77Compressor.seed_entry.
  destruct (contains (dictionary self) p) eqn:Hp; cbn [negb andb]; [done|].
  destruct (next_code self <? max_dict_size self); [|done].
  apply add_entry_backward; [|done]. unfold contains in Hp.
  by destruct (dictionary self !! p).
Qed.

Lemma reset_dictionary_well_kept (self : Compressor) : well_kept (reset_dictionary self).
Proof.
  split; [apply reset_dictionary_synchronized|].
  split; [apply reset_dictionary_first_free_code|].
  destruct (reset_dictionary_config self) as (_ & -> & _).
  intros code Hown. unfold reset_dictionary.
  destruct (multilingual_dict self) as [d|]; [|by apply base_reset_backward].
  by apply seed_loop_backward, base_reset_backward.
Qed.

Lemma contains_None `{Countable K} {V} (d : gmap K V) (key : K) :
  contains d key = false -> d !! key = None.
Proof. unfold contains. by destruct (d !! key). Qed.

Lemma compress_char_well_kept (st st' : Compressor * list Z * str) (char : N) :
  well_kept st.1.1 ->
  LZW77.compress_char st char = Ok st' ->
  well_kept st'.1.1.
Proof.
  destruct st as [[self result] current]. cbn [fst]. intros Hs.
  unfold LZW77.compress_char.
  set (self1 := if negb _ then _ else _).
  assert (Hs1 : well_kept self1).
  { subst self1. destruct (contains (dictionary self) [char]) eqn:Hin; cbn [negb]; [done|].
    destruct (next_code self <? max_dict_size self).
    - by apply add_entry_well_kept; [apply contains_None|].
    - destruct (contains (dictionary (reset_dictionary self)) [char]) eqn:Hin'; cbn [negb].
      + apply reset_dictionary_well_kept.
      + apply add_entry_well_kept; [by apply contains_None|].
        apply reset_dictionary_well_kept. }
  clearbody self1.
  destruct (contains (dictionary self1) (current ++ [char])) eqn:Hnew.
  - intros [= <-]. done.
  - destruct (dictionary_getitem self1 current) as [code|e]; cbn; [|done].
    intros [= <-]. cbn [fst].
    destruct (next_code self1 <? max_dict_size self1).
    + by apply add_entry_well_kept; [apply contains_None|].
    + apply reset_dictionary_well_kept.
Qed.

Lemma compress_loop_well_kept (text : str) :
  forall st st' : Compressor * list Z * str,
  well_kept st.1.1 ->
  LZW77.compress_loop st text = Ok st' ->
  well_kept st'.1.1.
Proof.
  induction text as [|char text IH]; intros st st' Hs.
  - intros [= <-]. done.
  - cbn [LZW77.compress_loop].
    destruct (LZW77.compress_char st char) as [st1|e] eqn:E; cbn; [|done].
    apply IH. by eapply compress_char_well_kept.
Qed.

Lemma decompress_code_complete (st st' : Compressor * list str * Z) (code : Z) :
  codes_complete st.1.1 ->
  LZW77.decompress_code st code = Ok st' ->
  codes_complete st'.1.1.
Proof.
  destruct st as [[self result] old_code]. cbn [fst]. intros Hs.
  unfold LZW77.decompress_code.
  destruct (LZW77.resolve_code self old_code code) as [string|e]; cbn; [|done].
  destruct (next_code self <? max_dict_size self).
  - destruct (reverse_dictionary_getitem self old_code) as [previous|e]; cbn; [|done].
    destruct (first_symbol string) as [c|e]; cbn; [|done].
    intros [= <-]. by apply add_entry_complete.
  - destruct (reverse_dictionary_getitem (reset_dictionary self) old_code)
      as [previous|e]; cbn; [|done].
    destruct (first_symbol string) as [c|e]; cbn; [|done].
    intros [= <-]. apply add_entry_complete, reset_dictionary_first_free_code.
Qed.

Lemma decompress_loop_complete (codes : list Z) :
  forall st st' : Compressor * list str * Z,
  codes_complete st.1.1 ->
  LZW77.decompress_loop st codes = Ok st' ->
  codes_complete st'.1.1.
Proof.
  induction codes as [|code codes IH]; intros st st' Hs.
  - intros [= <-]. done.
  - cbn [LZW77.decompress_loop].
    destruct (LZW77.decompress_code st code) as [st1|e] eqn:E; cbn; [|done].
    apply IH. by eapply decompress_code_complete.
Qed.

Lemma own_string_from_256 (enc : Encoding) (code : Z) : 256 <= code -> own_string enc code.
Proof. intros Hcode j Hj. lia. Qed.

Lemma own_string_latin_1 (code : Z) : 0 <= code -> own_string latin_1 code.
Proof. intros Hcode j Hj [= Heq]. lia. Qed.

Lemma well_kept_latin_1 (self : Compressor) :
  encoding self = latin_1 -> well_kept self -> inverse_mappings self /\ codes_injective self.
Proof.
  intros Henc ((Hfwd & Hin & _) & _ & Hback). rewrite Henc in Hback.
  assert (Hconv : forall code s,
             reverse_dictionary self !! code = Some s -> dictionary self !! s = Some code).
  { intros code s Hs. apply Hback; [|done]. apply own_string_latin_1.
    by destruct (Hin code s Hs). }
  split.
  - intros s code. split; [apply Hfwd | apply Hconv].
  - intros code1 code2 s _ _ H1%Hconv H2%Hconv. congruence.
Qed.

(** C3, as amended.  At every point of [compress] and [decompress] (right
    after a reset, after each insertion, after each turn of either loop)
    the codes in the reverse mapping are exactly those of [[0, next_code)],
    with [next_code >= 256], and every forward entry [s -> code] has
    [reverse_dictionary[code] = s]: no two distinct strings map to the
    same code.  In [compress], where only new strings are inserted, the
    converse holds too at every code that has a string of its own, which
    every code from 256 on has: [reverse_dictionary[code] = s] gives
    [dictionary[s] = code], and no two of these codes map to the same
    string.  Under Latin-1, where the 256 byte values decode to 256
    strings, that is every code: the two mappings are inverses of each
    other, a bijection over [[0, next_code)]. *)
Theorem dictionaries_synchronized :
  (forall self, well_kept (reset_dictionary self))
  /\ (forall self s,
        synchronized self -> codes_complete self ->
        synchronized (add_entry s self) /\ codes_complete (add_entry s self))
  /\ (forall self s,
        dictionary self !! s = None -> well_kept self -> well_kept (add_entry s self))
  /\ (forall self text st result current_string,
        LZW77.compress_loop (reset_dictionary self, [], []) text
          = Ok (st, result, current_string) ->
        well_kept st /\ strings_injective st)
  /\ (forall self first old_code codes st result old_code',
        LZW77.decompress_loop (reset_dictionary self, [first], old_code) codes
          = Ok (st, result, old_code') ->
        synchronized st /\ codes_complete st /\ strings_injective st)
  /\ (forall self code1 code2 s,
        well_kept self ->
        256 <= code1 ->
        reverse_dictionary self !! code1 = Some s ->
        dictionary self !! s = Some code1
        /\ (256 <= code2 -> reverse_dictionary self !! code2 = Some s -> code2 = code1))
  /\ (forall self,
        encoding self = latin_1 -> well_kept self ->
        inverse_mappings self /\ codes_injective self).
Proof.
  split; [apply reset_dictionary_well_kept|].
  split; [intros; split; [by apply add_entry_synchronized | by apply add_entry_complete]|].
  split; [intros; by apply add_entry_well_kept|].
  split; [|split; [|split; [|apply well_kept_latin_1]]].
  - intros self text st result current Hrun.
    assert (Hkept : well_kept st).
    { apply (compress_loop_well_kept text (reset_dictionary self, [], [])
               (st, result, current)); [apply reset_dictionary_well_kept | exact Hrun]. }
    split; [done|]. apply synchronized_strings_injective, Hkept.
  - intros self first old_code codes st result old' Hrun.
    assert (Hsync : synchronized st).
    { apply (decompress_loop_synchronized codes (reset_dictionary self, [first], old_code)
               (st, result, old')); [apply reset_dictionary_synchronized | exact Hrun]. }
    split; [done|]. split; [|by apply synchronized_strings_injective].
    apply (decompress_loop_complete codes (reset_dictionary self, [first], old_code)
             (st, result, old')); [apply reset_dictionary_first_free_code | exact Hrun].
  - intros self code1 code2 s (_ & _ & Hback) Hcode1 Hs1.
    pose proof (Hback code1 (own_string_from_256 _ _ Hcode1) s Hs1) as Hd1.
    split; [done|]. intros Hcode2 Hs2.
    pose proof (Hback code2 (own_string_from_256 _ _ Hcode2) s Hs2). congruence.
Qed.

Lemma dictionaries_synchronized_abab :
  well_kept (add_entry (py "ab") (reset_dictionary (HybridLZW77Compressor_init 65536 utf_8)))
  /\ after
       (LZW77.compress_loop
          (reset_dictionary (HybridLZW77Compressor_init 65536 utf_8), [], []) (py "abab"))
       (fun st => well_kept st.1.1 /\ strings_injective st.1.1)
  /\ after
       (LZW77.decompress_loop
          (reset_dictionary (HybridLZW77Compressor_init 65536 utf_8), [py "a"], 97) [98; 387])
       (fun st => synchronized st.1.1 /\ codes_complete st.1.1 /\ strings_injective st.1.1)
  /\ after
       (LZW77.compress_loop
          (reset_dictionary (HybridLZW77Compressor_init 65536 latin_1), [], []) (py "abab"))
       (fun st => inverse_mappings st.1.1 /\ codes_injective st.1.1).
Proof.
  destruct dictionaries_synchronized
    as (Hreset & _ & Hadd & Hcompress & Hdecompress & _ & Hlatin).
  split; [apply Hadd; [vm_compute; reflexivity | apply Hreset]|]. split; [|split].
  - apply after_intro; [vm_compute; reflexivity|].
    intros [[st result] current] E. exact (Hcompress _ _ _ _ _ E).
  - apply after_intro; [vm_compute; reflexivity|].
    intros [[st result] old] E. exact (Hdecompress _ _ _ _ _ _ _ E).
  - apply after_intro; [vm_compute; reflexivity|].
    intros [[st result] current] E. apply Hlatin.
    + assert (Henc : match LZW77.compress_loop
                             (reset_dictionary (HybridLZW77Compressor_init 65536 latin_1),
                              [], []) (py "abab") with
                     | Ok st => Some (encoding st.1.1)
                     | Raise _ => None
                     end = Some latin_1) by (vm_compute; reflexivity).
      rewrite E in Henc. by injection Henc.
    + exact (proj1 (Hcompress _ _ _ _ _ E)).
Defined.

(** ** One turn of the [decompress] loop, case by case *)

Lemma decompress_code_entry (self : Compressor) (result : list str) (old_code code : Z)
    (c : N) (tail : str) :
  LZW77.resolve_code self old_code code = Ok (c :: tail) ->
  LZW77.decompress_code (self, result, old_code) code
  = match reverse_dictionary (entry_dictionary self) !! old_code with
    | Some previous =>
        Ok (add_entry (previous ++ [c]) (entry_dictionary self), result ++ [c :: tail], code)
    | None => Raise (KeyError_int old_code)
    end.
Proof.
  intros Hres. unfold LZW77.decompress_code, entry_dictionary. rewrite Hres. cbn.
  unfold reverse_dictionary_getitem.
  destruct (next_code self <? max_dict_size self);
    by destruct (reverse_dictionary _ !! old_code).
Qed.

Lemma decompress_code_previous_gone (self : Compressor) (result : list str)
    (old_code code : Z) :
  reverse_dictionary self !! code = None ->
  code = next_code self ->
  reverse_dictionary self !! old_code = None ->
  LZW77.decompress_code (self, result, old_code) code = Raise (KeyError_int old_code).
Proof.
  intros Hnone -> Hold.
  unfold LZW77.decompress_code, LZW77.resolve_code, reverse_dictionary_getitem.
  by rewrite (contains_false _ _ Hnone), Z.eqb_refl, Hold.
Qed.

(** What [decompress] returns is decided by the turn at which the loop
    stands: an exception raised there is raised by the call. *)
Lemma decompress_raises_at (this : Compressor) (data : bytes) (codes : list Z)
    (st : Compressor * list str * Z) (code : Z) (rest : list Z) (e : exception) :
  data <> [] ->
  LZW77._decode_codes data = codes ++ code :: rest ->
  decoder_reaches (reset_dictionary this) codes st ->
  LZW77.decompress_code st code = Raise e ->
  LZW77.decompress this data = Raise e
  /\ Hybrid.decompress this data = Raise (DecompressionFailed e).
Proof.
  intros Hdata Hcodes Hreach Hstep.
  assert (Hraise : LZW77.decompress this data = Raise e).
  { unfold LZW77.decompress. destruct data as [|x data]; [done|]. rewrite Hcodes.
    destruct codes as [|first_code before]; [done|].
    destruct Hreach as (first & Hfirst & Hloop).
    cbn [app]. unfold reverse_dictionary_getitem. rewrite Hfirst. cbn.
    rewrite decompress_loop_app, Hloop. cbn. by rewrite Hstep. }
  split; [done|]. unfold Hybrid.decompress. by rewrite Hraise.
Qed.

Lemma decompress_returns_at (this : Compressor) (data : bytes) (codes : list Z)
    (st : Compressor * list str * Z) (code : Z)
    (self' : Compressor) (result' : list str) (old_code' : Z) :
  data <> [] ->
  LZW77._decode_codes data = codes ++ [code] ->
  decoder_reaches (reset_dictionary this) codes st ->
  LZW77.decompress_code st code = Ok (self', result', old_code') ->
  LZW77.decompress this data = Ok (self', concat result')
  /\ Hybrid.decompress this data = Ok (self', concat result').
Proof.
  intros Hdata Hcodes Hreach Hstep.
  assert (Hok : LZW77.decompress this data = Ok (self', concat result')).
  { unfold LZW77.decompress. destruct data as [|x data]; [done|]. rewrite Hcodes.
    destruct codes as [|first_code before]; [done|].
    destruct Hreach as (first & Hfirst & Hloop).
    cbn [app]. unfold reverse_dictionary_getitem. rewrite Hfirst. cbn.
    rewrite decompress_loop_app, Hloop. cbn. by rewrite Hstep. }
  split; [done|]. unfold Hybrid.decompress. by rewrite Hok.
Qed.

(** *** How the loop comes to a previous code that is gone *)

Section PreviousCodeDropped.
Variable this : Compressor.
Variables (b : Z) (c : N) (tail : str).
Hypothesis Hb : reverse_dictionary (reset_dictionary this) !! b = Some (c :: tail).

(** Reading the known code [b] over and over fills the dictionary: every
    turn finds room and learns one entry. *)
Lemma decompress_loop_fills (j : nat) :
  forall (s : Compressor) (result : list str) (old_code : Z) (previous : str),
  synchronized s ->
  same_configuration s this ->
  reverse_dictionary s !! b = Some (c :: tail) ->
  reverse_dictionary s !! old_code = Some previous ->
  (forall code, next_code (reset_dictionary this) <= code < next_code s ->
                exists x xs, reverse_dictionary s !! code = Some (x :: xs)) ->
  next_code s + Z.of_nat (S j) <= max_dict_size this ->
  exists s' result',
    LZW77.decompress_loop (s, result, old_code) (repeat b (S j)) = Ok (s', result', b)
    /\ synchronized s'
    /\ same_configuration s' this
    /\ reverse_dictionary s' !! b = Some (c :: tail)
    /\ (forall code, next_code (reset_dictionary this) <= code < next_code s' ->
                     exists x xs, reverse_dictionary s' !! code = Some (x :: xs))
    /\ next_code s' = next_code s + Z.of_nat (S j).
Proof.
  induction j as [|j IH]; intros s result old_code previous Hsync Hconf Hbs Hold Hlearned
                                 Hroom.
  all: pose proof Hconf as (Hmax & _).
  all: assert (Hstep : LZW77.decompress_code (s, result, old_code) b
                       = Ok (add_entry (previous ++ [c]) s, result ++ [c :: tail], b)).
  1,3: rewrite (decompress_code_entry s result old_code b c tail)
         by (by apply resolve_code_known);
       unfold entry_dictionary;
       replace (next_code s <? max_dict_size s) with true
         by (symmetry; apply Z.ltb_lt; lia);
       by rewrite Hold.
  all: assert (Hb' : reverse_dictionary (add_entry (previous ++ [c]) s) !! b
                     = Some (c :: tail)).
  1,3: cbn; rewrite lookup_insert_ne; [done|];
       destruct Hsync as (_ & Hin & _); apply Hin in Hbs; lia.
  all: assert (Hlearned' : forall code,
                 next_code (reset_dictionary this) <= code
                   < next_code (add_entry (previous ++ [c]) s) ->
                 exists x xs,
                   reverse_dictionary (add_entry (previous ++ [c]) s) !! code
                   = Some (x :: xs)).
  1,3: intros code Hcode; cbn in Hcode |- *; rewrite lookup_insert; case_decide;
       [destruct previous; by eexists _, _ | apply Hlearned; lia].
  - exists (add_entry (previous ++ [c]) s), (result ++ [c :: tail]).
    cbn [repeat LZW77.decompress_loop]. rewrite Hstep. cbn.
    split; [done|]. split; [by apply add_entry_synchronized|].
    split; [by apply same_configuration_add_entry|]. split; [done|].
    split; [done|]. lia.
  - destruct (IH (add_entry (previous ++ [c]) s) (result ++ [c :: tail]) b (c :: tail))
      as (s' & result' & Hloop & Hsync' & Hconf' & Hbs' & Hl' & Hnext');
      [by apply add_entry_synchronized | by apply same_configuration_add_entry
      | done | done | done | cbn; lia |].
    exists s', result'. change (repeat b (S (S j))) with (b :: repeat b (S j)).
    cbn [LZW77.decompress_loop]. rewrite Hstep. cbn [mbind result_bind].
    split; [done|]. split; [done|]. split; [done|]. split; [done|]. split; [done|].
    cbn in Hnext'. lia.
Qed.

(** With the dictionary full, the turn that reads a learned code, or the
    pending one, resets the dictionary and keeps that code for the
    previous one; the code is gone when the next turn looks it up. *)
Lemma decompress_loop_drops_previous (a : Z) (first : str) (k : nat) (code : Z) :
  reverse_dictionary (reset_dictionary this) !! a = Some first ->
  max_dict_size this = next_code (reset_dictionary this) + Z.of_nat (S k) ->
  next_code (reset_dictionary this) + 1 <= code <= max_dict_size this ->
  exists st,
    decoder_reaches (reset_dictionary this) (a :: repeat b (S k) ++ [code]) st
    /\ LZW77.decompress_code st (next_code (reset_dictionary this) + 1)
       = Raise (KeyError_int code).
Proof.
  intros Ha Hmax Hcode.
  pose proof (reset_dictionary_synchronized this) as Hsync0.
  destruct (decompress_loop_fills k (reset_dictionary this) [first] a first)
    as (s & result & Hloop & Hsync & Hconf & Hbs & Hlearned & Hnext);
    [done | apply same_configuration_reset | done | done | intros; lia | lia |].
  assert (Hfull : (next_code s <? max_dict_size s) = false).
  { destruct Hconf as (-> & _). apply Z.ltb_ge. lia. }
  assert (Hentry : entry_dictionary s = reset_dictionary this).
  { unfold entry_dictionary. rewrite Hfull. by apply reset_same_configuration. }
  assert (Hres : exists x xs, LZW77.resolve_code s b code = Ok (x :: xs)).
  { destruct (decide (code = max_dict_size this)) as [->|Hlt].
    - exists c, (tail ++ [c]).
      apply (resolve_code_pending s b (max_dict_size this) c tail); [|lia|done].
      destruct Hsync as (_ & Hin & _).
      destruct (reverse_dictionary s !! max_dict_size this) as [x|] eqn:Hx; [|done].
      apply Hin in Hx. lia.
    - destruct (Hlearned code) as (x & xs & Hx); [lia|].
      exists x, xs. by apply resolve_code_known. }
  destruct Hres as (x & xs & Hres).
  exists (add_entry ((c :: tail) ++ [x]) (reset_dictionary this), result ++ [x :: xs], code).
  split.
  - exists first. split; [done|].
    rewrite decompress_loop_app, Hloop. cbn [mbind result_bind LZW77.decompress_loop].
    rewrite (decompress_code_entry s result b code x xs Hres), Hentry, Hb. done.
  - destruct Hsync0 as (_ & Hin0 & _).
    assert (Habove : forall n, next_code (reset_dictionary this) < n ->
              reverse_dictionary (add_entry ((c :: tail) ++ [x]) (reset_dictionary this)) !! n
              = None).
    { intros n Hn. cbn. rewrite lookup_insert_ne by lia.
      destruct (reverse_dictionary (reset_dictionary this) !! n) as [y|] eqn:Hy; [|done].
      apply Hin0 in Hy. lia. }
    apply decompress_code_previous_gone; [apply Habove; lia | done | apply Habove; lia].
Qed.

End PreviousCodeDropped.

(** C5, what the code does.  A code after the first that is in the
    reverse mapping gives its string, and one that is not and equals
    [next_code] gives the previous string followed by its first symbol; the
    chunk is appended to the result, an entry is learned and the code
    becomes the previous one.  Any other code raises the invalid-code
    [ValueError].  But the previous string is not kept: it is looked up
    again by its code, [reverse_dictionary[old_code]], and a reset of the
    full dictionary drops the codes learned before it.  So there are
    further outcomes: the [KeyError] of that lookup, when the code
    equals [next_code] (line 107) and when the entry is built (lines 113
    and 120).  The first is reached, in every compressor whose dictionary
    has room for an entry, by the codes [a], then [b] until the dictionary
    is full, then a learned or pending code, then [next_code]. *)
Theorem decode_case_analysis (self : Compressor) (result : list str) (old_code code : Z) :
  (forall c tail previous,
      reverse_dictionary self !! code = Some (c :: tail) ->
      reverse_dictionary (entry_dictionary self) !! old_code = Some previous ->
      LZW77.decompress_code (self, result, old_code) code
      = Ok (add_entry (previous ++ [c]) (entry_dictionary self), result ++ [c :: tail], code))
  /\ (forall c tail previous,
        reverse_dictionary self !! code = None ->
        code = next_code self ->
        reverse_dictionary self !! old_code = Some (c :: tail) ->
        reverse_dictionary (entry_dictionary self) !! old_code = Some previous ->
        LZW77.decompress_code (self, result, old_code) code
        = Ok (add_entry (previous ++ [c]) (entry_dictionary self),
              result ++ [(c :: tail) ++ [c]], code))
  /\ (reverse_dictionary self !! code = None ->
      code <> next_code self ->
      LZW77.decompress_code (self, result, old_code) code = Raise (InvalidCode code))
  /\ (reverse_dictionary self !! code = None ->
      code = next_code self ->
      reverse_dictionary self !! old_code = None ->
      LZW77.decompress_code (self, result, old_code) code = Raise (KeyError_int old_code))
  /\ (forall c tail,
        reverse_dictionary self !! code = Some (c :: tail)
        \/ (reverse_dictionary self !! code = None /\ code = next_code self
            /\ reverse_dictionary self !! old_code = Some (c :: tail)) ->
        reverse_dictionary (entry_dictionary self) !! old_code = None ->
        LZW77.decompress_code (self, result, old_code) code = Raise (KeyError_int old_code))
  /\ (forall this data codes rest e,
        data <> [] ->
        LZW77._decode_codes data = codes ++ code :: rest ->
        decoder_reaches (reset_dictionary this) codes (self, result, old_code) ->
        LZW77.decompress_code (self, result, old_code) code = Raise e ->
        LZW77.decompress this data = Raise e
        /\ Hybrid.decompress this data = Raise (DecompressionFailed e))
  /\ (forall this data codes self' result' old_code',
        data <> [] ->
        LZW77._decode_codes data = codes ++ [code] ->
        decoder_reaches (reset_dictionary this) codes (self, result, old_code) ->
        LZW77.decompress_code (self, result, old_code) code = Ok (self', result', old_code') ->
        LZW77.decompress this data = Ok (self', concat result')
        /\ Hybrid.decompress this data = Ok (self', concat result'))
  /\ (forall data a b first c tail k rest,
        data <> [] ->
        reverse_dictionary (reset_dictionary self) !! a = Some first ->
        reverse_dictionary (reset_dictionary self) !! b = Some (c :: tail) ->
        max_dict_size self = next_code (reset_dictionary self) + Z.of_nat (S k) ->
        next_code (reset_dictionary self) + 1 <= code <= max_dict_size self ->
        LZW77._decode_codes data
        = (a :: repeat b (S k) ++ [code]) ++ (next_code (reset_dictionary self) + 1) :: rest ->
        LZW77.decompress self data = Raise (KeyError_int code)
        /\ Hybrid.decompress self data = Raise (DecompressionFailed (KeyError_int code))).
Proof.
  split; [|split; [|split; [|split; [|split; [|split; [|split]]]]]].
  - intros c tail previous Hcode Hold.
    rewrite (decompress_code_entry self result old_code code c tail)
      by (by apply resolve_code_known).
    by rewrite Hold.
  - intros c tail previous Hnone Hnext Hprev Hold.
    rewrite (decompress_code_entry self result old_code code c (tail ++ [c]))
      by (by apply resolve_code_pending).
    by rewrite Hold.
  - intros Hnone Hne. unfold LZW77.decompress_code.
    by rewrite (resolve_code_invalid _ _ _ Hnone Hne).
  - apply decompress_code_previous_gone.
  - intros c tail Hchunk Hold.
    destruct Hchunk as [Hknown|(Hnone & Hnext & Hprev)].
    + rewrite (decompress_code_entry self result old_code code c tail)
        by (by apply resolve_code_known).
      by rewrite Hold.
    + rewrite (decompress_code_entry self result old_code code c (tail ++ [c]))
        by (by apply resolve_code_pending).
      by rewrite Hold.
  - intros this data codes rest e. apply decompress_raises_at.
  - intros this data codes self' result' old_code'. apply decompress_returns_at.
  - intros data a b first c tail k rest Hdata Ha Hb Hmax Hcode Hcodes.
    destruct (decompress_loop_drops_previous self b c tail Hb a first k code Ha Hmax Hcode)
      as (st & Hreach & Hstep).
    by apply (decompress_raises_at self data (a :: repeat b (S k) ++ [code]) st
                (next_code (reset_dictionary self) + 1) rest).
Qed.

(** The codes 97, 98, 257, 257 read by [LZW77Compressor(257, 'latin-1')]:
    the third turn resets the full dictionary and keeps 257 for the
    previous code; the fourth finds 257 equal to [next_code] and looks the
    previous code up.  The same with the seeds of the hybrid class, whose
    dictionary has 384 entries after a reset. *)
Lemma decode_case_analysis_latin_1 :
  LZW77.decompress (LZW77Compressor_init 257 latin_1)
    [x00; x00; x00; x04; x00; x00; x00; x01; x00; x61; x00; x62; x01; x01; x01; x01]
  = Raise (KeyError_int 257)
  /\ Hybrid.decompress (HybridLZW77Compressor_init 385 latin_1)
       [x00; x00; x00; x04; x00; x00; x00; x81; x00; x61; x00; x62; x01; x81; x01; x81]
     = Raise (DecompressionFailed (KeyError_int 385)).
Proof.
  split.
  - destruct (decode_case_analysis (LZW77Compressor_init 257 latin_1) [] 0 257)
      as (_ & _ & _ & _ & _ & _ & _ & Hdropped).
    apply (Hdropped
             [x00; x00; x00; x04; x00; x00; x00; x01; x00; x61; x00; x62; x01; x01; x01; x01]
             97 98 (py "a") 98%N [] 0%nat []).
    + discriminate.
    + vm_compute. reflexivity.
    + vm_compute. reflexivity.
    + vm_compute. reflexivity.
    + vm_compute. split; discriminate.
    + vm_compute. reflexivity.
  - destruct (decode_case_analysis (HybridLZW77Compressor_init 385 latin_1) [] 0 385)
      as (_ & _ & _ & _ & _ & _ & _ & Hdropped).
    apply (Hdropped
             [x00; x00; x00; x04; x00; x00; x00; x81; x00; x61; x00; x62; x01; x81; x01; x81]
             97 98 (py "a") 98%N [] 0%nat []).
    + discriminate.
    + vm_compute. reflexivity.
    + vm_compute. reflexivity.
    + vm_compute. reflexivity.
    + vm_compute. split; discriminate.
    + vm_compute. reflexivity.
Defined.
